(** * Bellman Defense: the simulation engine and its graph module

    A shallow embedding of [src/game/graph.ts] (grid generation, Bellman-Ford)
    and [src/game/engine.ts] (tick, wave progression, placement and upgrade
    commands), together with the frame callback of [src/App.tsx].

    Conventions of the embedding.
    - A JavaScript [number] that the code only ever fills with integers
      (money, lives, counters, edge weights, pixel coordinates of nodes,
      millisecond timestamps) is a [Z]; a [number] that takes fractional
      values (hit points, speeds, positions of moving entities, progress,
      elapsed time) is an exact rational [Q].  Rounding of IEEE doubles is
      not modelled.
    - [Infinity] appears only in the distance table of [bellmanFord]; the
      table holds a [num], an integer or [PosInf].
    - A JS object used as a dictionary ([Record<string, _>]) is a [gmap];
      a missing key reads as [undefined], modelled by [None].  Keys
      inherited from [Object.prototype] are outside the model.
    - [Math.random()] and [Date.now()] read an explicit environment [Env];
      the k-th call of [Math.random] inside one engine call reads
      [random env k].
    - A [TypeError] raised by dereferencing [undefined] is the result
      [None] of a function into [option]. *)

From Stdlib Require Import ZArith QArith Qround Lqa Lia List Bool Ascii String.
From stdpp Require Import base option list gmap strings pretty.

Local Open Scope string_scope.
Local Open Scope Z_scope.

(** ** Numbers *)

(** [Math.floor] on a rational. *)
Definition Math_floor (q : Q) : Z := Qfloor q.

(** Strict and weak comparisons of rationals as booleans. *)
Definition Qltb (a b : Q) : bool := negb (Qle_bool b a).
Definition Qleb (a b : Q) : bool := Qle_bool a b.

(** [Math.sqrt], rounded down to a multiple of 2^-52; exact on the squares
    of such multiples (in particular on squares of integers). *)
Definition Math_sqrt (q : Q) : Q :=
  Qmake (Z.sqrt (Qfloor (q * inject_Z (2 ^ 104)))) (2 ^ 52)%positive.

(** ** Environment: the random source and the wall clock *)

Record Env := mkEnv {
  random : nat -> Q;
  random_range : forall k, (0 <= random k)%Q /\ (random k < 1)%Q;
  date_now : nat -> Z
}.

(** ** graph.ts *)

Module Graph.

Record Node := mkNode {
  id : string;
  x : Z;
  y : Z;
  isPath : bool;
  towerId : option string
}.

Record Edge := mkEdge {
  from : string;
  to : string;
  weight : Z;
  isWarp : bool
}.

(** A distance: a finite integer or [Infinity]. *)
Inductive num := Fin (z : Z) | PosInf.

Definition num_add (a : num) (w : Z) : num :=
  match a with Fin z => Fin (z + w) | PosInf => PosInf end.

Definition num_ltb (a b : num) : bool :=
  match a, b with
  | Fin p, Fin q => p <? q
  | Fin _, PosInf => true
  | PosInf, _ => false
  end.

Record PathResult := mkPathResult {
  distances : gmap string num;
  predecessors : gmap string (option string);
  hasNegativeCycle : bool
}.

Record GraphData := mkGraphData {
  nodes : list Node;
  edges : list Edge;
  startNodeId : string;
  endNodeId : string
}.

Definition GRID_SIZE : Z := 10.
Definition NODE_SPACING : Z := 60.
Definition MARGIN : Z := 40.

(** The template literal [`node_${x}_${y}`]. *)
Definition node_id (x y : Z) : string :=
  "node_" +:+ pretty x +:+ "_" +:+ pretty y.

(** The two nested loops [for y ... for x ...] enumerate the grid row by
    row. *)
Definition grid_cells : list (Z * Z) :=
  y ← seqZ 0 GRID_SIZE; x ← seqZ 0 GRID_SIZE; [(x, y)].

Definition initial_nodes : list Node :=
  (fun c : Z * Z =>
     mkNode (node_id c.1 c.2)
            (MARGIN + c.1 * NODE_SPACING) (MARGIN + c.2 * NODE_SPACING)
            false None) <$> grid_cells.

(** One iteration of the [while] loop of [createPath].  [Math.random] is
    read only when [curX < GRID_SIZE - 1] holds and
    [curY === GRID_SIZE - 1] fails (short-circuit evaluation); [k] counts
    the reads made so far. *)
Definition createPath_step (env : Env) (k : nat) (curX curY : Z)
  : Z * Z * nat :=
  if curX <? GRID_SIZE - 1 then
    if curY =? GRID_SIZE - 1 then (curX + 1, curY, k)
    else if Qltb (1 # 2) (random env k) then (curX + 1, curY, S k)
    else if curY <? GRID_SIZE - 1 then (curX, curY + 1, S k)
    else (curX, curY, S k)
  else if curY <? GRID_SIZE - 1 then (curX, curY + 1, k)
  else (curX, curY, k).

(** The [while] loop of [createPath]; [None] when the fuel runs out before
    the loop condition fails. *)
Fixpoint createPath_loop (fuel : nat) (env : Env) (k : nat) (curX curY : Z)
    (pathNodeIds : gset string) : option (gset string * nat) :=
  if (curX <? GRID_SIZE - 1) || (curY <? GRID_SIZE - 1) then
    match fuel with
    | O => None
    | S fuel' =>
        let '(nx, ny, k') := createPath_step env k curX curY in
        createPath_loop fuel' env k' nx ny ({[ node_id nx ny ]} ∪ pathNodeIds)
    end
  else Some (pathNodeIds, k).

(** Every iteration moves one cell towards the corner, so the loop makes at
    most [2 * (GRID_SIZE - 1)] iterations. *)
Definition createPath_fuel : nat := Z.to_nat (2 * (GRID_SIZE - 1)).

Definition createPath (env : Env) (k : nat) (pathNodeIds : gset string)
  : option (gset string * nat) :=
  createPath_loop createPath_fuel env k 0 0 ({[ node_id 0 0 ]} ∪ pathNodeIds).

(** [for (let i = 0; i < numPaths; i++) createPath()]. *)
Fixpoint createPaths (n : nat) (env : Env) (k : nat)
    (pathNodeIds : gset string) : option (gset string * nat) :=
  match n with
  | O => Some (pathNodeIds, k)
  | S n' =>
      match createPath env k pathNodeIds with
      | Some (ids, k') => createPaths n' env k' ids
      | None => None
      end
  end.

(** The loop adding [extraNodes] random cells; two reads of [Math.random]
    per iteration. *)
Fixpoint addExtraNodes (n : nat) (env : Env) (k : nat)
    (pathNodeIds : gset string) : gset string * nat :=
  match n with
  | O => (pathNodeIds, k)
  | S n' =>
      let rx := Math_floor (random env k * inject_Z GRID_SIZE) in
      let ry := Math_floor (random env (S k) * inject_Z GRID_SIZE) in
      addExtraNodes n' env (S (S k)) ({[ node_id rx ry ]} ∪ pathNodeIds)
  end.

Definition markPath (pathNodeIds : gset string) (n : Node) : Node :=
  if bool_decide (id n ∈ pathNodeIds)
  then mkNode (id n) (x n) (y n) true (towerId n)
  else n.

(** The edges pushed for one cell: towards the right neighbour, then
    towards the lower neighbour, each as a pair of opposite edges. *)
Definition cellEdges (pathNodeIds : gset string) (c : Z * Z) : list Edge :=
  nb ← [(c.1 + 1, c.2); (c.1, c.2 + 1)];
  if (nb.1 <? GRID_SIZE) && (nb.2 <? GRID_SIZE) then
    if bool_decide (node_id c.1 c.2 ∈ pathNodeIds)
       && bool_decide (node_id nb.1 nb.2 ∈ pathNodeIds)
    then [ mkEdge (node_id c.1 c.2) (node_id nb.1 nb.2) 10 false;
           mkEdge (node_id nb.1 nb.2) (node_id c.1 c.2) 10 false ]
    else []
  else [].

Definition adjacencyEdges (pathNodeIds : gset string) : list Edge :=
  c ← grid_cells; cellEdges pathNodeIds c.

(** Grid coordinate recovered from a pixel coordinate:
    [(n.x - MARGIN) / NODE_SPACING]. *)
Definition gridCoord (p : Z) : Q :=
  (inject_Z (p - MARGIN) / inject_Z NODE_SPACING)%Q.

Definition MIN_DIST_TO_END : Q := 8.

Definition isCandidateFrom (n : Node) : bool :=
  Qltb (gridCoord (x n) + gridCoord (y n)) (inject_Z GRID_SIZE * (4 # 10)).

Definition isCandidateTo (n : Node) : bool :=
  Qleb MIN_DIST_TO_END
       ((inject_Z (GRID_SIZE - 1) - gridCoord (x n))
        + (inject_Z (GRID_SIZE - 1) - gridCoord (y n))).

(** The warp block (stage 2 and later): the edges it pushes, or [None]
    when an array read yields [undefined] and the following property
    access throws. *)
Definition warpEdges (env : Env) (k : nat) (stage : Z) (nodes : list Node)
  : option (list Edge) :=
  if 2 <=? stage then
    let pNodes := List.filter isPath nodes in
    if (10 <? Z.of_nat (length pNodes)) then
      let candidateFromNodes := List.filter isCandidateFrom pNodes in
      let candidateToNodes := List.filter isCandidateTo pNodes in
      if (0 <? Z.of_nat (length candidateFromNodes))
         && (0 <? Z.of_nat (length candidateToNodes)) then
        let i := Math_floor (random env k
                             * inject_Z (Z.of_nat (length candidateFromNodes))) in
        let j := Math_floor (random env (S k)
                             * inject_Z (Z.of_nat (length candidateToNodes))) in
        match candidateFromNodes !! Z.to_nat i, candidateToNodes !! Z.to_nat j with
        | Some from, Some to =>
            let fromX := gridCoord (x from) in
            let fromY := gridCoord (y from) in
            let toX := gridCoord (x to) in
            let toY := gridCoord (y to) in
            let warpDistance := ((toX + toY) - (fromX + fromY))%Q in
            let totalDistanceEstimate := inject_Z ((GRID_SIZE - 1) * 2) in
            if negb (String.eqb (id from) (id to))
               && Qltb 2 warpDistance
               && Qltb warpDistance (totalDistanceEstimate * (1 # 2))
            then Some [ mkEdge (id from) (id to) (-15) true ]
            else Some []
        | _, _ => None
        end
      else Some []
    else Some []
  else Some [].

Definition generateGraph (env : Env) (stage : Z) : option GraphData :=
  let startNodeId := "node_0_0" in
  let endNodeId := node_id (GRID_SIZE - 1) (GRID_SIZE - 1) in
  let numPaths := Z.min stage 3 in
  match createPaths (Z.to_nat numPaths) env 0 ∅ with
  | None => None
  | Some (ids1, k1) =>
      let extraNodes := 10 + stage * 5 in
      let '(pathNodeIds, k2) := addExtraNodes (Z.to_nat extraNodes) env k1 ids1 in
      let nodes := markPath pathNodeIds <$> initial_nodes in
      match warpEdges env k2 stage nodes with
      | None => None
      | Some warp =>
          Some (mkGraphData nodes ((adjacencyEdges pathNodeIds ++ warp)%list)
                            startNodeId endNodeId)
      end
  end.

(** The test [distances[edge.from] + edge.weight < distances[edge.to]].
    When either key is missing an operand is [undefined], the comparison
    involves [NaN] and is false. *)
Definition relaxable (distances : gmap string num) (edge : Edge) : bool :=
  match distances !! from edge, distances !! to edge with
  | Some du, Some dv => num_ltb (num_add du (weight edge)) dv
  | _, _ => false
  end.

(** The body of the inner loop of a relaxation pass, on the triple
    [(distances, predecessors, changed)]. *)
Definition relax (st : gmap string num * gmap string (option string) * bool)
    (edge : Edge) : gmap string num * gmap string (option string) * bool :=
  let '(distances, predecessors, changed) := st in
  match distances !! from edge with
  | Some du =>
      if relaxable distances edge
      then (<[to edge := num_add du (weight edge)]> distances,
            <[to edge := Some (from edge)]> predecessors,
            true)
      else st
  | None => st
  end.

(** The outer loop: at most [n] passes, stopping after the first pass that
    changes nothing. *)
Fixpoint relaxPasses (n : nat) (edges : list Edge)
    (distances : gmap string num) (predecessors : gmap string (option string))
  : gmap string num * gmap string (option string) :=
  match n with
  | O => (distances, predecessors)
  | S n' =>
      let '(d, p, changed) := foldl relax (distances, predecessors, false) edges in
      if changed then relaxPasses n' edges d p else (d, p)
  end.

(** The body of the initialisation loop. *)
Definition initStep (t : gmap string num * gmap string (option string))
    (node : Node) : gmap string num * gmap string (option string) :=
  (<[id node := PosInf]> t.1, <[id node := None]> t.2).

Definition initTables (nodes : list Node) (sourceId : string)
  : gmap string num * gmap string (option string) :=
  let '(d, p) := foldl initStep (∅, ∅) nodes in
  (<[sourceId := Fin 0]> d, p).

Definition bellmanFord (nodes : list Node) (edges : list Edge)
    (sourceId : string) : PathResult :=
  let '(d0, p0) := initTables nodes sourceId in
  let '(d, p) := relaxPasses (length nodes - 1) edges d0 p0 in
  mkPathResult d p (existsb (relaxable d) edges).

(** The values [current] takes inside the loop of [getPath]: a string, or
    [undefined] after a read of a missing key; [null] ends the loop and is
    the [None] of [option jsref]. *)
Inductive jsref := Str (s : string) | Undefined.

(** The property key a value is converted to. *)
Definition refKey (c : jsref) : string :=
  match c with
  | Str s => s
  | Undefined => "undefined"
  end.

(** [predecessors[current]]. *)
Definition readPred (predecessors : gmap string (option string))
    (current : jsref) : option jsref :=
  match predecessors !! refKey current with
  | None => Some Undefined
  | Some None => None
  | Some (Some u) => Some (Str u)
  end.

(** The [while (current !== null)] loop of [getPath]; [path.unshift] puts
    the value in front.  [None] when the fuel runs out before [current] is
    [null]. *)
Fixpoint getPath_loop (fuel : nat) (predecessors : gmap string (option string))
    (current : option jsref) (path : list jsref) : option (list jsref) :=
  match current with
  | None => Some path
  | Some c =>
      match fuel with
      | O => None
      | S fuel' =>
          getPath_loop fuel' predecessors (readPred predecessors c) (c :: path)
      end
  end.

Definition getPath (fuel : nat) (predecessors : gmap string (option string))
    (targetId : string) : option (list jsref) :=
  getPath_loop fuel predecessors (Some (Str targetId)) [].

End Graph.

(** ** engine.ts *)

Module Engine.

Inductive EnemyType := E_basic | E_scout | E_tank | E_ghost.

Inductive TowerType :=
  T_basic | T_sniper | T_slow | T_fast_shot | T_heavy_shot | T_area_damage.

Inductive GameStatus :=
  build_phase | wave_countdown | playing | stage_transition | game_over | paused.

Definition TowerType_eqb (a b : TowerType) : bool :=
  match a, b with
  | T_basic, T_basic | T_sniper, T_sniper | T_slow, T_slow
  | T_fast_shot, T_fast_shot | T_heavy_shot, T_heavy_shot
  | T_area_damage, T_area_damage => true
  | _, _ => false
  end.

Definition GameStatus_eqb (a b : GameStatus) : bool :=
  match a, b with
  | build_phase, build_phase | wave_countdown, wave_countdown
  | playing, playing | stage_transition, stage_transition
  | game_over, game_over | paused, paused => true
  | _, _ => false
  end.

Record Enemy := mkEnemy {
  e_id : string;
  e_type : EnemyType;
  e_hp : Q;
  e_maxHp : Q;
  e_speed : Q;
  e_currentNodeId : string;
  e_nextNodeId : option string;   (* [null] and [undefined] are [None] *)
  e_x : Q;
  e_y : Q;
  e_progress : Q;
  e_reward : Z
}.

Record Tower := mkTower {
  t_id : string;
  t_nodeId : string;
  t_type : TowerType;
  t_damage : Z;
  t_range : Z;
  t_fireRate : Z;
  t_lastFired : Z;
  t_cost : Z;
  t_tier : Z;
  t_aoe : option Z
}.

Record Projectile := mkProjectile {
  p_id : string;
  p_x : Q;
  p_y : Q;
  p_targetId : string;
  p_speed : Z;
  p_damage : Z;
  p_aoe : option Z
}.

Record RoadBlock := mkRoadBlock {
  rb_nodeId : string;
  rb_expiresAt : Z
}.

Record GameState := mkGameState {
  nodes : list Graph.Node;
  edges : list Graph.Edge;
  enemies : list Enemy;
  towers : list Tower;
  projectiles : list Projectile;
  roadBlocks : list RoadBlock;
  money : Z;
  lives : Z;
  wave : Z;
  stage : Z;
  maxWavesPerStage : Z;
  status : GameStatus;
  timer : Q;
  spawnTimer : Q;
  enemiesToSpawn : Z;
  startNodeId : string;
  endNodeId : string
}.

Definition WAVES_PER_STAGE : Z := 5.

Record EnemyStats := mkEnemyStats {
  s_hp : Z;
  s_speed : Q;
  s_reward : Z;
  s_icon : string
}.

Definition ENEMY_TYPES (t : EnemyType) : EnemyStats :=
  match t with
  | E_scout => mkEnemyStats 30 (25 # 10) 6 "rocket_launch"
  | E_basic => mkEnemyStats 60 (15 # 10) 8 "bug_report"
  | E_tank => mkEnemyStats 200 (8 # 10) 18 "local_shipping"
  | E_ghost => mkEnemyStats 100 (12 # 10) 15 "visibility_off"
  end.

(** [Math.random().toString(36).substr(2, 9)]: the base-36 digits of the
    fractional part, at most nine of them.  [toString] prints no trailing
    zeros, so the digits stop as soon as nothing is left of the number:
    0.75 gives "r" and 0 gives the empty string.  (For a double that needs
    more than nine digits [toString] prints about eleven, the last one
    rounded; the first nine are those of the exact value, which is what the
    rational model yields.) *)
Definition base36_char (d : Z) : ascii :=
  match String.get (Z.to_nat d) "0123456789abcdefghijklmnopqrstuvwxyz" with
  | Some c => c
  | None => "0"%char
  end.

Fixpoint base36_fraction (n : nat) (q : Q) : string :=
  match n with
  | O => ""
  | S n' =>
      if Qeq_bool q 0 then ""
      else
        let d := Qfloor (q * 36) in
        String (base36_char d) (base36_fraction n' (q * 36 - inject_Z d))
  end.

Definition random_id (q : Q) : string := base36_fraction 9 q.

(** [nodes.find(n => n.id === nodeId)]. *)
Definition findNode (nodes : list Graph.Node) (nodeId : string)
  : option Graph.Node :=
  List.find (fun n => String.eqb (Graph.id n) nodeId) nodes.

(** A JS value used as a condition: a string is truthy unless empty, a
    number unless zero, [null] and [undefined] are falsy. *)
Definition truthy_string (s : option string) : bool :=
  match s with
  | Some s => negb (String.eqb s "")
  | None => false
  end.

Definition truthy_number (a : option Z) : bool :=
  match a with
  | Some a => negb (a =? 0)
  | None => false
  end.

Definition startNextWave (env : Env) (state : GameState) : option GameState :=
  if maxWavesPerStage state <=? wave state then
    let nextStage := stage state + 1 in
    map ← Graph.generateGraph env nextStage;
    Some (mkGameState
            (Graph.nodes map) (Graph.edges map)
            [] [] [] []
            800 20 1 nextStage (maxWavesPerStage state)
            playing (timer state) (spawnTimer state)
            (10 + nextStage * 2)
            (Graph.startNodeId map) (Graph.endNodeId map))
  else
    Some (mkGameState
            (nodes state) (edges state) (enemies state) (towers state)
            (projectiles state) (roadBlocks state)
            (money state) (lives state) (wave state + 1) (stage state)
            (maxWavesPerStage state)
            playing (timer state) (spawnTimer state)
            (10 + (wave state + 1) * 2)
            (startNodeId state) (endNodeId state)).

Definition initGameState (env : Env) : option GameState :=
  g ← Graph.generateGraph env 1;
  Some (mkGameState
          (Graph.nodes g) (Graph.edges g) [] [] [] []
          800 20 0 1 WAVES_PER_STAGE build_phase 10000 0 0
          (Graph.startNodeId g) (Graph.endNodeId g)).

(** *** The phases of [updateGame] *)

(** Euclidean distance between two pixel positions. *)
Definition distance (x1 y1 x2 y2 : Q) : Q :=
  Math_sqrt ((x1 - x2) * (x1 - x2) + (y1 - y2) * (y1 - y2))%Q.

(** The [towers.forEach] that adds the proximity penalty to one edge.
    Reading [tNode.x] or [toNode.x] of a missing node throws. *)
Fixpoint towerPenalty (nodes : list Graph.Node) (toNode : option Graph.Node)
    (towers : list Tower) (weight : Z) : option Z :=
  match towers with
  | [] => Some weight
  | t :: rest =>
      tNode ← findNode nodes (t_nodeId t);
      toN ← toNode;
      let dist := distance (inject_Z (Graph.x tNode)) (inject_Z (Graph.y tNode))
                           (inject_Z (Graph.x toN)) (inject_Z (Graph.y toN)) in
      towerPenalty nodes toNode rest
                   (if Qltb dist 100 then weight + 20 else weight)
  end.

Definition dynamicEdge (nodes : list Graph.Node) (roadBlocks : list RoadBlock)
    (towers : list Tower) (e : Graph.Edge) : option Graph.Edge :=
  let toNode := findNode nodes (Graph.to e) in
  let isBlocked :=
    existsb (fun rb => String.eqb (rb_nodeId rb) (Graph.to e)
                       || String.eqb (rb_nodeId rb) (Graph.from e))
            roadBlocks in
  weight ← (if isBlocked then Some 1000000
            else towerPenalty nodes toNode towers (Graph.weight e));
  Some (Graph.mkEdge (Graph.from e) (Graph.to e) weight (Graph.isWarp e)).

Definition reverseEdge (e : Graph.Edge) : Graph.Edge :=
  Graph.mkEdge (Graph.to e) (Graph.from e) (Graph.weight e) (Graph.isWarp e).

(** The type drawn for a spawned enemy. *)
Definition chooseEnemyType (stage wave : Z) (rand : Q) : EnemyType :=
  if (3 <=? stage) && Qltb rand (15 # 100) then E_ghost
  else if (Z.rem wave 5 =? 0) && Qltb rand (3 # 10) then E_tank
  else if Qltb rand (2 # 10) then E_scout
  else E_basic.

(** The spawn block.  Returns the new [spawnTimer], [enemiesToSpawn],
    enemy list and the number of reads of [Math.random]. *)
Definition spawn (env : Env) (state : GameState) (deltaTime : Q)
  : option (Q * Z * list Enemy * nat) :=
  if 0 <? enemiesToSpawn state then
    let spawnTimer' := (spawnTimer state + deltaTime)%Q in
    if Qltb 1000 spawnTimer' then
      startNode ← findNode (nodes state) (startNodeId state);
      let type := chooseEnemyType (stage state) (wave state) (random env 0) in
      let baseStats := ENEMY_TYPES type in
      let scaling := (1 + inject_Z (stage state - 1) * (5 # 10)
                        + inject_Z (wave state - 1) * (1 # 10))%Q in
      let enemy :=
        mkEnemy (random_id (random env 1)) type
                (inject_Z (s_hp baseStats) * scaling)
                (inject_Z (s_hp baseStats) * scaling)
                (s_speed baseStats)
                (startNodeId state) None
                (inject_Z (Graph.x startNode)) (inject_Z (Graph.y startNode))
                0 (s_reward baseStats) in
      Some (0%Q, enemiesToSpawn state - 1, (enemies state ++ [enemy])%list, 2%nat)
    else Some (spawnTimer', enemiesToSpawn state, enemies state, 0%nat)
  else Some (spawnTimer state, enemiesToSpawn state, enemies state, 0%nat).

(** The callback of [enemies.filter] on one enemy: the enemy after its
    fields were assigned, whether it is kept, and the new [lives] and
    [status]. *)
Definition moveEnemy (nodes : list Graph.Node) (roadBlocks : list RoadBlock)
    (endNodeId : string) (predecessors : gmap string (option string))
    (deltaTime : Q) (lives : Z) (status : GameStatus) (enemy : Enemy)
  : option (Enemy * bool * Z * GameStatus) :=
  let nextNodeId := mjoin (predecessors !! e_currentNodeId enemy) in
  let enemy1 :=
    mkEnemy (e_id enemy) (e_type enemy) (e_hp enemy) (e_maxHp enemy)
            (e_speed enemy) (e_currentNodeId enemy) nextNodeId
            (e_x enemy) (e_y enemy) (e_progress enemy) (e_reward enemy) in
  match nextNodeId with
  | Some next =>
      if truthy_string nextNodeId then
        let isNextNodeBlocked :=
          existsb (fun rb => String.eqb (rb_nodeId rb) next) roadBlocks in
        let progress :=
          if isNextNodeBlocked then e_progress enemy
          else (e_progress enemy + (e_speed enemy * deltaTime) / 1000)%Q in
        let startNode := findNode nodes (e_currentNodeId enemy) in
        let endNode := findNode nodes next in
        if Qleb 1 progress then
          endN ← endNode;
          Some (mkEnemy (e_id enemy) (e_type enemy) (e_hp enemy) (e_maxHp enemy)
                        (e_speed enemy) next nextNodeId
                        (inject_Z (Graph.x endN)) (inject_Z (Graph.y endN))
                        0 (e_reward enemy),
                Qltb 0 (e_hp enemy), lives, status)
        else if negb isNextNodeBlocked then
          startN ← startNode;
          endN ← endNode;
          Some (mkEnemy (e_id enemy) (e_type enemy) (e_hp enemy) (e_maxHp enemy)
                        (e_speed enemy) (e_currentNodeId enemy) nextNodeId
                        (inject_Z (Graph.x startN)
                         + (inject_Z (Graph.x endN) - inject_Z (Graph.x startN))
                           * progress)%Q
                        (inject_Z (Graph.y startN)
                         + (inject_Z (Graph.y endN) - inject_Z (Graph.y startN))
                           * progress)%Q
                        progress (e_reward enemy),
                Qltb 0 (e_hp enemy), lives, status)
        else
          Some (mkEnemy (e_id enemy) (e_type enemy) (e_hp enemy) (e_maxHp enemy)
                        (e_speed enemy) (e_currentNodeId enemy) nextNodeId
                        (e_x enemy) (e_y enemy) progress (e_reward enemy),
                Qltb 0 (e_hp enemy), lives, status)
      else if String.eqb (e_currentNodeId enemy) endNodeId then
        Some (enemy1, false, lives - 1,
              if lives - 1 <=? 0 then game_over else status)
      else Some (enemy1, true, lives, status)
  | None =>
      if String.eqb (e_currentNodeId enemy) endNodeId then
        Some (enemy1, false, lives - 1,
              if lives - 1 <=? 0 then game_over else status)
      else Some (enemy1, true, lives, status)
  end.

(** [newState.enemies.filter(...)], threading [lives] and [status]. *)
Fixpoint moveEnemies (nodes : list Graph.Node) (roadBlocks : list RoadBlock)
    (endNodeId : string) (predecessors : gmap string (option string))
    (deltaTime : Q) (lives : Z) (status : GameStatus) (es : list Enemy)
  : option (list Enemy * Z * GameStatus) :=
  match es with
  | [] => Some ([], lives, status)
  | enemy :: rest =>
      '(enemy', keep, lives', status') ←
        moveEnemy nodes roadBlocks endNodeId predecessors deltaTime
                  lives status enemy;
      '(rest', lives'', status'') ←
        moveEnemies nodes roadBlocks endNodeId predecessors deltaTime
                    lives' status' rest;
      Some (if keep : bool then enemy' :: rest' else rest', lives'', status'')
  end.

Definition damageEnemy (damage : Z) (e : Enemy) : Enemy :=
  mkEnemy (e_id e) (e_type e) (e_hp e - inject_Z damage)%Q (e_maxHp e)
          (e_speed e) (e_currentNodeId e) (e_nextNodeId e)
          (e_x e) (e_y e) (e_progress e) (e_reward e).

(** The area branch: [newState.enemies.forEach(...)] for a projectile [p]
    of area radius [aoe]. *)
Fixpoint areaDamage (p : Projectile) (aoe : Z) (es : list Enemy) (money : Z)
  : list Enemy * Z :=
  match es with
  | [] => ([], money)
  | e :: rest =>
      let edist := distance (e_x e) (e_y e) (p_x p) (p_y p) in
      let '(e', money') :=
        if Qleb edist (inject_Z aoe) then
          let e' := damageEnemy (p_damage p) e in
          (e', if Qleb (e_hp e') 0 && Qltb 0 (e_hp e' + inject_Z (p_damage p))
               then money + e_reward e' else money)
        else (e, money) in
      let '(rest', money'') := areaDamage p aoe rest money' in
      (e' :: rest', money'')
  end.

(** The single-target branch: the object returned by
    [enemies.find(e => e.id === p.targetId)] is updated in place, that is,
    the first enemy of the list with that id. *)
Fixpoint damageTarget (targetId : string) (damage : Z) (es : list Enemy)
  : list Enemy :=
  match es with
  | [] => []
  | e :: rest =>
      if String.eqb (e_id e) targetId then damageEnemy damage e :: rest
      else e :: damageTarget targetId damage rest
  end.

(** The callback of [projectiles.filter] on one projectile: the projectile
    when it is kept, and the enemies and money after its impact. *)
Definition moveProjectile (deltaTime : Q) (es : list Enemy) (money : Z)
    (p : Projectile) : option Projectile * list Enemy * Z :=
  match List.find (fun e => String.eqb (e_id e) (p_targetId p)) es with
  | None => (None, es, money)
  | Some target =>
      let dx := (e_x target - p_x p)%Q in
      let dy := (e_y target - p_y p)%Q in
      let dist := Math_sqrt (dx * dx + dy * dy)%Q in
      if Qltb dist 5 then
        if truthy_number (p_aoe p) then
          let '(es', money') := areaDamage p (default 0 (p_aoe p)) es money in
          (None, es', money')
        else
          let target' := damageEnemy (p_damage p) target in
          (None, damageTarget (p_targetId p) (p_damage p) es,
           if Qleb (e_hp target') 0 then money + e_reward target' else money)
      else
        let move := ((inject_Z (p_speed p) * deltaTime) / 1000)%Q in
        (Some (mkProjectile (p_id p)
                            (p_x p + (dx / dist) * move)%Q
                            (p_y p + (dy / dist) * move)%Q
                            (p_targetId p) (p_speed p) (p_damage p) (p_aoe p)),
         es, money)
  end.

(** [newState.projectiles.filter(...)], threading the enemies and money. *)
Fixpoint moveProjectiles (deltaTime : Q) (es : list Enemy) (money : Z)
    (ps : list Projectile) : list Projectile * list Enemy * Z :=
  match ps with
  | [] => ([], es, money)
  | p :: rest =>
      let '(kept, es', money') := moveProjectile deltaTime es money p in
      let '(rest', es'', money'') := moveProjectiles deltaTime es' money' rest in
      (match kept with Some p' => p' :: rest' | None => rest' end, es'', money'')
  end.

(** [enemies.find] with the range test of a tower; the callback reads
    [towerNode.x], which throws on a missing node as soon as there is an
    enemy to test. *)
Definition findTarget (towerNode : option Graph.Node) (range : Z)
    (es : list Enemy) : option (option Enemy) :=
  match es with
  | [] => Some None
  | _ =>
      tn ← towerNode;
      Some (List.find
              (fun e => Qleb (distance (e_x e) (e_y e)
                                       (inject_Z (Graph.x tn))
                                       (inject_Z (Graph.y tn)))
                             (inject_Z range))
              es)
  end.

(** The loop [for (const tower of newState.towers)]: the towers with their
    [lastFired] updated, the projectiles pushed, and the reads of
    [Math.random] made so far. *)
Fixpoint fireTowers (env : Env) (now : Z) (nodes : list Graph.Node)
    (es : list Enemy) (ts : list Tower) (ps : list Projectile) (k : nat)
  : option (list Tower * list Projectile * nat) :=
  match ts with
  | [] => Some ([], ps, k)
  | tower :: rest =>
      if t_fireRate tower <? now - t_lastFired tower then
        let towerNode := findNode nodes (t_nodeId tower) in
        target ← findTarget towerNode (t_range tower) es;
        match target with
        | Some target =>
            tn ← towerNode;
            let p := mkProjectile (random_id (random env k))
                                  (inject_Z (Graph.x tn)) (inject_Z (Graph.y tn))
                                  (e_id target) 300 (t_damage tower)
                                  (t_aoe tower) in
            let tower' :=
              mkTower (t_id tower) (t_nodeId tower) (t_type tower)
                      (t_damage tower) (t_range tower) (t_fireRate tower)
                      now (t_cost tower) (t_tier tower) (t_aoe tower) in
            '(rest', ps', k') ← fireTowers env now nodes es rest (ps ++ [p])%list (S k);
            Some (tower' :: rest', ps', k')
        | None =>
            '(rest', ps', k') ← fireTowers env now nodes es rest ps k;
            Some (tower :: rest', ps', k')
        end
      else
        '(rest', ps', k') ← fireTowers env now nodes es rest ps k;
        Some (tower :: rest', ps', k')
  end.

Definition updateGame (env : Env) (state : GameState) (deltaTime : Q)
  : option GameState :=
  match status state with
  | build_phase | stage_transition | wave_countdown =>
      let newState :=
        mkGameState (nodes state) (edges state) (enemies state) (towers state)
                    (projectiles state) (roadBlocks state)
                    (money state) (lives state) (wave state) (stage state)
                    (maxWavesPerStage state) (status state)
                    (timer state - deltaTime)%Q (spawnTimer state)
                    (enemiesToSpawn state)
                    (startNodeId state) (endNodeId state) in
      if Qleb (timer newState) 0 then startNextWave env newState
      else Some newState
  | game_over => Some state
  | playing | paused =>
      (* Update Road Blocks *)
      let nowMs := date_now env 0 in
      let roadBlocks' :=
        List.filter (fun rb => nowMs <? rb_expiresAt rb) (roadBlocks state) in
      (* Calculate dynamic weights *)
      dynamicEdges ←
        mapM (dynamicEdge (nodes state) roadBlocks' (towers state))
             (edges state);
      (* Spawn logic *)
      '(spawnTimer', enemiesToSpawn', enemies0, k) ← spawn env state deltaTime;
      (* Enemy movement & pathfinding *)
      let reversedEdges := reverseEdge <$> dynamicEdges in
      let toEnd :=
        Graph.bellmanFord (nodes state) reversedEdges (endNodeId state) in
      '(enemies1, lives', status') ←
        moveEnemies (nodes state) roadBlocks' (endNodeId state)
                    (Graph.predecessors toEnd) deltaTime
                    (lives state) (status state) enemies0;
      (* Projectiles movement *)
      let '(projectiles1, enemies2, money') :=
        moveProjectiles deltaTime enemies1 (money state) (projectiles state) in
      (* Towers shooting *)
      let now := date_now env 1 in
      '(towers', projectiles2, _) ←
        fireTowers env now (nodes state) enemies2 (towers state)
                   projectiles1 k;
      (* Wave completion check *)
      let done :=
        (Z.of_nat (length enemies2) =? 0) && (enemiesToSpawn' =? 0)
        && GameStatus_eqb status' playing in
      Some (mkGameState
              (nodes state) (edges state) enemies2 towers' projectiles2
              roadBlocks' money' lives' (wave state) (stage state)
              (maxWavesPerStage state)
              (if done then
                 if maxWavesPerStage state <=? wave state
                 then stage_transition else wave_countdown
               else status')
              (if done then
                 if maxWavesPerStage state <=? wave state
                 then 10000 else 5000
               else timer state)
              spawnTimer' enemiesToSpawn'
              (startNodeId state) (endNodeId state))
  end.

(** [towers.findIndex(f)]; [None] stands for [-1]. *)
Fixpoint findIndex {A} (f : A -> bool) (l : list A) : option nat :=
  match l with
  | [] => None
  | a :: rest => if f a then Some O else S <$> findIndex f rest
  end.

Definition upgradeTower (state : GameState) (towerId : string)
    (upgradeType : TowerType) : GameState :=
  match findIndex (fun t => String.eqb (t_id t) towerId) (towers state) with
  | None => state
  | Some towerIndex =>
      if money state <? 200 then state
      else
        match towers state !! towerIndex with
        | None => state
        | Some tower =>
            let upgraded : option Tower :=
              if t_tier tower =? 1 then
                let cost' := t_cost tower + 200 in
                Some
                  match upgradeType with
                  | T_fast_shot =>
                      mkTower (t_id tower) (t_nodeId tower) T_fast_shot 8
                              (t_range tower) 300 (t_lastFired tower) cost' 2
                              (t_aoe tower)
                  | T_heavy_shot =>
                      mkTower (t_id tower) (t_nodeId tower) T_heavy_shot 50
                              180 1500 (t_lastFired tower) cost' 2
                              (t_aoe tower)
                  | T_area_damage =>
                      mkTower (t_id tower) (t_nodeId tower) T_area_damage 15
                              (t_range tower) 1200 (t_lastFired tower) cost' 2
                              (Some 50)
                  | _ =>
                      mkTower (t_id tower) (t_nodeId tower) (t_type tower)
                              (t_damage tower) (t_range tower)
                              (t_fireRate tower) (t_lastFired tower) cost' 2
                              (t_aoe tower)
                  end
              else if t_tier tower =? 2 then
                if money state <? 400 then None
                else
                  let cost' := t_cost tower + 400 in
                  Some
                    match t_type tower with
                    | T_fast_shot =>
                        mkTower (t_id tower) (t_nodeId tower) (t_type tower) 12
                                (t_range tower) 100 (t_lastFired tower) cost' 3
                                (t_aoe tower)
                    | T_heavy_shot =>
                        mkTower (t_id tower) (t_nodeId tower) (t_type tower) 250
                                300 3000 (t_lastFired tower) cost' 3
                                (t_aoe tower)
                    | T_area_damage =>
                        mkTower (t_id tower) (t_nodeId tower) (t_type tower) 40
                                (t_range tower) 2000 (t_lastFired tower) cost' 3
                                (Some 100)
                    | _ =>
                        mkTower (t_id tower) (t_nodeId tower) (t_type tower)
                                (t_damage tower) (t_range tower)
                                (t_fireRate tower) (t_lastFired tower) cost' 3
                                (t_aoe tower)
                    end
              else None in
            match upgraded with
            | None => state
            | Some upgradedTower =>
                let cost := if t_tier tower =? 1 then 200 else 400 in
                if money state <? cost then state
                else
                  mkGameState
                    (nodes state) (edges state) (enemies state)
                    (<[towerIndex := upgradedTower]> (towers state))
                    (projectiles state) (roadBlocks state)
                    (money state - cost) (lives state) (wave state)
                    (stage state) (maxWavesPerStage state) (status state)
                    (timer state) (spawnTimer state) (enemiesToSpawn state)
                    (startNodeId state) (endNodeId state)
            end
        end
  end.

(** The tower created by [placeTower]. *)
Definition newTower (env : Env) (nodeId : string) : Tower :=
  mkTower (random_id (random env 0)) nodeId T_basic 10 120 800 0 100 1 None.

Definition placeTower (env : Env) (state : GameState) (nodeId : string)
  : GameState :=
  match findNode (nodes state) nodeId with
  | None => state
  | Some node =>
      if Graph.isPath node || (money state <? 100) then state
      else
        match List.find (fun t => String.eqb (t_nodeId t) nodeId)
                        (towers state) with
        | Some _ => state
        | None =>
            mkGameState
              (nodes state) (edges state) (enemies state)
              (towers state ++ [newTower env nodeId])%list
              (projectiles state) (roadBlocks state)
              (money state - 100) (lives state) (wave state)
              (stage state) (maxWavesPerStage state) (status state)
              (timer state) (spawnTimer state) (enemiesToSpawn state)
              (startNodeId state) (endNodeId state)
        end
  end.

(** The block created by [placeRoadBlock]. *)
Definition newRoadBlock (env : Env) (nodeId : string) : RoadBlock :=
  mkRoadBlock nodeId (date_now env 0 + 5000).

Definition placeRoadBlock (env : Env) (state : GameState) (nodeId : string)
  : GameState :=
  match findNode (nodes state) nodeId with
  | None => state
  | Some node =>
      if negb (Graph.isPath node) || (money state <? 50) then state
      else
        match List.find (fun rb => String.eqb (rb_nodeId rb) nodeId)
                        (roadBlocks state) with
        | Some _ => state
        | None =>
            mkGameState
              (nodes state) (edges state) (enemies state) (towers state)
              (projectiles state)
              (roadBlocks state ++ [newRoadBlock env nodeId])%list
              (money state - 50) (lives state) (wave state)
              (stage state) (maxWavesPerStage state) (status state)
              (timer state) (spawnTimer state) (enemiesToSpawn state)
              (startNodeId state) (endNodeId state)
        end
  end.

End Engine.

(** ** App.tsx: the callbacks that drive the engine *)

Module App.

Import Engine.

(** The state updater of [animate]: a paused state is returned as it is,
    without calling [updateGame]. *)
Definition animate (env : Env) (prev : GameState) (deltaTime : Q)
  : option GameState :=
  match status prev with
  | paused => Some prev
  | _ => updateGame env prev deltaTime
  end.

(** The updater of the Pause/Resume button. *)
Definition togglePause (prev : GameState) : GameState :=
  mkGameState
    (nodes prev) (edges prev) (enemies prev) (towers prev)
    (projectiles prev) (roadBlocks prev)
    (money prev) (lives prev) (wave prev) (stage prev)
    (maxWavesPerStage prev)
    (match status prev with paused => playing | _ => paused end)
    (timer prev) (spawnTimer prev) (enemiesToSpawn prev)
    (startNodeId prev) (endNodeId prev).

(** What the player and the frame clock can do to the state. *)
Inductive Command :=
| Tick (env : Env) (deltaTime : Q)
| Frame (env : Env) (deltaTime : Q)
| PlaceTower (env : Env) (nodeId : string)
| PlaceRoadBlock (env : Env) (nodeId : string)
| UpgradeTower (towerId : string) (upgradeType : TowerType)
| StartNextWave (env : Env)
| TogglePause.

Definition step (state : GameState) (c : Command) : option GameState :=
  match c with
  | Tick env dt => updateGame env state dt
  | Frame env dt => animate env state dt
  | PlaceTower env nodeId => Some (placeTower env state nodeId)
  | PlaceRoadBlock env nodeId => Some (placeRoadBlock env state nodeId)
  | UpgradeTower towerId upgradeType =>
      Some (upgradeTower state towerId upgradeType)
  | StartNextWave env => startNextWave env state
  | TogglePause => Some (togglePause state)
  end.

(** A session: the initial state, then the commands in order. *)
Fixpoint run (state : GameState) (cs : list Command) : option GameState :=
  match cs with
  | [] => Some state
  | c :: rest =>
      match step state c with
      | Some state' => run state' rest
      | None => None
      end
  end.

Definition session (env : Env) (cs : list Command) : option GameState :=
  match initGameState env with
  | Some state => run state cs
  | None => None
  end.

End App.

(** ** Vocabulary of the properties *)

Module Spec.

Import Graph.

(** [walk es s vs w v]: following edges of [es] from [s] one reaches [v];
    [vs] lists the vertices visited, the latest first, and [w] is the sum
    of the weights of the edges used. *)
Inductive walk (es : list Edge) (s : string)
  : list string -> Z -> string -> Prop :=
| walk_nil : walk es s [s] 0 s
| walk_step vs w u e :
    walk es s vs w u -> e ∈ es -> from e = u ->
    walk es s (to e :: vs) (w + weight e) (to e).

Definition reachable (es : list Edge) (s v : string) : Prop :=
  exists vs w, walk es s vs w v.

(** [z] is the least weight of a walk from [s] to [v]. *)
Definition shortest (es : list Edge) (s v : string) (z : Z) : Prop :=
  (exists vs, walk es s vs z v) /\ (forall vs w, walk es s vs w v -> z <= w).

(** The distance a correct single-source algorithm reports for [v]. *)
Definition true_distance (es : list Edge) (s v : string) (d : num) : Prop :=
  match d with
  | Fin z => shortest es s v z
  | PosInf => ~ reachable es s v
  end.

(** An edge both of whose endpoints are keys of the distance table. *)
Definition live (K : gset string) (e : Edge) : bool :=
  bool_decide (from e ∈ K) && bool_decide (to e ∈ K).

Definition node_ids (nodes : list Node) : gset string :=
  list_to_set (id <$> nodes).

(** The edges of the graph on a node set: those joining two of its nodes. *)
Definition graph_edges (nodes : list Node) (edges : list Edge) : list Edge :=
  List.filter (live (node_ids nodes)) edges.

(** What a correct single-source shortest-path computation returns on the
    graph of [nodes] and [edges]: a distance for every node and for nothing
    else, each the true distance; a predecessor entry for every node, [null]
    for the source and for the nodes not reached, and otherwise the origin
    of an edge along which the two distances differ by the weight of the
    edge; and no negative cycle reported. *)
Definition shortest_path_result (nodes : list Node) (edges : list Edge)
    (s : string) (r : PathResult) : Prop :=
  let G := graph_edges nodes edges in
  dom (distances r) = node_ids nodes
  /\ (forall v d, distances r !! v = Some d -> true_distance G s v d)
  /\ dom (predecessors r) = node_ids nodes
  /\ (forall v, predecessors r !! v = Some None <->
         v ∈ node_ids nodes /\ (v = s \/ distances r !! v = Some PosInf))
  /\ (forall v u, predecessors r !! v = Some (Some u) ->
         exists e zu, e ∈ G /\ from e = u /\ to e = v
           /\ distances r !! u = Some (Fin zu)
           /\ distances r !! v = Some (Fin (zu + weight e)))
  /\ hasNegativeCycle r = false.

(** No closed walk of [es] has negative weight. *)
Definition no_negative_cycle (es : list Edge) : Prop :=
  forall v vs c, walk es v vs c v -> 0 <= c.

(** No edge of [es] has negative weight. *)
Definition nonneg (es : list Edge) : Prop :=
  forall e, e ∈ es -> 0 <= weight e.

(** *** Invariants of the relaxation loop

    They are stated for the edge list [es] given to [bellmanFord], the
    source [s] and the key set [K] of the distance table. *)

(** [le_at d v B]: the table holds a finite distance for [v], at most [B]. *)
Definition le_at (d : gmap string num) (v : string) (B : Z) : Prop :=
  exists z, d !! v = Some (Fin z) /\ z <= B.

(** Every finite entry is the weight of a walk from the source. *)
Definition sound (es : list Edge) (s : string) (K : gset string)
    (d : gmap string num) : Prop :=
  dom d = K
  /\ (forall v z, d !! v = Some (Fin z) ->
        exists vs, walk (List.filter (live K) es) s vs z v)
  /\ le_at d s 0.

(** After [k] passes no walk of at most [k] edges beats the table. *)
Definition bound (es : list Edge) (s : string) (K : gset string)
    (k : nat) (d : gmap string num) : Prop :=
  forall vs w v, walk (List.filter (live K) es) s vs w v ->
    (length vs <= S k)%nat -> le_at d v w.

(** Entries only decrease. *)
Definition below (d d' : gmap string num) : Prop :=
  forall v B, le_at d v B -> le_at d' v B.

(** No edge can be relaxed. *)
Definition settled (es : list Edge) (d : gmap string num) : Prop :=
  forall e, e ∈ es -> relaxable d e = false.

(** The predecessor table along the loop. *)
Definition pred_inv (es : list Edge) (s : string) (K : gset string)
    (d : gmap string num) (p : gmap string (option string)) : Prop :=
  dom p = K
  /\ p !! s = Some None
  /\ (forall v, d !! v = Some PosInf -> p !! v = Some None)
  /\ (forall v u, p !! v = Some (Some u) ->
        exists e zu zv, e ∈ List.filter (live K) es /\ from e = u /\ to e = v
          /\ d !! u = Some (Fin zu) /\ d !! v = Some (Fin zv)
          /\ zu + weight e <= zv)
  /\ (forall v z, v <> s -> d !! v = Some (Fin z) ->
        exists u, p !! v = Some (Some u)).

(** Every predecessor recorded is the origin of an edge. *)
Definition preds_from (es : list Edge)
    (p : gmap string (option string)) : Prop :=
  forall v u, p !! v = Some (Some u) -> exists e, e ∈ es /\ from e = u.

(** A path using only edges of non-negative weight. *)
Inductive nonneg_path (es : list Edge) : string -> string -> Prop :=
| nonneg_path_refl u : nonneg_path es u u
| nonneg_path_step u e v :
    e ∈ es -> from e = u -> 0 <= weight e ->
    nonneg_path es (to e) v -> nonneg_path es u v.

(** A corridor from cell [(cx, cy)] to the far corner: every step goes one
    cell to the right or one cell down along an adjacency edge of weight
    10. *)
Inductive corridor (es : list Edge) : Z -> Z -> Prop :=
| corridor_goal : corridor es (GRID_SIZE - 1) (GRID_SIZE - 1)
| corridor_right cx cy :
    mkEdge (node_id cx cy) (node_id (cx + 1) cy) 10 false ∈ es ->
    corridor es (cx + 1) cy -> corridor es cx cy
| corridor_down cx cy :
    mkEdge (node_id cx cy) (node_id cx (cy + 1)) 10 false ∈ es ->
    corridor es cx (cy + 1) -> corridor es cx cy.

(** The same corridor in the set of walkable ids, before the edges are
    generated. *)
Inductive carved (ids : gset string) : Z -> Z -> Prop :=
| carved_goal :
    node_id (GRID_SIZE - 1) (GRID_SIZE - 1) ∈ ids ->
    carved ids (GRID_SIZE - 1) (GRID_SIZE - 1)
| carved_right cx cy :
    node_id cx cy ∈ ids -> 0 <= cx < GRID_SIZE - 1 -> 0 <= cy < GRID_SIZE ->
    carved ids (cx + 1) cy -> carved ids cx cy
| carved_down cx cy :
    node_id cx cy ∈ ids -> 0 <= cx < GRID_SIZE -> 0 <= cy < GRID_SIZE - 1 ->
    carved ids cx (cy + 1) -> carved ids cx cy.

(** Progress towards the goal of the grid node with a given id: the sum of
    its grid coordinates (0 for a string that names no grid node). *)
Definition progressOf (nodeId : string) : Z :=
  match List.find (fun c : Z * Z => String.eqb (node_id c.1 c.2) nodeId)
                  grid_cells with
  | Some c => c.1 + c.2
  | None => 0
  end.

End Spec.

(** ** Vocabulary of the engine properties, and sample data *)

Module EngineSpec.

Import Engine.

(** The state with its [status] replaced. *)
Definition withStatus (s : GameStatus) (state : GameState) : GameState :=
  mkGameState
    (nodes state) (edges state) (enemies state) (towers state)
    (projectiles state) (roadBlocks state)
    (money state) (lives state) (wave state) (stage state)
    (maxWavesPerStage state) s (timer state) (spawnTimer state)
    (enemiesToSpawn state) (startNodeId state) (endNodeId state).

(** Money is not negative and no enemy carries a negative reward. *)
Definition solvent (state : GameState) : Prop :=
  0 <= money state /\ forall e, e ∈ enemies state -> 0 <= e_reward e.

(** No enemy of the list carries a negative reward. *)
Definition rewards_nonneg (es : list Enemy) : Prop :=
  Forall (fun e => 0 <= e_reward e) es.

(** The node an enemy stands on exists. *)
Definition on_map (nodes : list Graph.Node) (e : Enemy) : Prop :=
  is_Some (findNode nodes (e_currentNodeId e)).

(** A command that only lets time pass. *)
Definition isTick (c : App.Command) : Prop :=
  match c with
  | App.Tick _ _ | App.Frame _ _ => True
  | _ => False
  end.

(** A command of the frame callback. *)
Definition isFrame (c : App.Command) : Prop :=
  match c with
  | App.Frame _ _ => True
  | _ => False
  end.

(** Every lookup of a node that [updateGame] dereferences succeeds: the
    target of every edge, the node of every tower, the start node and the
    current node of every enemy. *)
Definition wellFormed (state : GameState) : Prop :=
  (forall e, e ∈ edges state ->
      is_Some (findNode (nodes state) (Graph.to e)))
  /\ (forall t, t ∈ towers state ->
      is_Some (findNode (nodes state) (t_nodeId t)))
  /\ is_Some (findNode (nodes state) (startNodeId state))
  /\ (forall e, e ∈ enemies state ->
      is_Some (findNode (nodes state) (e_currentNodeId e))).

End EngineSpec.

Module Samples.

Import Engine EngineSpec.

(** A random source: 3/4, 1/4, 3/4, ...; the clock always reads 0. *)
Definition sample_random (k : nat) : Q := if Nat.even k then 3 # 4 else 1 # 4.

Lemma sample_random_range k :
  (0 <= sample_random k)%Q /\ (sample_random k < 1)%Q.
Proof. unfold sample_random. by destruct (Nat.even k). Qed.

Definition sample_env : Env :=
  mkEnv sample_random sample_random_range (fun _ => 0).

(** A graph for [bellmanFord]: a -> c (10), b -> c (2), a -> b (5), and an
    isolated node d. *)
Definition sample_nodes : list Graph.Node :=
  [ Graph.mkNode "a" 0 0 true None; Graph.mkNode "b" 1 0 true None;
    Graph.mkNode "c" 2 0 true None; Graph.mkNode "d" 3 0 true None ].

Definition sample_edges : list Graph.Edge :=
  [ Graph.mkEdge "a" "c" 10 false; Graph.mkEdge "b" "c" 2 false;
    Graph.mkEdge "a" "b" 5 false ].

(** A map of three nodes: the road a - b and the buildable cell c; enemies
    enter at a and leave at b. *)
Definition road_nodes : list Graph.Node :=
  [ Graph.mkNode "a" 40 40 true None; Graph.mkNode "b" 100 40 true None;
    Graph.mkNode "c" 40 100 false None ].

Definition road_edges : list Graph.Edge :=
  [ Graph.mkEdge "a" "b" 10 false; Graph.mkEdge "b" "a" 10 false ].

(** Wave 1 of stage 1 on that map, nothing placed, nothing left to spawn. *)
Definition road_state : GameState :=
  mkGameState road_nodes road_edges [] [] [] []
              800 20 1 1 5 playing 0 0 0 "a" "b".

Definition with_enemies (es : list Enemy) (ps : list Projectile)
    (state : GameState) : GameState :=
  mkGameState
    (nodes state) (edges state) es (towers state) ps (roadBlocks state)
    (money state) (lives state) (wave state) (stage state)
    (maxWavesPerStage state) (status state) (timer state) (spawnTimer state)
    (enemiesToSpawn state) (startNodeId state) (endNodeId state).

(** A basic enemy standing on node a with the given hit points and reward. *)
Definition enemy_at_a (hp : Q) (reward : Z) : Enemy :=
  mkEnemy "e1" E_basic hp 60 (15 # 10) "a" None 40 40 0 reward.

(** A 10-damage projectile without area, on node a, aimed at that enemy. *)
Definition shot (pid : string) (damage : Z) : Projectile :=
  mkProjectile pid 40 40 "e1" 300 damage None.

(** The game is over. *)
Definition over_state : GameState := withStatus game_over road_state.

(** The game is paused while three enemies are still to spawn. *)
Definition paused_state : GameState :=
  mkGameState road_nodes road_edges [] [] [] []
              800 20 1 1 5 paused 0 0 3 "a" "b".

(** One enemy of 60 hit points and reward 8, and six, respectively seven,
    10-damage projectiles about to hit it in the same tick. *)
Definition six_hits_state : GameState :=
  with_enemies [enemy_at_a 60 8]
               [shot "p1" 10; shot "p2" 10; shot "p3" 10;
                shot "p4" 10; shot "p5" 10; shot "p6" 10]
               road_state.

Definition seven_hits_state : GameState :=
  with_enemies [enemy_at_a 60 8]
               [shot "p1" 10; shot "p2" 10; shot "p3" 10;
                shot "p4" 10; shot "p5" 10; shot "p6" 10; shot "p7" 10]
               road_state.


End Samples.

(** ** More specifications *)

Module PathSpec.

Import Graph Spec.

(** Every predecessor recorded is the origin of an edge into the node, and
    the entry of the node is at least the entry of the predecessor plus the
    weight of that edge. *)
Definition pred_edges (es : list Edge) (d : gmap string num)
    (p : gmap string (option string)) : Prop :=
  forall v u, p !! v = Some (Some u) ->
    exists e zu zv, e ∈ es /\ from e = u /\ to e = v
      /\ d !! u = Some (Fin zu) /\ d !! v = Some (Fin zv)
      /\ zu + weight e <= zv.

(** A node at distance [Infinity] has a [null] predecessor, and a node
    at a finite distance, the source apart, has a predecessor. *)
Definition pred_marks (s : string) (d : gmap string num)
    (p : gmap string (option string)) : Prop :=
  (forall v, d !! v = Some PosInf -> p !! v = Some None)
  /\ (forall v z, v <> s -> d !! v = Some (Fin z) ->
        exists u, p !! v = Some (Some u)).

(** Every weight is strictly positive. *)
Definition positive (es : list Edge) : Prop :=
  forall e, e ∈ es -> 0 < weight e.

(** Two nodes on horizontally or vertically neighbouring cells. *)
Definition neighbours (a b : Node) : Prop :=
  (x b = x a + NODE_SPACING /\ y b = y a)
  \/ (x b = x a - NODE_SPACING /\ y b = y a)
  \/ (x b = x a /\ y b = y a + NODE_SPACING)
  \/ (x b = x a /\ y b = y a - NODE_SPACING).

End PathSpec.

Module TickSpec.

Import Engine EngineSpec.

(** The road-block test of [dynamicEdge]. *)
Definition isBlocked (roadBlocks : list RoadBlock) (e : Graph.Edge) : bool :=
  existsb (fun rb => String.eqb (rb_nodeId rb) (Graph.to e)
                     || String.eqb (rb_nodeId rb) (Graph.from e))
          roadBlocks.

(** A tower stands within 100 pixels of node [toN]. *)
Definition nearTower (nodes : list Graph.Node) (toN : Graph.Node)
    (t : Tower) : bool :=
  match findNode nodes (t_nodeId t) with
  | Some tNode =>
      Qltb (distance (inject_Z (Graph.x tNode)) (inject_Z (Graph.y tNode))
                     (inject_Z (Graph.x toN)) (inject_Z (Graph.y toN))) 100
  | None => false
  end.

(** The map of the state is one that [generateGraph] returns. *)
Definition generated_map (state : GameState) : Prop :=
  exists env stage,
    Graph.generateGraph env stage
    = Some (Graph.mkGraphData (nodes state) (edges state)
                              (startNodeId state) (endNodeId state)).

(** The road blocks that have not expired at time [now]. *)
Definition standing (now : Z) (roadBlocks : list RoadBlock) : list RoadBlock :=
  List.filter (fun rb => now <? rb_expiresAt rb) roadBlocks.

(** The table [toEnd] of a tick: [bellmanFord] from the goal over the
    reversed dynamic edges. *)
Definition toEnd (state : GameState) (dynamicEdges : list Graph.Edge)
  : Graph.PathResult :=
  Graph.bellmanFord (nodes state) (reverseEdge <$> dynamicEdges)
                    (endNodeId state).

(** The enemies of a list standing on node [nodeId]. *)
Definition standingOn (nodeId : string) (es : list Enemy) : list Enemy :=
  List.filter (fun e => String.eqb (e_currentNodeId e) nodeId) es.

(** [e'] is [e] with other hit points. *)
Definition sameButHp (e e' : Enemy) : Prop :=
  e' = mkEnemy (e_id e) (e_type e) (e_hp e') (e_maxHp e) (e_speed e)
               (e_currentNodeId e) (e_nextNodeId e) (e_x e) (e_y e)
               (e_progress e) (e_reward e).

(** [e'] is [e] after impacts: the same fields except hit points, which
    did not grow if [P] holds. *)
Definition hitIf (P : Prop) (e e' : Enemy) : Prop :=
  sameButHp e e' /\ (P -> (e_hp e' <= e_hp e)%Q).

Definition hitBy (e e' : Enemy) : Prop := hitIf True e e'.

(** [t'] is [t] after it fired at time [now]. *)
Definition firedAt (now : Z) (t t' : Tower) : Prop :=
  t' = mkTower (t_id t) (t_nodeId t) (t_type t) (t_damage t) (t_range t)
               (t_fireRate t) now (t_cost t) (t_tier t) (t_aoe t).


(** The wave-completion test at the end of a tick. *)
Definition waveDone (es : list Enemy) (toSpawn : Z) (s : GameStatus) : bool :=
  (Z.of_nat (length es) =? 0) && (toSpawn =? 0) && GameStatus_eqb s playing.

(** A walkable node of the map carries that id. *)
Definition walkable (nodes : list Graph.Node) (nodeId : string) : Prop :=
  exists n, findNode nodes nodeId = Some n /\ Graph.isPath n = true.

(** A node of the map that is not walkable carries that id. *)
Definition buildable (nodes : list Graph.Node) (nodeId : string) : Prop :=
  exists n, findNode nodes nodeId = Some n /\ Graph.isPath n = false.

(** What was paid for a tower of a given tier: 100 to place it, 200 for
    the second tier, 400 for the third. *)
Definition towerCost (tier : Z) : Z :=
  if tier =? 1 then 100 else if tier =? 2 then 300 else 700.

(** The invariant of a session. *)
Record playable (state : GameState) : Prop := mkPlayable {
  playable_map :
    exists env,
      Graph.generateGraph env (stage state)
      = Some (Graph.mkGraphData (nodes state) (edges state)
                                (startNodeId state) (endNodeId state));
  playable_stage : 1 <= stage state;
  playable_wave : 0 <= wave state <= 5;
  playable_max : maxWavesPerStage state = 5;
  playable_toSpawn : 0 <= enemiesToSpawn state;
  playable_lives : lives state <= 20;
  playable_over : status state = game_over -> lives state <= 0;
  playable_towers_apart : NoDup (t_nodeId <$> towers state);
  playable_towers :
    Forall (fun t => buildable (nodes state) (t_nodeId t)
                     /\ 1 <= t_tier t <= 3
                     /\ t_cost t = towerCost (t_tier t))
           (towers state);
  playable_blocks_apart : NoDup (rb_nodeId <$> roadBlocks state);
  playable_blocks :
    Forall (fun rb => walkable (nodes state) (rb_nodeId rb))
           (roadBlocks state);
  playable_enemies :
    Forall (fun e => walkable (nodes state) (e_currentNodeId e))
           (enemies state);
  playable_projectiles :
    Forall (fun p => exists e, e ∈ enemies state /\ e_id e = p_targetId p)
           (projectiles state)
}.

(** The condition under which the page shows the button that starts the
    next wave by hand. *)
Definition nextWaveButton (state : GameState) : bool :=
  GameStatus_eqb (status state) playing
  && (Z.of_nat (length (enemies state)) =? 0)
  && (enemiesToSpawn state =? 0).

(** What the shot of one tower looks like. *)
Definition shotOf (nodes : list Graph.Node) (es : list Enemy) (now : Z)
    (t : Tower) (p : Projectile) : Prop :=
  exists tn target,
    t_fireRate t < now - t_lastFired t
    /\ findNode nodes (t_nodeId t) = Some tn
    /\ target ∈ es /\ p_targetId p = e_id target
    /\ (distance (e_x target) (e_y target)
                 (inject_Z (Graph.x tn)) (inject_Z (Graph.y tn))
        <= inject_Z (t_range t))%Q
    /\ p_x p = inject_Z (Graph.x tn) /\ p_y p = inject_Z (Graph.y tn)
    /\ p_speed p = 300 /\ p_damage p = t_damage t /\ p_aoe p = t_aoe t.

End TickSpec.

Module MoreSamples.

Import Graph Engine Samples.

(** A graph with a negative shortcut: a -> b (10), b -> c (10) and
    a -> c (-15). *)
Definition shortcut_nodes : list Node :=
  [ mkNode "a" 0 0 true None; mkNode "b" 1 0 true None;
    mkNode "c" 2 0 true None ].

Definition shortcut_edges : list Edge :=
  [ mkEdge "a" "b" 10 false; mkEdge "b" "c" 10 false;
    mkEdge "a" "c" (-15) true ].

Definition shortcut_potential (v : string) : Z :=
  if String.eqb v "c" then 3 else if String.eqb v "b" then 1 else 0.

(** A graph with a negative cycle: a -> b (1), b -> a (-2). *)
Definition looping_nodes : list Node :=
  [ mkNode "a" 0 0 true None; mkNode "b" 1 0 true None ].

Definition looping_edges : list Edge :=
  [ mkEdge "a" "b" 1 false; mkEdge "b" "a" (-2) false ].

(** The clock reads 1000 ms. *)
Definition later_env : Env :=
  mkEnv sample_random sample_random_range (fun _ => 1000).

(** The state after the opening countdown of a session: wave 1 of stage 1
    on a generated map, twelve enemies to spawn. *)
Definition opening_state : GameState :=
  default road_state (App.session sample_env [App.Tick sample_env 10000]).

(** An enemy standing on the goal of that map, and one on the way. *)
Definition arrived_state : GameState :=
  with_enemies
    [ mkEnemy "e1" E_basic 60 60 (15 # 10) "node_9_9" None 580 580 0 8;
      mkEnemy "e2" E_basic 60 60 (15 # 10) "node_1_0" None 100 40 0 8 ]
    [] opening_state.


(** A session that opens with the full countdown, places a tower and a
    road block, lets two enemies spawn and walk while the tower fires,
    upgrades the tower, pauses for a frame and resumes. *)
Definition sample_commands : list App.Command :=
  [ App.Tick sample_env 10000;
    App.PlaceTower sample_env "node_2_0";
    App.PlaceRoadBlock sample_env "node_3_2";
    App.Tick later_env 1001; App.Tick later_env 1001;
    App.UpgradeTower "r" T_heavy_shot;
    App.TogglePause; App.Frame later_env 16; App.TogglePause;
    App.Tick later_env 16 ].

(** The state in the middle of that session, before the second tick in
    play: one enemy on the road, the tower ready to fire. *)
Definition armed_state : GameState :=
  default road_state (App.session sample_env (take 4 sample_commands)).

End MoreSamples.

(** * Bellman-Ford *)

Module BellmanFord.

Import Graph Spec.

(** One relaxation either changes nothing or lowers the entry of the target
    of the edge to the finite entry of its origin plus the weight. *)

Lemma relax_cases d p c e :
  (relaxable d e = false /\ relax (d, p, c) e = (d, p, c))
  \/ (exists zu dv,
        d !! from e = Some (Fin zu) /\ d !! to e = Some dv
        /\ num_ltb (Fin (zu + weight e)) dv = true
        /\ relaxable d e = true
        /\ relax (d, p, c) e
           = (<[to e := Fin (zu + weight e)]> d,
              <[to e := Some (from e)]> p, true)).
Proof.
  unfold relax, relaxable.
  destruct (d !! from e) as [[zu|]|] eqn:Hu.
  - destruct (d !! to e) as [dv|] eqn:Hv; [| by left].
    change (num_add (Fin zu) (weight e)) with (Fin (zu + weight e)).
    destruct (num_ltb (Fin (zu + weight e)) dv) eqn:Hlt.
    + right. by exists zu, dv.
    + by left.
  - left. destruct (d !! to e) as [[?|]|]; by simpl.
  - by left.
Qed.

Local Arguments relax : simpl never.

Section Passes.

Variable es : list Edge.
Variable s : string.
Variable K : gset string.

Local Abbreviation G := (List.filter (live K) es).
Local Abbreviation sound := (Spec.sound es s K).
Local Abbreviation bound := (Spec.bound es s K).
Local Abbreviation settled := (Spec.settled es).
Local Abbreviation no_negative_cycle :=
  (Spec.no_negative_cycle (List.filter (live K) es)).
Local Abbreviation nonneg := (Spec.nonneg es).
Local Abbreviation pred_inv := (Spec.pred_inv es s K).

Lemma in_G e : e ∈ es -> from e ∈ K -> to e ∈ K -> e ∈ G.
Proof.
  intros He Hf Ht. apply list_elem_of_In, filter_In. split.
  - by apply list_elem_of_In.
  - unfold live. by rewrite !bool_decide_eq_true_2.
Qed.

Lemma G_in e : e ∈ G -> e ∈ es /\ from e ∈ K /\ to e ∈ K.
Proof.
  intros He. apply list_elem_of_In, filter_In in He as [He Hl].
  unfold live in Hl. apply andb_true_iff in Hl as [H1 H2].
  apply bool_decide_eq_true_1 in H1, H2. by rewrite list_elem_of_In.
Qed.

Lemma below_refl d : below d d.
Proof. by intros v B H. Qed.

Lemma below_trans d1 d2 d3 : below d1 d2 -> below d2 d3 -> below d1 d3.
Proof. intros H1 H2 v B H. eauto. Qed.

Lemma relax_sound d p c e d' p' c' :
  e ∈ es -> sound d -> relax (d, p, c) e = (d', p', c') ->
  sound d' /\ below d d'
  /\ (forall B, to e ∈ K -> le_at d (from e) B -> le_at d' (to e) (B + weight e)).
Proof.
  intros He (Hdom & Hw & Hs) Hr.
  destruct (relax_cases d p c e) as [[Hno Heq]|(zu & dv & Hu & Hv & Hlt & _ & Heq)];
    rewrite Heq in Hr; injection Hr as Hd' Hp' Hc'; subst d' p' c'.
  - split; [done|]. split; [apply below_refl|].
    intros B HtK (z & Hz & Hle). unfold relaxable in Hno. rewrite Hz in Hno.
    assert (is_Some (d !! to e)) as [dv Hdv].
    { apply elem_of_dom. by rewrite Hdom. }
    rewrite Hdv in Hno. simpl in Hno. destruct dv as [zv|]; simpl in Hno; [|done].
    exists zv. split; [done|]. lia.
  - assert (HfK : from e ∈ K). { rewrite <- Hdom. apply elem_of_dom. eauto. }
    assert (HtK : to e ∈ K). { rewrite <- Hdom. apply elem_of_dom. eauto. }
    assert (Hbelow : below d (<[to e:=Fin (zu + weight e)]> d)).
    { intros v B (z & Hz & Hle). destruct (decide (v = to e)) as [->|Hne].
      - exists (zu + weight e). rewrite lookup_insert_eq. split; [done|].
        rewrite Hv in Hz. injection Hz as ->. simpl in Hlt. lia.
      - exists z. by rewrite lookup_insert_ne. }
    split; [|split; [done|]].
    + split; [|split].
      * rewrite dom_insert_L. rewrite Hdom. set_solver.
      * intros v z Hz. destruct (decide (v = to e)) as [->|Hne].
        -- rewrite lookup_insert_eq in Hz. injection Hz as <-.
           destruct (Hw _ _ Hu) as [vs Hvs]. exists (to e :: vs).
           eapply walk_step; eauto. by apply in_G.
        -- rewrite lookup_insert_ne in Hz by done. eauto.
      * by apply Hbelow.
    + intros B _ (z & Hz & Hle). rewrite Hu in Hz. injection Hz as <-.
      exists (zu + weight e). rewrite lookup_insert_eq. split; [done|lia].
Qed.

Lemma pass_sound l : forall d p c d' p' c',
  (forall e, e ∈ l -> e ∈ es) -> sound d ->
  foldl relax (d, p, c) l = (d', p', c') ->
  sound d' /\ below d d'
  /\ (forall e B, e ∈ l -> to e ∈ K ->
        le_at d (from e) B -> le_at d' (to e) (B + weight e)).
Proof.
  induction l as [|e l IH]; intros d p c d' p' c' Hl Hs Hf; simpl in Hf.
  - injection Hf as <- <- <-. split; [done|]. split; [apply below_refl|].
    intros e B He. by apply elem_of_nil in He.
  - destruct (relax (d, p, c) e) as [[d1 p1] c1] eqn:Hr.
    destruct (relax_sound _ _ _ _ _ _ _ (Hl e ltac:(left)) Hs Hr) as (Hs1 & Hb1 & He1).
    destruct (IH _ _ _ _ _ _ (fun e' H => Hl e' ltac:(by right)) Hs1 Hf)
      as (Hs' & Hb' & He').
    split; [done|]. split; [by eapply below_trans|].
    intros e0 B Hin HtK Hle. apply elem_of_cons in Hin as [->|Hin].
    + apply Hb'. by apply He1.
    + apply He'; [done..|]. by apply Hb1.
Qed.

Lemma pass_changed l : forall d p c d' p' c',
  foldl relax (d, p, c) l = (d', p', c') ->
  (c = true -> c' = true)
  /\ (c' = false -> d' = d /\ p' = p /\ forall e, e ∈ l -> relaxable d e = false).
Proof.
  induction l as [|e l IH]; intros d p c d' p' c' Hf; simpl in Hf.
  - injection Hf as <- <- <-. split; [done|]. intros _. split; [done|].
    split; [done|]. intros e He. by apply elem_of_nil in He.
  - destruct (relax_cases d p c e) as [[Hno Heq]|(zu & dv & _ & _ & _ & _ & Heq)];
      rewrite Heq in Hf; apply IH in Hf as [H1 H2].
    + split; [done|]. intros Hc. destruct (H2 Hc) as (-> & -> & H3).
      split; [done|]. split; [done|]. intros e0 [->|Hin]%elem_of_cons; auto.
    + split; [auto|]. intros Hc. rewrite H1 in Hc; done.
Qed.

Lemma bound_step d d' k :
  bound k d -> below d d' ->
  (forall e B, e ∈ es -> to e ∈ K ->
      le_at d (from e) B -> le_at d' (to e) (B + weight e)) ->
  bound (S k) d'.
Proof.
  intros Hb Hbelow Hstep vs w v Hw Hlen. inversion Hw; subst.
  - apply Hbelow. eapply Hb; [constructor|simpl; lia].
  - match goal with H : _ ∈ G |- _ => apply G_in in H as (He & HfK & HtK) end.
    apply Hstep; [done..|]. eapply Hb; [eassumption|]. simpl in Hlen. lia.
Qed.

Lemma settled_bound d :
  sound d -> settled d -> forall vs w v, walk G s vs w v -> le_at d v w.
Proof.
  intros (Hdom & _ & Hs) Hset vs w v Hw. induction Hw as [|vs w u e Hw IH He Hfrom].
  - done.
  - apply G_in in He as (He & HfK & HtK). destruct IH as (zu & Hzu & Hle).
    specialize (Hset e He). unfold relaxable in Hset. rewrite Hfrom, Hzu in Hset.
    assert (is_Some (d !! to e)) as [dv Hdv].
    { apply elem_of_dom. by rewrite Hdom. }
    rewrite Hdv in Hset. destruct dv as [zv|]; simpl in Hset; [|done].
    exists zv. split; [done|lia].
Qed.

Lemma passes_sound n : forall d p k d' p',
  sound d -> bound k d ->
  relaxPasses n es d p = (d', p') ->
  sound d' /\ (settled d' \/ bound (k + n) d').
Proof.
  induction n as [|n IH]; intros d p k d' p' Hs Hb Hr; simpl in Hr.
  - injection Hr as <- <-. split; [done|]. right. by rewrite Nat.add_0_r.
  - destruct (foldl relax (d, p, false) es) as [[d1 p1] c1] eqn:Hf.
    destruct (pass_sound es _ _ _ _ _ _ (fun e H => H) Hs Hf) as (Hs1 & Hb1 & He1).
    destruct c1.
    + apply IH with (k := S k) in Hr; [|done|by eapply bound_step].
      by rewrite Nat.add_succ_r.
    + injection Hr as <- <-. split; [done|]. left.
      apply pass_changed in Hf as [_ Hf]. destruct (Hf eq_refl) as (-> & _ & H).
      exact H.
Qed.

(** *** Walks without repeated vertices *)

Lemma walk_cut vs w u v :
  walk G s vs w u -> v ∈ vs ->
  exists vs1 w1 pre vs2 w2,
    walk G s vs1 w1 v /\ vs = (pre ++ vs1)%list
    /\ walk G v vs2 w2 u /\ w = w1 + w2.
Proof.
  intros Hw. induction Hw as [|vs w u e Hw IH He Hfrom]; intros Hin.
  - apply list_elem_of_singleton in Hin as ->.
    exists [s], 0, [], [s], 0. repeat split; constructor.
  - apply elem_of_cons in Hin as [->|Hin].
    + exists (to e :: vs), (w + weight e), [], [to e], 0.
      repeat split; [by econstructor|constructor|lia].
    + destruct (IH Hin) as (vs1 & w1 & pre & vs2 & w2 & H1 & -> & H2 & ->).
      exists vs1, w1, (to e :: pre), (to e :: vs2), (w2 + weight e).
      repeat split; [done|by econstructor|lia].
Qed.

Lemma walk_simple vs w v :
  no_negative_cycle -> walk G s vs w v ->
  exists vs' w', walk G s vs' w' v /\ NoDup vs' /\ w' <= w.
Proof.
  intros Hnn Hw. induction Hw as [|vs w u e Hw IH He Hfrom].
  - exists [s], 0. repeat split; [constructor| |lia].
    apply NoDup_singleton.
  - destruct IH as (vs' & w' & Hw' & Hnd & Hle).
    destruct (decide (to e ∈ vs')) as [Hin|Hnin].
    + destruct (walk_cut _ _ _ _ Hw' Hin)
        as (vs1 & w1 & pre & vs2 & w2 & H1 & -> & H2 & ->).
      exists vs1, w1. repeat split; [done|by apply NoDup_app in Hnd as (_ & _ & ?)|].
      assert (0 <= w2 + weight e); [|lia].
      apply (Hnn (to e) (to e :: vs2)). by econstructor.
    + exists (to e :: vs'), (w' + weight e).
      repeat split; [by econstructor|by constructor|lia].
Qed.

Lemma all_bound d N :
  sound d -> settled d \/ bound N d -> no_negative_cycle ->
  (forall vs w v, walk G s vs w v -> NoDup vs -> (length vs <= S N)%nat) ->
  forall vs w v, walk G s vs w v -> le_at d v w.
Proof.
  intros Hs [Hset|Hb] Hnn Hsimple vs w v Hw.
  - by eapply settled_bound.
  - destruct (walk_simple _ _ _ Hnn Hw) as (vs' & w' & Hw' & Hnd & Hle).
    destruct (Hb _ _ _ Hw' (Hsimple _ _ _ Hw' Hnd)) as (z & Hz & Hzle).
    exists z. split; [done|lia].
Qed.

Lemma final_distance d :
  sound d -> (forall vs w v, walk G s vs w v -> le_at d v w) ->
  forall v dv, d !! v = Some dv -> true_distance G s v dv.
Proof.
  intros (Hdom & Hw & Hs) Hall v [z|] Hv; simpl.
  - split; [eauto|]. intros vs w Hwalk.
    destruct (Hall _ _ _ Hwalk) as (z' & Hz' & Hle). congruence.
  - intros (vs & w & Hwalk). destruct (Hall _ _ _ Hwalk) as (z' & Hz' & _).
    congruence.
Qed.

Lemma final_settled d :
  sound d -> (forall vs w v, walk G s vs w v -> le_at d v w) -> settled d.
Proof.
  intros (Hdom & Hw & Hs) Hall e He. unfold relaxable.
  destruct (d !! from e) as [[zu|]|] eqn:Hu; [| |done].
  - destruct (d !! to e) as [dv|] eqn:Hv; [|done].
    destruct (Hw _ _ Hu) as [vs Hvs].
    assert (Hin : e ∈ G).
    { apply in_G; [done|..]; rewrite <- Hdom; apply elem_of_dom; eauto. }
    destruct (Hall _ _ _ (walk_step _ _ _ _ _ _ Hvs Hin eq_refl))
      as (z & Hz & Hle).
    rewrite Hv in Hz. injection Hz as ->. simpl. lia.
  - by destruct (d !! to e) as [[?|]|].
Qed.

(** *** Predecessors, when no weight is negative *)

Lemma walk_nonneg vs w v : nonneg -> walk G s vs w v -> 0 <= w.
Proof.
  intros Hnn Hw. induction Hw as [|vs w u e Hw IH He Hfrom]; [lia|].
  apply G_in in He as (He & _). specialize (Hnn e He). lia.
Qed.

Lemma sound_source d : nonneg -> sound d -> d !! s = Some (Fin 0).
Proof.
  intros Hnn (_ & Hw & (z & Hz & Hle)). destruct (Hw _ _ Hz) as [vs Hvs].
  apply walk_nonneg in Hvs; [|done]. rewrite Hz. do 2 f_equal. lia.
Qed.

Lemma relax_pred d p c e d' p' c' :
  nonneg -> e ∈ es -> sound d -> pred_inv d p ->
  relax (d, p, c) e = (d', p', c') -> pred_inv d' p'.
Proof.
  intros Hnn He Hs Hp Hr.
  destruct (relax_cases d p c e)
    as [[Hno Heq]|(zu & dv & Hu & Hv & Hlt & _ & Heq)];
    rewrite Heq in Hr; injection Hr as Hd' Hp' Hc'; subst d' p' c'; [done|].
  pose proof (sound_source d Hnn Hs) as Hsrc.
  destruct Hs as (Hdom & Hw & _).
  destruct Hp as (Hpdom & Hps & Hpinf & Hpe & Hpfin).
  assert (HfK : from e ∈ K). { rewrite <- Hdom. apply elem_of_dom. eauto. }
  assert (HtK : to e ∈ K). { rewrite <- Hdom. apply elem_of_dom. eauto. }
  assert (Hzu : 0 <= zu).
  { destruct (Hw _ _ Hu) as [vs Hvs]. by eapply walk_nonneg. }
  pose proof (Hnn e He) as Hwe.
  assert (Hts : to e <> s).
  { intros E. rewrite E, Hsrc in Hv. injection Hv as <-. simpl in Hlt. lia. }
  assert (Hft : from e <> to e).
  { intros E. rewrite <- E, Hu in Hv. injection Hv as <-. simpl in Hlt. lia. }
  split; [|split; [|split; [|split]]].
  - rewrite dom_insert_L, Hpdom. set_solver.
  - by rewrite lookup_insert_ne.
  - intros v Hv'. destruct (decide (v = to e)) as [->|Hne].
    + by rewrite lookup_insert_eq in Hv'.
    + rewrite lookup_insert_ne in Hv' by done. rewrite lookup_insert_ne by done.
      auto.
  - intros v u Hvu. destruct (decide (v = to e)) as [->|Hne].
    + rewrite lookup_insert_eq in Hvu. injection Hvu as <-.
      exists e, zu, (zu + weight e). rewrite lookup_insert_ne by done.
      rewrite lookup_insert_eq. repeat split; [by apply in_G|done|lia].
    + rewrite lookup_insert_ne in Hvu by done.
      destruct (Hpe _ _ Hvu) as (e0 & zu0 & zv0 & He0 & <- & <- & Hu0 & Hv0 & Hle).
      destruct (decide (from e0 = to e)) as [E|Hne'].
      * exists e0, (zu + weight e), zv0. rewrite E, lookup_insert_eq.
        rewrite lookup_insert_ne by done.
        rewrite E, Hv in Hu0. injection Hu0 as ->. simpl in Hlt.
        repeat split; [done..|lia].
      * exists e0, zu0, zv0. rewrite !lookup_insert_ne by done. done.
  - intros v z Hvs Hvz. destruct (decide (v = to e)) as [->|Hne].
    + rewrite lookup_insert_eq. eauto.
    + rewrite lookup_insert_ne in Hvz by done. rewrite lookup_insert_ne by done.
      eauto.
Qed.

Lemma pass_pred l : forall d p c d' p' c',
  nonneg -> (forall e, e ∈ l -> e ∈ es) -> sound d -> pred_inv d p ->
  foldl relax (d, p, c) l = (d', p', c') -> pred_inv d' p'.
Proof.
  induction l as [|e l IH]; intros d p c d' p' c' Hnn Hl Hs Hp Hf; simpl in Hf.
  - by simplify_eq.
  - destruct (relax (d, p, c) e) as [[d1 p1] c1] eqn:Hr.
    assert (He : e ∈ es) by (apply Hl; left).
    destruct (relax_sound _ _ _ _ _ _ _ He Hs Hr) as (Hs1 & _).
    eapply IH; [exact Hnn| |exact Hs1| |exact Hf].
    + intros e' H. apply Hl. by right.
    + exact (relax_pred _ _ _ _ _ _ _ Hnn He Hs Hp Hr).
Qed.

Lemma passes_pred n : forall d p d' p',
  nonneg -> sound d -> pred_inv d p ->
  relaxPasses n es d p = (d', p') -> pred_inv d' p'.
Proof.
  induction n as [|n IH]; intros d p d' p' Hnn Hs Hp Hr; simpl in Hr.
  - by simplify_eq.
  - destruct (foldl relax (d, p, false) es) as [[d1 p1] c1] eqn:Hf.
    pose proof (pass_pred es _ _ _ _ _ _ Hnn (fun e H => H) Hs Hp Hf) as Hp1.
    destruct (pass_sound es _ _ _ _ _ _ (fun e H => H) Hs Hf) as (Hs1 & _).
    destruct c1; [exact (IH _ _ _ _ Hnn Hs1 Hp1 Hr)|by simplify_eq].
Qed.

End Passes.

(** *** The tables before the first pass *)

Lemma init_fold nodes : forall (d : gmap string num) (p : gmap string (option string)) v,
  (foldl initStep (d, p) nodes).1 !! v
    = (if decide (v ∈ id <$> nodes) then Some PosInf else d !! v)
  /\ (foldl initStep (d, p) nodes).2 !! v
    = (if decide (v ∈ id <$> nodes) then Some None else p !! v).
Proof.
  induction nodes as [|n nodes IH]; intros d p v.
  - rewrite fmap_nil, decide_False by apply not_elem_of_nil. done.
  - change (foldl initStep (d, p) (n :: nodes))
      with (foldl initStep (<[id n:=PosInf]> d, <[id n:=None]> p) nodes).
    destruct (IH (<[id n:=PosInf]> d) (<[id n:=None]> p) v) as [-> ->].
    rewrite fmap_cons.
    destruct (decide (v ∈ id <$> nodes)) as [Hin|Hnin].
    + rewrite !decide_True by (by right). by split.
    + destruct (decide (v = id n)) as [->|Hne].
      * rewrite !decide_True by left. split; apply lookup_insert_eq.
      * rewrite !decide_False by (intros [?|?]%elem_of_cons; done).
        split; by apply lookup_insert_ne.
Qed.

Lemma initTables_spec nodes s d0 p0 :
  initTables nodes s = (d0, p0) ->
  d0 !! s = Some (Fin 0)
  /\ (forall v, v <> s ->
        d0 !! v = if decide (v ∈ node_ids nodes) then Some PosInf else None)
  /\ (forall v, p0 !! v = if decide (v ∈ node_ids nodes) then Some None else None)
  /\ dom d0 = node_ids nodes ∪ {[s]}
  /\ dom p0 = node_ids nodes.
Proof.
  unfold initTables. intros H.
  pose proof (init_fold nodes ∅ ∅) as H12.
  destruct (foldl initStep (∅, ∅) nodes) as [d p]. simpl in *. simplify_eq.
  assert (H1 := fun v => proj1 (H12 v)). assert (H2 := fun v => proj2 (H12 v)).
  clear H12.
  assert (Hd : forall v, v <> s ->
     (<[s:=Fin 0]> d) !! v = if decide (v ∈ node_ids nodes) then Some PosInf else None).
  { intros v Hv. rewrite lookup_insert_ne by done. rewrite H1.
    unfold node_ids. repeat case_decide; try done; exfalso; set_solver. }
  assert (Hp : forall v, p0 !! v = if decide (v ∈ node_ids nodes) then Some None else None).
  { intros v. rewrite H2.
    unfold node_ids. repeat case_decide; try done; exfalso; set_solver. }
  split; [by rewrite lookup_insert_eq|]. split; [done|]. split; [done|].
  split.
  - apply set_eq. intros v. rewrite elem_of_dom, elem_of_union, elem_of_singleton.
    destruct (decide (v = s)) as [->|Hne].
    + rewrite lookup_insert_eq. split; eauto.
    + rewrite Hd by done. case_decide.
      * split; eauto.
      * split; [intros [? ?]; done|intros [?|?]; done].
  - apply set_eq. intros v. rewrite elem_of_dom, Hp.
    case_decide; split; try done; try (intros [? ?]; done); eauto.
Qed.

Lemma absorb_source (K : gset string) (s : string) : s ∈ K -> K ∪ {[s]} = K.
Proof. set_solver. Qed.

Lemma walk_vertices es K s vs w v :
  s ∈ K -> walk (List.filter (live K) es) s vs w v -> forall u, u ∈ vs -> u ∈ K.
Proof.
  intros Hs Hw. induction Hw as [|vs w u e Hw IH He Hfrom]; intros x Hx.
  - by apply list_elem_of_singleton in Hx as ->.
  - apply elem_of_cons in Hx as [->|Hx]; [|by apply IH].
    by apply G_in in He as (_ & _ & ?).
Qed.

Lemma walk_nonempty es s vs w v : walk es s vs w v -> (1 <= length vs)%nat.
Proof. intros Hw. destruct Hw; simpl; lia. Qed.

(** The generic result: when no cycle is negative and a walk without
    repetition visits at most [length nodes] vertices, the table holds the
    least weights of walks and the last loop finds nothing to relax. *)
Lemma bellmanFord_general nodes es s :
  let K := node_ids nodes ∪ {[s]} in
  let G := List.filter (live K) es in
  Spec.no_negative_cycle G ->
  (forall vs w v, walk G s vs w v -> NoDup vs ->
      (length vs <= S (length nodes - 1))%nat) ->
  let r := bellmanFord nodes es s in
  sound es s K (distances r)
  /\ (forall vs w v, walk G s vs w v -> le_at (distances r) v w)
  /\ hasNegativeCycle r = false.
Proof.
  intros K G Hnn Hsimple. unfold bellmanFord.
  destruct (initTables nodes s) as [d0 p0] eqn:Hinit.
  destruct (initTables_spec _ _ _ _ Hinit) as (Hs0 & Hd0 & Hp0 & Hdom0 & Hpdom0).
  destruct (relaxPasses (length nodes - 1) es d0 p0) as [d p] eqn:Hpass.
  simpl.
  assert (Hsound0 : sound es s K d0).
  { split; [done|]. split; [|by exists 0].
    intros v z Hv. destruct (decide (v = s)) as [->|Hne].
    - rewrite Hs0 in Hv. injection Hv as <-. exists [s]. constructor.
    - rewrite Hd0 in Hv by done. by case_decide. }
  assert (Hbound0 : bound es s K 0 d0).
  { intros vs w v Hw Hlen. inversion Hw; subst.
    - by exists 0.
    - match goal with H : walk _ _ _ _ _ |- _ => apply walk_nonempty in H end.
      simpl in Hlen. lia. }
  destruct (passes_sound es s K _ _ _ _ _ _ Hsound0 Hbound0 Hpass) as [Hs Hcases].
  assert (Hall : forall vs w v, walk G s vs w v -> le_at d v w).
  { by apply (all_bound es s K d (0 + (length nodes - 1))%nat). }
  split; [done|]. split; [done|].
  pose proof (final_settled es s K d Hs Hall) as Hset.
  apply not_true_is_false. intros [e [He Hr]]%existsb_exists.
  apply list_elem_of_In in He. rewrite (Hset e He) in Hr. done.
Qed.

Lemma simple_walk_length nodes es s vs w v :
  s ∈ node_ids nodes ->
  walk (List.filter (live (node_ids nodes)) es) s vs w v -> NoDup vs ->
  (length vs <= S (length nodes - 1))%nat.
Proof.
  intros Hs Hw Hnd.
  assert (Hincl : forall u, u ∈ vs -> u ∈ id <$> nodes).
  { intros u Hu. apply (walk_vertices _ _ _ _ _ _ Hs Hw) in Hu.
    by apply elem_of_list_to_set in Hu. }
  apply NoDup_submseteq in Hincl; [|done].
  apply submseteq_length in Hincl. rewrite length_fmap in Hincl. lia.
Qed.

End BellmanFord.

(** * Shortest paths without negative weights *)

Module ShortestPaths.

Import Graph Spec BellmanFord Samples.

Lemma nonneg_no_negative_cycle es K :
  nonneg es -> no_negative_cycle (List.filter (live K) es).
Proof.
  intros Hnn v vs c Hw. by eapply (walk_nonneg es v K).
Qed.

(** C2.  On a graph without negative weights and for a source among the
    nodes, [bellmanFord] returns the true shortest-path distances
    ([Infinity] exactly for the unreachable nodes), predecessors consistent
    with them, and [hasNegativeCycle = false]. *)
Theorem bellmanFord_nonneg_correct nodes edges sourceId :
  nonneg edges -> sourceId ∈ node_ids nodes ->
  shortest_path_result nodes edges sourceId (bellmanFord nodes edges sourceId).
Proof.
  intros Hnn Hsrc.
  pose proof (absorb_source _ _ Hsrc) as HK.
  pose proof (bellmanFord_general nodes edges sourceId) as Hgen.
  cbv zeta in Hgen. rewrite HK in Hgen.
  destruct Hgen as (Hs & Hall & Hflag).
  { by apply nonneg_no_negative_cycle. }
  { intros vs w v. by apply simple_walk_length. }
  assert (Hp : pred_inv edges sourceId (node_ids nodes)
                 (distances (bellmanFord nodes edges sourceId))
                 (predecessors (bellmanFord nodes edges sourceId))).
  { unfold bellmanFord.
    destruct (initTables nodes sourceId) as [d0 p0] eqn:Hinit.
    destruct (initTables_spec _ _ _ _ Hinit) as (Hs0 & Hd0 & Hp0 & Hdom0 & Hpdom0).
    rewrite HK in Hdom0.
    destruct (relaxPasses (length nodes - 1) edges d0 p0) as [d p] eqn:Hpass.
    simpl. eapply passes_pred; [exact Hnn| | |exact Hpass].
    - split; [done|]. split; [|by exists 0].
      intros v z Hv. destruct (decide (v = sourceId)) as [->|Hne].
      + rewrite Hs0 in Hv. injection Hv as <-. exists [sourceId]. constructor.
      + rewrite Hd0 in Hv by done. by case_decide.
    - split; [done|]. split; [by rewrite Hp0, decide_True|].
      split; [|split].
      + intros v Hv. destruct (decide (v = sourceId)) as [->|Hne]; [congruence|].
        rewrite Hd0 in Hv by done. rewrite Hp0. by case_decide.
      + intros v u Hv. rewrite Hp0 in Hv. by case_decide.
      + intros v z Hne Hv. rewrite Hd0 in Hv by done. by case_decide. }
  pose proof (final_settled _ _ _ _ Hs Hall) as Hset.
  pose proof (sound_source _ _ _ _ Hnn Hs) as Hsd.
  destruct Hs as (Hdom & Hw & Hle).
  destruct Hp as (Hpdom & Hps & Hpinf & Hpe & Hpfin).
  unfold shortest_path_result, graph_edges.
  split; [done|]. split.
  { apply final_distance; [by split|done]. }
  split; [done|]. split; [|split; [|done]].
  - intros v. split.
    + intros Hv. assert (HvK : v ∈ node_ids nodes).
      { rewrite <- Hpdom. apply elem_of_dom. eauto. }
      split; [done|]. destruct (decide (v = sourceId)) as [|Hne]; [by left|right].
      assert (is_Some (distances (bellmanFord nodes edges sourceId) !! v)) as [[z|] Hz].
      { apply elem_of_dom. by rewrite Hdom. }
      * destruct (Hpfin _ _ Hne Hz) as [u Hu]. congruence.
      * done.
    + intros [_ [->|Hinf]]; auto.
  - intros v u Hvu.
    destruct (Hpe _ _ Hvu) as (e & zu & zv & He & Hfrom & Hto & Hu & Hv & Hle').
    exists e, zu. repeat split; try done.
    rewrite Hv. do 2 f_equal.
    apply G_in in He as (He & _). specialize (Hset e He).
    unfold relaxable in Hset. rewrite Hfrom, Hto, Hu, Hv in Hset. simpl in Hset.
    lia.
Qed.

Lemma bellmanFord_nonneg_correct_witness :
  nonneg sample_edges /\ "a" ∈ node_ids sample_nodes
  /\ shortest_path_result sample_nodes sample_edges "a"
       (bellmanFord sample_nodes sample_edges "a").
Proof.
  assert (H1 : nonneg sample_edges).
  { intros e He. unfold sample_edges in He.
    repeat (apply elem_of_cons in He as [->|He]); simpl; try lia.
    by apply elem_of_nil in He. }
  assert (H2 : "a" ∈ node_ids sample_nodes).
  { unfold node_ids, sample_nodes. apply elem_of_list_to_set. simpl. left. }
  split; [exact H1|]. split; [exact H2|].
  exact (bellmanFord_nonneg_correct sample_nodes sample_edges "a" H1 H2).
Defined.

Example sample_distances :
  distances (bellmanFord sample_nodes sample_edges "a")
  = {[ "a" := Fin 0; "b" := Fin 5; "c" := Fin 7; "d" := PosInf ]}.
Proof. apply map_eq. intros k. vm_compute. reflexivity. Qed.

End ShortestPaths.

(** * The generated graph *)

Module Generated.

Import Graph Spec BellmanFord.

Lemma grid_cells_spec cx cy :
  (cx, cy) ∈ grid_cells <-> 0 <= cx < GRID_SIZE /\ 0 <= cy < GRID_SIZE.
Proof.
  unfold grid_cells. rewrite list_elem_of_bind. split.
  - intros (y0 & Hin & Hy). apply list_elem_of_bind in Hin as (x0 & Hin & Hx).
    apply list_elem_of_singleton in Hin. injection Hin as -> ->.
    apply elem_of_seqZ in Hx, Hy. lia.
  - intros [Hx Hy]. exists cy. split; [|apply elem_of_seqZ; lia].
    apply list_elem_of_bind. exists cx. split; [by left|apply elem_of_seqZ; lia].
Qed.

Lemma carved_mono ids ids' cx cy :
  ids ⊆ ids' -> carved ids cx cy -> carved ids' cx cy.
Proof.
  intros Hsub H. induction H.
  - apply carved_goal. auto.
  - apply carved_right; auto.
  - apply carved_down; auto.
Qed.

Lemma createPath_loop_spec env fuel : forall k cx cy ids,
  0 <= cx < GRID_SIZE -> 0 <= cy < GRID_SIZE ->
  (GRID_SIZE - 1 - cx) + (GRID_SIZE - 1 - cy) <= Z.of_nat fuel ->
  exists ids' k',
    createPath_loop fuel env k cx cy ids = Some (ids', k')
    /\ ids ⊆ ids'
    /\ (node_id cx cy ∈ ids -> carved ids' cx cy).
Proof.
  unfold GRID_SIZE.
  induction fuel as [|fuel IH]; intros k cx cy ids Hx Hy Hfuel; simpl.
  - assert (cx = 9 /\ cy = 9) as [-> ->] by lia. simpl.
    exists ids, k. split; [done|]. split; [done|]. intros H. by apply carved_goal.
  - destruct ((cx <? GRID_SIZE - 1) || (cy <? GRID_SIZE - 1)) eqn:Hcond.
    + unfold GRID_SIZE in Hcond.
      destruct (createPath_step env k cx cy) as [[nx ny] k1] eqn:Hstep.
      assert (Hcases : (nx = cx + 1 /\ ny = cy /\ cx < 9)
                       \/ (nx = cx /\ ny = cy + 1 /\ cy < 9)).
      { unfold createPath_step, GRID_SIZE in Hstep.
        apply orb_true_iff in Hcond.
        repeat match type of Hstep with
               | context [if ?b then _ else _] => destruct b eqn:?
               end; injection Hstep as <- <- <-; lia. }
      destruct (IH k1 nx ny ({[node_id nx ny]} ∪ ids)) as (ids' & k' & Hr & Hsub & Hc);
        [lia..|].
      exists ids', k'. split; [done|]. split; [set_solver|].
      intros Hin. assert (Hc' : carved ids' nx ny) by (apply Hc; set_solver).
      destruct Hcases as [(-> & -> & ?)|(-> & -> & ?)].
      * apply carved_right; [set_solver|unfold GRID_SIZE; lia..|done].
      * apply carved_down; [set_solver|unfold GRID_SIZE; lia..|done].
    + apply orb_false_iff in Hcond as [H1 H2]. unfold GRID_SIZE in *.
      assert (cx = 9 /\ cy = 9) as [-> ->] by lia.
      exists ids, k. split; [done|]. split; [done|]. intros H. by apply carved_goal.
Qed.

Lemma createPath_spec env k ids :
  exists ids' k',
    createPath env k ids = Some (ids', k') /\ ids ⊆ ids' /\ carved ids' 0 0.
Proof.
  unfold createPath.
  destruct (createPath_loop_spec env createPath_fuel k 0 0 ({[node_id 0 0]} ∪ ids))
    as (ids' & k' & Hr & Hsub & Hc); [unfold GRID_SIZE; lia..|vm_compute; discriminate|].
  exists ids', k'. split; [done|]. split; [set_solver|]. apply Hc. set_solver.
Qed.

Lemma createPaths_spec env n : forall k ids,
  exists ids' k',
    createPaths n env k ids = Some (ids', k') /\ ids ⊆ ids'
    /\ ((1 <= n)%nat -> carved ids' 0 0).
Proof.
  induction n as [|n IH]; intros k ids; simpl.
  - exists ids, k. split; [done|]. split; [done|]. lia.
  - destruct (createPath_spec env k ids) as (ids1 & k1 & -> & Hsub1 & Hc1).
    destruct (IH k1 ids1) as (ids' & k' & Hr & Hsub & _).
    exists ids', k'. split; [done|]. split; [set_solver|].
    intros _. by eapply carved_mono.
Qed.

Lemma addExtraNodes_spec env n : forall k ids,
  ids ⊆ (addExtraNodes n env k ids).1.
Proof.
  induction n as [|n IH]; intros k ids; simpl; [done|].
  etrans; [|apply IH]. set_solver.
Qed.

(** Adjacency edges. *)

Lemma adjacencyEdges_spec ids e :
  e ∈ adjacencyEdges ids <->
  exists cx cy nx ny,
    0 <= cx < GRID_SIZE /\ 0 <= cy < GRID_SIZE
    /\ ((nx = cx + 1 /\ ny = cy) \/ (nx = cx /\ ny = cy + 1))
    /\ nx < GRID_SIZE /\ ny < GRID_SIZE
    /\ node_id cx cy ∈ ids /\ node_id nx ny ∈ ids
    /\ (e = mkEdge (node_id cx cy) (node_id nx ny) 10 false
        \/ e = mkEdge (node_id nx ny) (node_id cx cy) 10 false).
Proof.
  unfold adjacencyEdges. rewrite list_elem_of_bind. split.
  - intros ([cx cy] & Hin & Hc). apply grid_cells_spec in Hc as [Hx Hy].
    unfold cellEdges in Hin. apply list_elem_of_bind in Hin as ([nx ny] & Hin & Hnb).
    simpl in Hin, Hnb.
    destruct ((nx <? GRID_SIZE) && (ny <? GRID_SIZE)) eqn:Hr;
      [|by apply elem_of_nil in Hin].
    destruct (bool_decide (node_id cx cy ∈ ids)
              && bool_decide (node_id nx ny ∈ ids)) eqn:Hs;
      [|by apply elem_of_nil in Hin].
    apply andb_true_iff in Hr as [Hr1 Hr2]. apply andb_true_iff in Hs as [Hs1 Hs2].
    apply bool_decide_eq_true_1 in Hs1, Hs2.
    exists cx, cy, nx, ny. repeat split; try lia; try done.
    + apply elem_of_cons in Hnb as [Hnb|Hnb]; [left; by injection Hnb|].
      apply list_elem_of_singleton in Hnb. right; by injection Hnb.
    + apply elem_of_cons in Hin as [->|Hin]; [by left|].
      apply list_elem_of_singleton in Hin. by right.
  - intros (cx & cy & nx & ny & Hx & Hy & Hnb & Hnx & Hny & Hs1 & Hs2 & He).
    exists (cx, cy). split; [|by apply grid_cells_spec].
    unfold cellEdges. apply list_elem_of_bind. exists (nx, ny). simpl. split.
    + rewrite (proj2 (andb_true_iff _ _)) by (split; lia).
      rewrite !bool_decide_eq_true_2 by done. simpl.
      destruct He as [->| ->]; [left|right; left].
    + destruct Hnb as [[-> ->]|[-> ->]]; [left|right; left].
Qed.

Lemma carved_corridor ids es cx cy :
  (forall e, e ∈ adjacencyEdges ids -> e ∈ es) ->
  carved ids cx cy -> corridor es cx cy.
Proof.
  intros Hsub H. induction H as [H|cx cy Hin Hx Hy H IH|cx cy Hin Hx Hy H IH].
  - constructor.
  - apply corridor_right; [|done]. apply Hsub, adjacencyEdges_spec.
    assert (node_id (cx + 1) cy ∈ ids) by (inversion H; done).
    exists cx, cy, (cx + 1), cy. unfold GRID_SIZE in *.
    split_and!; try lia; try done; auto.
  - apply corridor_down; [|done]. apply Hsub, adjacencyEdges_spec.
    assert (node_id cx (cy + 1) ∈ ids) by (inversion H; done).
    exists cx, cy, cx, (cy + 1). unfold GRID_SIZE in *.
    split_and!; try lia; try done; auto.
Qed.

Lemma corridor_nonneg_path es cx cy :
  corridor es cx cy ->
  nonneg_path es (node_id cx cy) (node_id (GRID_SIZE - 1) (GRID_SIZE - 1)).
Proof.
  intros H. induction H as [|cx cy He H IH|cx cy He H IH].
  - constructor.
  - eapply nonneg_path_step; [exact He|done|simpl; lia|exact IH].
  - eapply nonneg_path_step; [exact He|done|simpl; lia|exact IH].
Qed.

(** Reading an array at a random index. *)

Lemma random_index {A} (l : list A) (r : Q) :
  (0 <= r)%Q -> (r < 1)%Q -> (0 < length l)%nat ->
  is_Some (l !! Z.to_nat (Math_floor (r * inject_Z (Z.of_nat (length l))))).
Proof.
  intros H0 H1 Hlen. apply lookup_lt_is_Some.
  set (n := Z.of_nat (length l)). assert (Hn : 0 < n) by lia.
  assert (Hq : (0 < inject_Z n)%Q).
  { change 0%Q with (inject_Z 0). by rewrite <- Zlt_Qlt. }
  unfold Math_floor.
  assert (Hlo : 0 <= Qfloor (r * inject_Z n)).
  { change 0 with (Qfloor 0). apply Qfloor_resp_le.
    apply Qmult_le_0_compat; [done|by apply Qlt_le_weak]. }
  assert (Hhi : Qfloor (r * inject_Z n) < n).
  { rewrite Zlt_Qlt. eapply Qle_lt_trans; [apply Qfloor_le|].
    rewrite <- (Qmult_1_l (inject_Z n)) at 2. by apply Qmult_lt_r. }
  lia.
Qed.

Lemma warpEdges_spec env k stage nodes :
  exists warp,
    warpEdges env k stage nodes = Some warp
    /\ (warp = []
        \/ exists from to,
             from ∈ nodes /\ to ∈ nodes /\ 2 <= stage
             /\ warp = [mkEdge (id from) (id to) (-15) true]
             /\ id from <> id to
             /\ (2 < (gridCoord (x to) + gridCoord (y to))
                      - (gridCoord (x from) + gridCoord (y from)))%Q
             /\ ((gridCoord (x to) + gridCoord (y to))
                      - (gridCoord (x from) + gridCoord (y from)) < 9)%Q).
Proof.
  unfold warpEdges.
  destruct (2 <=? stage) eqn:Hstage; [|by exists []; auto].
  destruct (10 <? _); [|by exists []; auto].
  set (pNodes := List.filter isPath nodes).
  set (cf := List.filter isCandidateFrom pNodes).
  set (ct := List.filter isCandidateTo pNodes).
  destruct ((0 <? Z.of_nat (length cf)) && (0 <? Z.of_nat (length ct))) eqn:Hlen;
    [|by exists []; auto].
  apply andb_true_iff in Hlen as [Hf Ht].
  destruct (random_range env k) as [Hk0 Hk1].
  destruct (random_range env (S k)) as [Hs0 Hs1].
  destruct (random_index cf (random env k) Hk0 Hk1) as [from Hfrom]; [lia|].
  destruct (random_index ct (random env (S k)) Hs0 Hs1) as [to Hto]; [lia|].
  rewrite Hfrom, Hto.
  match goal with |- context [if ?b then _ else _] => destruct b eqn:Hcond end;
    [|by exists []; auto].
  eexists. split; [done|]. right. exists from, to.
  apply andb_true_iff in Hcond as [Hcond H3].
  apply andb_true_iff in Hcond as [H1 H2].
  assert (Hin : forall (f : Node -> bool) n, n ∈ List.filter f pNodes -> n ∈ nodes).
  { intros f n Hn. apply list_elem_of_In, filter_In in Hn as [Hn _].
    apply filter_In in Hn as [Hn _]. by apply list_elem_of_In. }
  split_and!.
  - eapply Hin, list_elem_of_lookup_2, Hfrom.
  - eapply Hin, list_elem_of_lookup_2, Hto.
  - lia.
  - done.
  - apply negb_true_iff, String.eqb_neq in H1. done.
  - unfold Qltb in H2. apply negb_true_iff in H2. apply Qnot_le_lt.
    intros Hle. apply Qle_bool_iff in Hle. congruence.
  - unfold Qltb in H3. apply negb_true_iff in H3. apply Qnot_le_lt.
    intros Hle. apply Qle_bool_iff in Hle.
    change (inject_Z ((GRID_SIZE - 1) * 2) * (1 # 2))%Q with (18 # 2)%Q in H3.
    assert (Qle_bool (18 # 2) ((gridCoord (x to) + gridCoord (y to))
                 - (gridCoord (x from) + gridCoord (y from))) = true); [|congruence].
    apply Qle_bool_iff. apply Qle_bool_iff in Hle.
    eapply Qle_trans; [|exact Hle]. by apply Qle_bool_iff.
Qed.

(** The nodes of a generated graph are the grid nodes, marked or not. *)

Lemma generated_node ids n :
  n ∈ markPath ids <$> initial_nodes ->
  exists cx cy, 0 <= cx < GRID_SIZE /\ 0 <= cy < GRID_SIZE
    /\ id n = node_id cx cy
    /\ x n = MARGIN + cx * NODE_SPACING /\ y n = MARGIN + cy * NODE_SPACING.
Proof.
  intros Hn. apply list_elem_of_fmap in Hn as (n0 & -> & Hn0).
  unfold initial_nodes in Hn0. apply list_elem_of_fmap in Hn0 as ([cx cy] & -> & Hc).
  apply grid_cells_spec in Hc as [Hx Hy]. exists cx, cy.
  unfold markPath. by case_bool_decide.
Qed.

Lemma generated_ids ids cx cy :
  0 <= cx < GRID_SIZE -> 0 <= cy < GRID_SIZE ->
  node_id cx cy ∈ node_ids (markPath ids <$> initial_nodes).
Proof.
  intros Hx Hy. unfold node_ids. apply elem_of_list_to_set.
  apply list_elem_of_fmap.
  exists (markPath ids (mkNode (node_id cx cy) (MARGIN + cx * NODE_SPACING)
                            (MARGIN + cy * NODE_SPACING) false None)).
  split; [unfold markPath; by case_bool_decide|].
  apply list_elem_of_fmap_2. unfold initial_nodes.
  apply (list_elem_of_fmap_2' _ _ (cx, cy)); [|done]. by apply grid_cells_spec.
Qed.

Lemma gridCoord_pixel c :
  (gridCoord (MARGIN + c * NODE_SPACING) == inject_Z c)%Q.
Proof.
  unfold gridCoord, MARGIN, NODE_SPACING, Qeq, Qdiv, Qmult, Qinv, inject_Z.
  simpl. lia.
Qed.

Lemma progressOf_grid cx cy :
  0 <= cx < GRID_SIZE -> 0 <= cy < GRID_SIZE ->
  progressOf (node_id cx cy) = cx + cy.
Proof.
  intros Hx Hy.
  assert (H : forallb (fun c : Z * Z => progressOf (node_id c.1 c.2) =? c.1 + c.2)
                      grid_cells = true) by (vm_compute; reflexivity).
  rewrite forallb_forall in H.
  apply Z.eqb_eq, (H (cx, cy)), list_elem_of_In. by apply grid_cells_spec.
Qed.

(** The shape of every generated graph. *)

Lemma generateGraph_spec env stage :
  exists ids k warp,
    let nodes := markPath ids <$> initial_nodes in
    generateGraph env stage
      = Some (mkGraphData nodes (adjacencyEdges ids ++ warp)%list
                          (node_id 0 0) (node_id (GRID_SIZE - 1) (GRID_SIZE - 1)))
    /\ warpEdges env k stage nodes = Some warp
    /\ (1 <= stage -> carved ids 0 0).
Proof.
  unfold generateGraph.
  destruct (createPaths_spec env (Z.to_nat (Z.min stage 3)) 0%nat ∅)
    as (ids1 & k1 & -> & _ & Hc).
  pose proof (addExtraNodes_spec env (Z.to_nat (10 + stage * 5)) k1 ids1) as Hsub.
  destruct (addExtraNodes _ env k1 ids1) as [ids k2]. simpl in Hsub.
  destruct (warpEdges_spec env k2 stage (markPath ids <$> initial_nodes))
    as (warp & Hw & _).
  exists ids, k2, warp. cbv zeta. rewrite Hw. split; [done|]. split; [done|].
  intros Hstage. eapply carved_mono; [exact Hsub|]. apply Hc. lia.
Qed.

Lemma walk_potential (phi : string -> Z) es s vs w v :
  (forall e, e ∈ es -> 0 <= weight e + 5 * (phi (to e) - phi (from e))) ->
  walk es s vs w v -> 0 <= w + 5 * (phi v - phi s).
Proof.
  intros Hpot Hw. induction Hw as [|vs w u e Hw IH He Hfrom]; [lia|].
  specialize (Hpot e He). rewrite Hfrom in Hpot. lia.
Qed.

Lemma walk_mono es es' s vs w v :
  (forall e, e ∈ es -> e ∈ es') -> walk es s vs w v -> walk es' s vs w v.
Proof. intros Hsub Hw. induction Hw; econstructor; eauto. Qed.

Lemma walk_stuck es s vs w v :
  (forall e, e ∈ es -> from e <> s) -> walk es s vs w v -> vs = [s] /\ v = s.
Proof.
  intros Hno Hw. induction Hw as [|vs w u e Hw IH He Hfrom]; [done|].
  destruct IH as [_ ->]. by destruct (Hno e He).
Qed.

(** Adjacency edges change the progress by one; the warp edge raises it by
    at least three. *)
Lemma adjacency_progress ids e :
  e ∈ adjacencyEdges ids ->
  weight e = 10 /\ isWarp e = false
  /\ (progressOf (to e) - progressOf (from e) = 1
      \/ progressOf (to e) - progressOf (from e) = -1)
  /\ from e ∈ node_ids (markPath ids <$> initial_nodes)
  /\ to e ∈ node_ids (markPath ids <$> initial_nodes).
Proof.
  intros (cx & cy & nx & ny & Hx & Hy & Hnb & Hnx & Hny & _ & _ & He)%adjacencyEdges_spec.
  assert (0 <= nx < GRID_SIZE /\ 0 <= ny < GRID_SIZE) as [Hx' Hy'] by lia.
  pose proof (progressOf_grid cx cy Hx Hy).
  pose proof (progressOf_grid nx ny Hx' Hy').
  pose proof (generated_ids ids cx cy Hx Hy).
  pose proof (generated_ids ids nx ny Hx' Hy').
  destruct He as [-> | ->]; simpl; split_and!; try done; lia.
Qed.

Lemma warp_progress env k stage ids warp e :
  warpEdges env k stage (markPath ids <$> initial_nodes) = Some warp ->
  e ∈ warp ->
  warp = [e] /\ 2 <= stage /\ weight e = -15 /\ isWarp e = true
  /\ from e <> to e
  /\ 2 < progressOf (to e) - progressOf (from e) < 9
  /\ from e ∈ node_ids (markPath ids <$> initial_nodes)
  /\ to e ∈ node_ids (markPath ids <$> initial_nodes).
Proof.
  intros Hw He.
  destruct (warpEdges_spec env k stage (markPath ids <$> initial_nodes))
    as (warp' & Hw' & Hcases).
  rewrite Hw in Hw'. injection Hw' as <-.
  destruct Hcases as [->|(f & t & Hf & Ht & Hstage & -> & Hne & Hlo & Hhi)];
    [by apply elem_of_nil in He|].
  apply list_elem_of_singleton in He as ->. simpl.
  destruct (generated_node _ _ Hf) as (fx & fy & Hfx & Hfy & Hfid & Hfxp & Hfyp).
  destruct (generated_node _ _ Ht) as (tx & ty & Htx & Hty & Htid & Htxp & Htyp).
  rewrite Hfxp, Hfyp, Htxp, Htyp in Hlo, Hhi.
  rewrite !gridCoord_pixel in Hlo, Hhi.
  unfold Qminus in Hlo, Hhi.
  rewrite <- !inject_Z_plus, <- inject_Z_opp, <- inject_Z_plus in Hlo, Hhi.
  change 2%Q with (inject_Z 2) in Hlo. change 9%Q with (inject_Z 9) in Hhi.
  rewrite <- Zlt_Qlt in Hlo, Hhi.
  rewrite Hfid, Htid, !progressOf_grid by done.
  split_and!; try done; try lia; try (by apply generated_ids).
  by rewrite <- Hfid, <- Htid.
Qed.

Lemma generated_endpoints env stage g :
  generateGraph env stage = Some g ->
  (forall e, e ∈ edges g ->
      from e ∈ node_ids (nodes g) /\ to e ∈ node_ids (nodes g))
  /\ startNodeId g ∈ node_ids (nodes g).
Proof.
  intros Hg.
  destruct (generateGraph_spec env stage) as (ids & k & warp & Hg' & Hw & _).
  cbv zeta in Hg'. rewrite Hg in Hg'. injection Hg' as ->. simpl. split.
  - intros e [He|He]%elem_of_app.
    + by apply adjacency_progress in He as (_ & _ & _ & ? & ?).
    + by destruct (warp_progress _ _ _ _ _ _ Hw He) as (_ & _ & _ & _ & _ & _ & ? & ?).
  - apply generated_ids; unfold GRID_SIZE; lia.
Qed.

End Generated.

(** * Corridor and negative cycles of the generated graph *)

Module GeneratedGraphs.

Import Graph Spec BellmanFord Generated Samples.

Lemma filter_none {A} (f : A -> bool) (l : list A) :
  (forall a, a ∈ l -> f a = false) -> List.filter f l = [].
Proof.
  induction l as [|a l IH]; intros H; simpl; [done|].
  rewrite (H a) by left. apply IH. intros b Hb. apply H. by right.
Qed.

(** C3.  For every stage number at least 1 the generated graph has a
    corridor from the start node [node_0_0] to the goal node [node_9_9]:
    a path of adjacency edges of weight 10, each going one cell right or one
    cell down; in particular a path of non-negative edges from start to
    goal. *)
Theorem generateGraph_corridor env stage :
  1 <= stage ->
  exists g,
    generateGraph env stage = Some g
    /\ startNodeId g = "node_0_0" /\ endNodeId g = "node_9_9"
    /\ corridor (edges g) 0 0
    /\ nonneg_path (edges g) (startNodeId g) (endNodeId g).
Proof.
  intros Hstage.
  destruct (generateGraph_spec env stage) as (ids & k & warp & Hg & _ & Hc).
  eexists. split; [exact Hg|]. simpl. split; [done|]. split; [done|].
  assert (Hcor : corridor (adjacencyEdges ids ++ warp) 0 0).
  { eapply carved_corridor; [|by apply Hc]. intros e He. apply elem_of_app. by left. }
  split; [done|]. by apply corridor_nonneg_path in Hcor.
Qed.

Lemma generateGraph_corridor_witness :
  1 <= 2
  /\ exists g,
       generateGraph sample_env 2 = Some g
       /\ startNodeId g = "node_0_0" /\ endNodeId g = "node_9_9"
       /\ corridor (edges g) 0 0
       /\ nonneg_path (edges g) (startNodeId g) (endNodeId g).
Proof.
  split; [lia|]. apply (generateGraph_corridor sample_env 2). lia.
Defined.

(** C1.  For every stage number at least 1 the generated graph has
    adjacency edges of weight 10 only, at most one warp edge, of weight -15,
    joining two different nodes with a progress gain above 2 and below 9; no
    closed walk has negative weight, and [bellmanFord] reports no negative
    cycle on it, whatever the source. *)
Theorem generateGraph_no_negative_cycle env stage :
  1 <= stage ->
  exists g,
    generateGraph env stage = Some g
    /\ (forall e, e ∈ edges g -> isWarp e = false -> weight e = 10)
    /\ (forall e, e ∈ edges g -> isWarp e = true ->
          weight e = -15 /\ from e <> to e
          /\ 2 < progressOf (to e) - progressOf (from e) < 9)
    /\ (length (List.filter isWarp (edges g)) <= 1)%nat
    /\ no_negative_cycle (edges g)
    /\ (forall sourceId,
          hasNegativeCycle (bellmanFord (nodes g) (edges g) sourceId) = false).
Proof.
  intros _.
  destruct (generateGraph_spec env stage) as (ids & k & warp & Hg & Hw & _).
  eexists. split; [exact Hg|]. simpl.
  set (nodes := markPath ids <$> initial_nodes) in *.
  set (es := (adjacencyEdges ids ++ warp)%list).
  assert (Hcases : forall e, e ∈ es ->
            (e ∈ adjacencyEdges ids /\ weight e = 10 /\ isWarp e = false
             /\ (progressOf (to e) - progressOf (from e) = 1
                 \/ progressOf (to e) - progressOf (from e) = -1)
             /\ from e ∈ node_ids nodes /\ to e ∈ node_ids nodes)
            \/ (warp = [e] /\ weight e = -15 /\ isWarp e = true
                /\ from e <> to e
                /\ 2 < progressOf (to e) - progressOf (from e) < 9
                /\ from e ∈ node_ids nodes /\ to e ∈ node_ids nodes)).
  { intros e [He|He]%elem_of_app.
    - left. split; [done|]. by apply adjacency_progress.
    - right. destruct (warp_progress _ _ _ _ _ _ Hw He)
        as (? & ? & ? & ? & ? & ? & ? & ?). done. }
  assert (Hpot : forall e, e ∈ es ->
            0 <= weight e + 5 * (progressOf (to e) - progressOf (from e))).
  { intros e He. destruct (Hcases e He)
      as [(_ & -> & _ & Hd & _)|(_ & -> & _ & _ & Hd & _)]; lia. }
  assert (Hnn : no_negative_cycle es).
  { intros v vs c Hwalk. pose proof (walk_potential progressOf _ _ _ _ _ Hpot Hwalk).
    lia. }
  split_and!.
  - intros e He Hwarp. destruct (Hcases e He) as [(_ & ? & _)|(_ & _ & ? & _)];
      [done|congruence].
  - intros e He Hwarp. destruct (Hcases e He) as [(_ & _ & ? & _)|(_ & ? & _ & ? & ? & _)];
      [congruence|done].
  - unfold es. rewrite List.filter_app, length_app.
    rewrite (filter_none isWarp (adjacencyEdges ids)).
    + simpl. destruct warp as [|e warp']; [simpl; lia|].
      destruct (warp_progress _ _ _ _ _ e Hw) as (Heq & _); [left|].
      injection Heq as ->. simpl. destruct (isWarp e); simpl; lia.
    + intros e He. by apply adjacency_progress in He as (_ & ? & _).
  - done.
  - intros sourceId.
    apply (bellmanFord_general nodes es sourceId).
    + intros v vs c Hwalk. apply (Hnn v vs c). eapply walk_mono; [|exact Hwalk].
      intros e He. by apply G_in in He as (? & _).
    + intros vs w v Hwalk Hnd.
      destruct (decide (sourceId ∈ node_ids nodes)) as [Hin|Hnin].
      * rewrite (absorb_source _ _ Hin) in Hwalk. by eapply simple_walk_length.
      * apply walk_stuck in Hwalk as [-> _]; [simpl; lia|].
        intros e He Hfrom. apply G_in in He as (He & _).
        apply Hnin. rewrite <- Hfrom.
        destruct (Hcases e He) as [(_ & _ & _ & _ & ? & _)|(_ & _ & _ & _ & _ & ? & _)];
          done.
Qed.

Lemma generateGraph_no_negative_cycle_witness :
  1 <= 2
  /\ exists g,
       generateGraph sample_env 2 = Some g
       /\ (forall e, e ∈ edges g -> isWarp e = false -> weight e = 10)
       /\ (forall e, e ∈ edges g -> isWarp e = true ->
             weight e = -15 /\ from e <> to e
             /\ 2 < progressOf (to e) - progressOf (from e) < 9)
       /\ (length (List.filter isWarp (edges g)) <= 1)%nat
       /\ no_negative_cycle (edges g)
       /\ (forall sourceId,
             hasNegativeCycle (bellmanFord (nodes g) (edges g) sourceId) = false).
Proof.
  split; [lia|]. apply (generateGraph_no_negative_cycle sample_env 2). lia.
Defined.

End GeneratedGraphs.

(** * Placement and upgrade commands *)

Module Commands.

Import Engine Samples.

Lemma findIndex_find {A} (f : A -> bool) (l : list A) :
  match findIndex f l with
  | Some i => exists a, l !! i = Some a /\ List.find f l = Some a
  | None => List.find f l = None
  end.
Proof.
  induction l as [|a l IH]; simpl; [done|].
  destruct (f a); [by exists a|].
  destruct (findIndex f l) as [i|]; simpl; [|done].
  destruct IH as (b & Hb & Hf). by exists b.
Qed.

Lemma find_some_elem {A} (f : A -> bool) (l : list A) a :
  a ∈ l -> f a = true -> is_Some (List.find f l).
Proof.
  intros Hin Hf. destruct (List.find f l) eqn:Hfind; [done|].
  apply list_elem_of_In in Hin.
  rewrite (find_none _ _ Hfind _ Hin) in Hf. done.
Qed.

(** C9.  A placement or upgrade command whose precondition fails returns
    the input state: [placeTower] on an unknown node id, on a walkable node,
    on a node that already hosts a tower, or with money below 100;
    [placeRoadBlock] on an unknown node id, on a non-walkable node, on a node
    that already has a block, or with money below 50; [upgradeTower] for an
    unknown tower id, for a tier-3 tower, or with money below the cost of the
    tier (200 from tier 1, 400 from tier 2). *)
Theorem rejected_command_unchanged :
  (forall env state nodeId,
      findNode (nodes state) nodeId = None
      \/ (exists node, findNode (nodes state) nodeId = Some node
                       /\ Graph.isPath node = true)
      \/ (exists t, t ∈ towers state /\ t_nodeId t = nodeId)
      \/ money state < 100 ->
      placeTower env state nodeId = state)
  /\ (forall env state nodeId,
      findNode (nodes state) nodeId = None
      \/ (exists node, findNode (nodes state) nodeId = Some node
                       /\ Graph.isPath node = false)
      \/ (exists rb, rb ∈ roadBlocks state /\ rb_nodeId rb = nodeId)
      \/ money state < 50 ->
      placeRoadBlock env state nodeId = state)
  /\ (forall state towerId upgradeType,
      List.find (fun t => String.eqb (t_id t) towerId) (towers state) = None
      \/ (exists tower,
            List.find (fun t => String.eqb (t_id t) towerId) (towers state)
              = Some tower
            /\ (t_tier tower = 3
                \/ (t_tier tower = 1 /\ money state < 200)
                \/ (t_tier tower = 2 /\ money state < 400))) ->
      upgradeTower state towerId upgradeType = state).
Proof.
  split_and!.
  - intros env state nodeId H. unfold placeTower.
    destruct (findNode (nodes state) nodeId) as [node|] eqn:Hnode; [|done].
    destruct (Graph.isPath node) eqn:Hpath; [done|].
    destruct (money state <? 100) eqn:Hmoney; [done|]. simpl.
    destruct H as [H|[(n & Hn & Hp)|[(t & Ht & Htn)|H]]]; [done|congruence| |lia].
    destruct (find_some_elem (fun t => String.eqb (t_nodeId t) nodeId)
                (towers state) t Ht) as [t' ->]; [by apply String.eqb_eq|done].
  - intros env state nodeId H. unfold placeRoadBlock.
    destruct (findNode (nodes state) nodeId) as [node|] eqn:Hnode; [|done].
    destruct (Graph.isPath node) eqn:Hpath; [|done].
    destruct (money state <? 50) eqn:Hmoney; [done|]. simpl.
    destruct H as [H|[(n & Hn & Hp)|[(rb & Hrb & Hrn)|H]]]; [done|congruence| |lia].
    destruct (find_some_elem (fun rb => String.eqb (rb_nodeId rb) nodeId)
                (roadBlocks state) rb Hrb) as [rb' ->]; [by apply String.eqb_eq|done].
  - intros state towerId upgradeType H. unfold upgradeTower.
    pose proof (findIndex_find (fun t => String.eqb (t_id t) towerId) (towers state))
      as Hidx.
    destruct (findIndex _ (towers state)) as [i|]; [|done].
    destruct Hidx as (tower & Hi & Hfind). rewrite Hi.
    destruct (money state <? 200) eqn:Hm200; [done|].
    destruct H as [H|(tower' & Hfind' & H)]; [congruence|].
    rewrite Hfind in Hfind'. injection Hfind' as <-.
    destruct H as [Ht|[[Ht Hm]|[Ht Hm]]]; rewrite Ht; simpl; [done|lia|].
    destruct (money state <? 400) eqn:Hm400; [done|lia].
Qed.

(** C10.  A successful [placeTower] changes two fields only: [money]
    decreases by 100 and one tier-1 tower on the chosen node is appended to
    [towers]; a successful [placeRoadBlock] changes two fields only: [money]
    decreases by 50 and one block on the chosen node is appended to
    [roadBlocks]. *)
Theorem successful_placement_frame :
  (forall env state nodeId node,
      findNode (nodes state) nodeId = Some node ->
      Graph.isPath node = false ->
      (forall t, t ∈ towers state -> t_nodeId t <> nodeId) ->
      100 <= money state ->
      exists tower,
        t_tier tower = 1 /\ t_nodeId tower = nodeId
        /\ placeTower env state nodeId
           = mkGameState
               (nodes state) (edges state) (enemies state)
               (towers state ++ [tower])%list
               (projectiles state) (roadBlocks state)
               (money state - 100) (lives state) (wave state) (stage state)
               (maxWavesPerStage state) (status state) (timer state)
               (spawnTimer state) (enemiesToSpawn state)
               (startNodeId state) (endNodeId state))
  /\ (forall env state nodeId node,
      findNode (nodes state) nodeId = Some node ->
      Graph.isPath node = true ->
      (forall rb, rb ∈ roadBlocks state -> rb_nodeId rb <> nodeId) ->
      50 <= money state ->
      exists block,
        rb_nodeId block = nodeId
        /\ placeRoadBlock env state nodeId
           = mkGameState
               (nodes state) (edges state) (enemies state) (towers state)
               (projectiles state)
               (roadBlocks state ++ [block])%list
               (money state - 50) (lives state) (wave state) (stage state)
               (maxWavesPerStage state) (status state) (timer state)
               (spawnTimer state) (enemiesToSpawn state)
               (startNodeId state) (endNodeId state)).
Proof.
  split.
  - intros env state nodeId node Hnode Hpath Hfree Hmoney.
    exists (newTower env nodeId). split; [done|]. split; [done|].
    unfold placeTower. rewrite Hnode, Hpath.
    rewrite (proj2 (Z.ltb_ge _ _) Hmoney). simpl.
    destruct (List.find _ (towers state)) as [t|] eqn:Hfind; [|done].
    apply find_some in Hfind as [Hin Heq].
    apply list_elem_of_In in Hin. apply String.eqb_eq in Heq.
    by destruct (Hfree t Hin).
  - intros env state nodeId node Hnode Hpath Hfree Hmoney.
    exists (newRoadBlock env nodeId). split; [done|].
    unfold placeRoadBlock. rewrite Hnode, Hpath.
    rewrite (proj2 (Z.ltb_ge _ _) Hmoney). simpl.
    destruct (List.find _ (roadBlocks state)) as [rb|] eqn:Hfind; [|done].
    apply find_some in Hfind as [Hin Heq].
    apply list_elem_of_In in Hin. apply String.eqb_eq in Heq.
    by destruct (Hfree rb Hin).
Qed.

Lemma rejected_command_unchanged_witness :
  (exists node, findNode (nodes road_state) "a" = Some node
                /\ Graph.isPath node = true)
  /\ placeTower sample_env road_state "a" = road_state.
Proof.
  assert (H : exists node, findNode (nodes road_state) "a" = Some node
                           /\ Graph.isPath node = true).
  { eexists. split; reflexivity. }
  split; [exact H|].
  apply (proj1 rejected_command_unchanged sample_env road_state "a").
  right. left. exact H.
Defined.

Lemma successful_placement_frame_witness :
  findNode (nodes road_state) "c" = Some (Graph.mkNode "c" 40 100 false None)
  /\ 100 <= money road_state
  /\ exists tower,
       t_tier tower = 1 /\ t_nodeId tower = "c"
       /\ placeTower sample_env road_state "c"
          = mkGameState
              (nodes road_state) (edges road_state) (enemies road_state)
              (towers road_state ++ [tower])%list
              (projectiles road_state) (roadBlocks road_state)
              (money road_state - 100) (lives road_state) (wave road_state)
              (stage road_state) (maxWavesPerStage road_state)
              (status road_state) (timer road_state) (spawnTimer road_state)
              (enemiesToSpawn road_state)
              (startNodeId road_state) (endNodeId road_state).
Proof.
  split; [reflexivity|]. split; [vm_compute; discriminate|].
  apply (proj1 successful_placement_frame sample_env road_state "c"
               (Graph.mkNode "c" 40 100 false None)).
  - reflexivity.
  - reflexivity.
  - intros t Ht. by apply elem_of_nil in Ht.
  - vm_compute. discriminate.
Defined.

End Commands.

(** * Status gates of the tick *)

Module Ticks.

Import Engine EngineSpec Samples.

Lemma Qltb_lt a b : Qltb a b = true -> (a < b)%Q.
Proof.
  unfold Qltb. intros H%negb_true_iff. apply Qnot_le_lt.
  intros Hle%Qle_bool_iff. congruence.
Qed.

(** *** Status gates *)

Lemma updateGame_game_over env state deltaTime :
  status state = game_over -> updateGame env state deltaTime = Some state.
Proof. intros H. unfold updateGame. by rewrite H. Qed.

Lemma animate_paused env state deltaTime :
  status state = paused -> App.animate env state deltaTime = Some state.
Proof. intros H. unfold App.animate. by rewrite H. Qed.

(** C8 (as the code has it).  [updateGame], and with it the frame callback,
    returns a [game_over] state unchanged, so no sequence of ticks leaves
    it; the commands do not look at the status: [placeTower],
    [placeRoadBlock] and [upgradeTower] do to a state what they do to the
    same state under any other status, and [startNextWave] overwrites the
    status. *)
Theorem game_over_terminal_for_ticks :
  (forall env state deltaTime,
      status state = game_over ->
      updateGame env state deltaTime = Some state
      /\ App.animate env state deltaTime = Some state)
  /\ (forall state cs,
      status state = game_over -> Forall isTick cs ->
      App.run state cs = Some state)
  /\ (forall env s state nodeId,
      placeTower env (withStatus s state) nodeId
      = withStatus s (placeTower env state nodeId))
  /\ (forall env s state nodeId,
      placeRoadBlock env (withStatus s state) nodeId
      = withStatus s (placeRoadBlock env state nodeId))
  /\ (forall s state towerId upgradeType,
      upgradeTower (withStatus s state) towerId upgradeType
      = withStatus s (upgradeTower state towerId upgradeType))
  /\ (forall env s state,
      startNextWave env (withStatus s state) = startNextWave env state).
Proof.
  assert (Htick : forall env state deltaTime,
      status state = game_over ->
      updateGame env state deltaTime = Some state
      /\ App.animate env state deltaTime = Some state).
  { intros env state dt H. split; [by apply updateGame_game_over|].
    unfold App.animate. rewrite H. by apply updateGame_game_over. }
  split_and!.
  - exact Htick.
  - intros state cs Hover Hcs. induction Hcs as [|c cs Hc _ IH]; [done|].
    simpl. destruct c; try done; simpl;
      rewrite (proj1 (Htick _ state _ Hover)) || rewrite (proj2 (Htick _ state _ Hover));
      exact IH.
  - intros env s state nodeId. unfold placeTower, withStatus. simpl.
    repeat case_match; reflexivity.
  - intros env s state nodeId. unfold placeRoadBlock, withStatus. simpl.
    repeat case_match; reflexivity.
  - intros s state towerId upgradeType. unfold upgradeTower, withStatus. simpl.
    repeat case_match; reflexivity.
  - intros env s state. unfold startNextWave, withStatus. simpl. done.
Qed.

Lemma game_over_terminal_for_ticks_witness :
  status over_state = game_over
  /\ updateGame sample_env over_state 16 = Some over_state
  /\ App.animate sample_env over_state 16 = Some over_state.
Proof.
  split; [reflexivity|].
  apply (proj1 game_over_terminal_for_ticks sample_env over_state 16%Q).
  reflexivity.
Defined.

(** C8, counterexample: on a [game_over] state [placeTower] still builds
    and [startNextWave] still starts a wave. *)
Lemma game_over_commands_mutate :
  status over_state = game_over
  /\ placeTower sample_env over_state "c" <> over_state
  /\ money (placeTower sample_env over_state "c") = 700
  /\ startNextWave sample_env over_state <> Some over_state
  /\ status <$> startNextWave sample_env over_state = Some playing.
Proof.
  split; [reflexivity|]. split; [|split; [reflexivity|split; [|reflexivity]]].
  - intros H. apply (f_equal money) in H. vm_compute in H. discriminate H.
  - intros H. apply (f_equal (fmap status)) in H. vm_compute in H. discriminate H.
Qed.

(** C5 (as the code has it).  The frame callback returns a paused state
    unchanged whatever the elapsed time, so no sequence of frames changes
    it. *)
Theorem paused_frame_is_noop :
  (forall env state deltaTime,
      status state = paused -> App.animate env state deltaTime = Some state)
  /\ (forall state cs,
      status state = paused -> Forall isFrame cs ->
      App.run state cs = Some state).
Proof.
  split; [exact animate_paused|].
  intros state cs Hp Hcs. induction Hcs as [|c cs Hc _ IH]; [done|].
  simpl. destruct c; try done. simpl. by rewrite animate_paused.
Qed.

Lemma paused_frame_is_noop_witness :
  status paused_state = paused
  /\ App.animate sample_env paused_state 16 = Some paused_state.
Proof.
  split; [reflexivity|].
  apply (proj1 paused_frame_is_noop sample_env paused_state 16%Q). reflexivity.
Defined.

(** C5, counterexample: [updateGame] itself has no branch for [paused];
    called on a paused state it lets the spawn timer run. *)
Lemma updateGame_paused_advances :
  status paused_state = paused
  /\ updateGame sample_env paused_state 16 <> Some paused_state
  /\ spawnTimer paused_state = 0%Q
  /\ spawnTimer <$> updateGame sample_env paused_state 16 = Some 16%Q.
Proof.
  split; [reflexivity|]. split; [|split; reflexivity].
  intros H. apply (f_equal (fmap spawnTimer)) in H. vm_compute in H.
  discriminate H.
Qed.

End Ticks.

(** * Movement, impacts and rewards *)

Module Combat.

Import Engine EngineSpec Samples Ticks.

(** *** The movement pass *)

Lemma moveEnemy_spec nodes roadBlocks endNodeId preds dt lives status enemy
    e' keep lives' status' :
  moveEnemy nodes roadBlocks endNodeId preds dt lives status enemy
    = Some (e', keep, lives', status') ->
  e_reward e' = e_reward enemy
  /\ e_hp e' = e_hp enemy
  /\ (keep = true -> truthy_string (e_nextNodeId e') = true ->
      Qltb 0 (e_hp e') = true).
Proof.
  unfold moveEnemy. intros H.
  destruct (mjoin (preds !! e_currentNodeId enemy)) as [next|] eqn:Hnext.
  - destruct (truthy_string (Some next)) eqn:Htruthy.
    + repeat match type of H with
             | context [if ?x then _ else _] => destruct x eqn:?
             | context [?x ≫= _] => destruct x eqn:?; simpl in H
             end; simplify_eq; simpl; by intros.
    + destruct (String.eqb _ endNodeId); simplify_eq;
        cbn [e_reward e_hp e_nextNodeId]; split_and!; try done;
        intros; congruence.
  - destruct (String.eqb _ endNodeId); simplify_eq;
      cbn [e_reward e_hp e_nextNodeId]; split_and!; try done;
      intros; discriminate.
Qed.

Lemma moveEnemies_spec nodes roadBlocks endNodeId preds dt es :
  forall lives status es' lives' status',
  moveEnemies nodes roadBlocks endNodeId preds dt lives status es
    = Some (es', lives', status') ->
  Forall (fun e' => exists e, e ∈ es /\ e_reward e' = e_reward e) es'
  /\ Forall (fun e' => truthy_string (e_nextNodeId e') = true ->
                       Qltb 0 (e_hp e') = true) es'.
Proof.
  induction es as [|e es IH]; intros lives status es' lives' status' H; simpl in H.
  - by simplify_eq.
  - destruct (moveEnemy _ _ _ _ _ lives status e) as [[[[e1 keep] l1] s1]|] eqn:He;
      simpl in H; [|done].
    destruct (moveEnemies _ _ _ _ _ l1 s1 es) as [[[es1 l2] s2]|] eqn:Hes;
      simpl in H; [|done].
    injection H as <- <- <-.
    destruct (IH _ _ _ _ _ Hes) as [IH1 IH2].
    destruct (moveEnemy_spec _ _ _ _ _ _ _ _ _ _ _ _ He) as (Hr & Hhp & Hkeep).
    assert (IH1' : Forall (fun e' => exists e0, e0 ∈ e :: es
                                      /\ e_reward e' = e_reward e0) es1).
    { eapply Forall_impl; [exact IH1|]. intros a (b & Hb & Hab). exists b.
      split; [by right|done]. }
    destruct keep; [|done]. split; constructor; try done.
    + exists e. split; [left|done].
    + by apply Hkeep.
Qed.

(** *** Projectile impacts *)

Lemma areaDamage_spec p aoe es : forall money es' money',
  areaDamage p aoe es money = (es', money') ->
  rewards_nonneg es -> rewards_nonneg es' /\ money <= money'.
Proof.
  induction es as [|e es IH]; intros money es' money' H Hes; simpl in H.
  - simplify_eq. split; [done|lia].
  - apply Forall_cons in Hes as [He Hes].
    destruct (Qleb _ _).
    + destruct (areaDamage p aoe es _) as [rest m] eqn:Hrest.
      injection H as <- <-. destruct (IH _ _ _ Hrest Hes) as [H1 H2].
      split; [by constructor|].
      destruct (_ && _); simpl in *; lia.
    + destruct (areaDamage p aoe es money) as [rest m] eqn:Hrest.
      injection H as <- <-. destruct (IH _ _ _ Hrest Hes) as [H1 H2].
      split; [by constructor|lia].
Qed.

Lemma damageTarget_rewards targetId damage es :
  rewards_nonneg es -> rewards_nonneg (damageTarget targetId damage es).
Proof.
  induction 1 as [|e es He Hes IH]; simpl; [constructor|].
  destruct (String.eqb _ _); by constructor.
Qed.

Lemma moveProjectile_spec dt es money p kept es' money' :
  moveProjectile dt es money p = (kept, es', money') ->
  rewards_nonneg es -> rewards_nonneg es' /\ money <= money'.
Proof.
  unfold moveProjectile. intros H Hes.
  destruct (List.find _ es) as [target|] eqn:Hfind;
    [|simplify_eq; split; [done|lia]].
  apply find_some in Hfind as [Hin _]. apply list_elem_of_In in Hin.
  pose proof (proj1 (Forall_forall _ _) Hes _ Hin) as Htarget.
  destruct (Qltb _ 5); [|simplify_eq; split; [done|lia]].
  destruct (truthy_number (p_aoe p)).
  - destruct (areaDamage _ _ es money) as [es1 m1] eqn:Harea.
    injection H as _ <- <-. by eapply areaDamage_spec.
  - injection H as _ <- <-. split; [by apply damageTarget_rewards|].
    simpl in Htarget. destruct (Qleb _ 0); lia.
Qed.

Lemma moveProjectiles_spec dt ps : forall es money ps' es' money',
  moveProjectiles dt es money ps = (ps', es', money') ->
  rewards_nonneg es -> rewards_nonneg es' /\ money <= money'.
Proof.
  induction ps as [|p ps IH]; intros es money ps' es' money' H Hes; simpl in H.
  - simplify_eq. split; [done|lia].
  - destruct (moveProjectile dt es money p) as [[kept es1] m1] eqn:Hp.
    destruct (moveProjectiles dt es1 m1 ps) as [[rest es2] m2] eqn:Hps.
    injection H as _ <- <-.
    destruct (moveProjectile_spec _ _ _ _ _ _ _ Hp Hes) as [H1 H2].
    destruct (IH _ _ _ _ _ Hps H1) as [H3 H4]. split; [done|lia].
Qed.


(** *** Spawning *)

Lemma spawn_spec env state dt spawnTimer' toSpawn' es k :
  spawn env state dt = Some (spawnTimer', toSpawn', es, k) ->
  rewards_nonneg (enemies state) -> rewards_nonneg es.
Proof.
  unfold spawn. intros H Hes.
  destruct (0 <? enemiesToSpawn state); [|by simplify_eq].
  destruct (Qltb 1000 _); [|by simplify_eq].
  destruct (findNode _ _) as [startNode|]; simpl in H; [|done].
  injection H as _ _ <- _. apply Forall_app. split; [done|].
  constructor; [|constructor]. simpl.
  destruct (chooseEnemyType _ _ _); simpl; lia.
Qed.

(** *** One tick *)

(** The parts of a tick outside the countdown and [game_over] branches. *)
Lemma updateGame_playing env state dt state' :
  status state = playing \/ status state = paused ->
  updateGame env state dt = Some state' ->
  exists dynamicEdges spawnTimer' toSpawn' es0 k es1 lives' status'
         ps1 es2 money' towers' ps2 k',
    spawn env state dt = Some (spawnTimer', toSpawn', es0, k)
    /\ moveEnemies (nodes state)
         (List.filter (fun rb => date_now env 0 <? rb_expiresAt rb)
                      (roadBlocks state))
         (endNodeId state)
         (Graph.predecessors
            (Graph.bellmanFord (nodes state) (reverseEdge <$> dynamicEdges)
                               (endNodeId state)))
         dt (lives state) (status state) es0
       = Some (es1, lives', status')
    /\ moveProjectiles dt es1 (money state) (projectiles state)
       = (ps1, es2, money')
    /\ fireTowers env (date_now env 1) (nodes state) es2 (towers state) ps1 k
       = Some (towers', ps2, k')
    /\ enemies state' = es2 /\ money state' = money'
    /\ nodes state' = nodes state /\ edges state' = edges state
    /\ towers state' = towers' /\ startNodeId state' = startNodeId state.
Proof.
  intros Hst H. unfold updateGame in H.
  destruct Hst as [Hs|Hs]; rewrite Hs in H;
    (destruct (mapM _ (edges state)) as [dynamicEdges|]; simpl in H; [|done];
     destruct (spawn env state dt) as [[[[st' ts'] es0] k]|] eqn:Hspawn;
       simpl in H; [|done];
     destruct (moveEnemies _ _ _ _ dt _ _ es0) as [[[es1 l'] s']|] eqn:Hmove;
       simpl in H; [|done];
     destruct (moveProjectiles dt es1 _ _) as [[ps1 es2] m'] eqn:Hproj;
     destruct (fireTowers _ _ _ es2 _ ps1 k) as [[[t' ps2] k']|] eqn:Hfire;
       simpl in H; [|done];
     injection H as <-; simpl;
     exists dynamicEdges, st', ts', es0, k, es1, l', s', ps1, es2, m', t', ps2, k';
     rewrite Hs; split_and!; done).
Qed.

(** C7, at the failing input: six 10-damage projectiles hitting a 60-HP
    enemy of reward 8 in one tick credit 8; a seventh projectile hitting in
    the same tick credits the reward a second time. *)
Theorem reward_credited_twice :
  money six_hits_state = 800 /\ money seven_hits_state = 800
  /\ money <$> updateGame sample_env six_hits_state 16 = Some (800 + 8)
  /\ money <$> updateGame sample_env seven_hits_state 16 = Some (800 + 8 + 8)
  /\ (fun s => e_hp <$> enemies s) <$> updateGame sample_env seven_hits_state 16
     = Some [(-10)%Q].
Proof. split_and!; vm_compute; reflexivity. Qed.

End Combat.

(** * Money along a session *)

Module Economy.

Import Engine EngineSpec Samples Ticks Combat Generated.

Lemma solvent_intro state :
  0 <= money state -> rewards_nonneg (enemies state) -> solvent state.
Proof.
  intros Hm Hr. split; [done|]. intros e He.
  by apply (proj1 (Forall_forall _ _) Hr e He).
Qed.

Lemma solvent_rewards state : solvent state -> rewards_nonneg (enemies state).
Proof. intros [_ H]. by apply Forall_forall. Qed.

Lemma generateGraph_total env stage : is_Some (Graph.generateGraph env stage).
Proof.
  destruct (generateGraph_spec env stage) as (ids & k & warp & Hg & _). eauto.
Qed.

Lemma startNextWave_solvent env state :
  solvent state ->
  exists state', startNextWave env state = Some state' /\ solvent state'.
Proof.
  intros [Hm Hr]. unfold startNextWave.
  destruct (maxWavesPerStage state <=? wave state).
  - destruct (generateGraph_total env (stage state + 1)) as [g ->]. simpl.
    eexists. split; [done|]. split; simpl; [lia|].
    intros e He. by apply elem_of_nil in He.
  - eexists. split; [done|]. by split.
Qed.

Lemma updateGame_solvent env state dt state' :
  solvent state -> updateGame env state dt = Some state' -> solvent state'.
Proof.
  intros Hs Hupd.
  destruct (status state) eqn:Hst.
  1,2,4: (unfold updateGame in Hupd; rewrite Hst in Hupd;
          match type of Hupd with
          | (if ?b then _ else _) = _ => destruct b
          end;
          [|by injection Hupd as <-];
          match type of Hupd with
          | startNextWave _ ?s = _ =>
              destruct (startNextWave_solvent env s Hs) as (s' & Hs' & Hsol)
          end;
          rewrite Hs' in Hupd; by injection Hupd as <-).
  - destruct (updateGame_playing _ _ _ _ (or_introl Hst) Hupd)
      as (dyn & st' & ts' & es0 & k & es1 & l' & s' & ps1 & es2 & m' & t' & ps2 & k'
          & Hspawn & Hmove & Hproj & _ & Hes & Hmoney & _).
    apply solvent_rewards in Hs as Hr. destruct Hs as [Hm _].
    apply spawn_spec in Hspawn; [|done].
    apply moveEnemies_spec in Hmove as [Hmove _].
    assert (Hr1 : rewards_nonneg es1).
    { eapply Forall_impl; [exact Hmove|]. intros a (b & Hb & ->).
      by apply (proj1 (Forall_forall _ _) Hspawn b). }
    destruct (moveProjectiles_spec _ _ _ _ _ _ _ Hproj Hr1) as [Hr2 Hle].
    apply solvent_intro; [lia|by rewrite Hes].
  - rewrite updateGame_game_over in Hupd by done. by injection Hupd as <-.
  - destruct (updateGame_playing _ _ _ _ (or_intror Hst) Hupd)
      as (dyn & st' & ts' & es0 & k & es1 & l' & s' & ps1 & es2 & m' & t' & ps2 & k'
          & Hspawn & Hmove & Hproj & _ & Hes & Hmoney & _).
    apply solvent_rewards in Hs as Hr. destruct Hs as [Hm _].
    apply spawn_spec in Hspawn; [|done].
    apply moveEnemies_spec in Hmove as [Hmove _].
    assert (Hr1 : rewards_nonneg es1).
    { eapply Forall_impl; [exact Hmove|]. intros a (b & Hb & ->).
      by apply (proj1 (Forall_forall _ _) Hspawn b). }
    destruct (moveProjectiles_spec _ _ _ _ _ _ _ Hproj Hr1) as [Hr2 Hle].
    apply solvent_intro; [lia|by rewrite Hes].
Qed.

Lemma placeTower_solvent env state nodeId :
  solvent state -> solvent (placeTower env state nodeId).
Proof.
  intros [Hm Hr]. unfold placeTower.
  destruct (findNode _ _) as [node|]; [|done].
  destruct (Graph.isPath node); [done|].
  destruct (money state <? 100) eqn:Hlt; [done|]. simpl.
  destruct (List.find _ _); [done|]. split; simpl; [lia|done].
Qed.

Lemma placeRoadBlock_solvent env state nodeId :
  solvent state -> solvent (placeRoadBlock env state nodeId).
Proof.
  intros [Hm Hr]. unfold placeRoadBlock.
  destruct (findNode _ _) as [node|]; [|done].
  destruct (Graph.isPath node); [|done].
  destruct (money state <? 50) eqn:Hlt; [done|]. simpl.
  destruct (List.find _ _); [done|]. split; simpl; [lia|done].
Qed.

Lemma upgradeTower_solvent state towerId upgradeType :
  solvent state -> solvent (upgradeTower state towerId upgradeType).
Proof.
  intros [Hm Hr]. unfold upgradeTower.
  destruct (findIndex _ _) as [i|]; [|done].
  destruct (money state <? 200) eqn:H200; [done|].
  destruct (towers state !! i) as [tower|]; [|done].
  destruct (t_tier tower =? 1) eqn:H1.
  - rewrite H200. split; simpl; [lia|done].
  - destruct (t_tier tower =? 2); [|done].
    destruct (money state <? 400) eqn:H400; [done|].
    split; simpl; [lia|done].
Qed.

Lemma step_solvent state c state' :
  solvent state -> App.step state c = Some state' -> solvent state'.
Proof.
  intros Hs Hstep. destruct c; simpl in Hstep.
  - by eapply updateGame_solvent.
  - unfold App.animate in Hstep.
    destruct (status state); try (by eapply updateGame_solvent).
    by injection Hstep as <-.
  - injection Hstep as <-. by apply placeTower_solvent.
  - injection Hstep as <-. by apply placeRoadBlock_solvent.
  - injection Hstep as <-. by apply upgradeTower_solvent.
  - destruct (startNextWave_solvent env state Hs) as (s' & Hs' & Hsol). congruence.
  - injection Hstep as <-. done.
Qed.

Lemma initGameState_spec env :
  exists state,
    initGameState env = Some state /\ money state = 800 /\ enemies state = [].
Proof.
  unfold initGameState. destruct (generateGraph_total env 1) as [g ->]. simpl.
  eexists. by split.
Qed.

End Economy.

(** * Sessions on a well-formed state never throw *)

Module Totality.

Import Engine EngineSpec Samples Ticks Combat Generated Economy.

Lemma findNode_is_Some nodes nodeId :
  is_Some (findNode nodes nodeId) <-> nodeId ∈ Graph.id <$> nodes.
Proof.
  unfold findNode. split.
  - intros [n Hn]. apply find_some in Hn as [Hin Heq].
    apply String.eqb_eq in Heq as <-. apply list_elem_of_fmap_2.
    by apply list_elem_of_In.
  - intros (n & -> & Hin)%list_elem_of_fmap.
    eapply Commands.find_some_elem; [exact Hin|]. by apply String.eqb_eq.
Qed.

(** Predecessors are origins of edges. *)

Lemma relax_preds_from es d p c e d' p' c' :
  e ∈ es -> Spec.preds_from es p -> Graph.relax (d, p, c) e = (d', p', c') ->
  Spec.preds_from es p'.
Proof.
  intros He Hp Hr.
  destruct (BellmanFord.relax_cases d p c e)
    as [[_ Heq]|(zu & dv & _ & _ & _ & _ & Heq)];
    rewrite Heq in Hr; injection Hr as _ <- _; [done|].
  intros v u Hvu. destruct (decide (v = Graph.to e)) as [->|Hne].
  - rewrite lookup_insert_eq in Hvu. injection Hvu as <-. eauto.
  - rewrite lookup_insert_ne in Hvu by done. eauto.
Qed.

Lemma pass_preds_from es l : forall d p c d' p' c',
  (forall e, e ∈ l -> e ∈ es) -> Spec.preds_from es p ->
  foldl Graph.relax (d, p, c) l = (d', p', c') -> Spec.preds_from es p'.
Proof.
  induction l as [|e l IH]; intros d p c d' p' c' Hl Hp Hf.
  - simpl in Hf. by injection Hf as _ <- _.
  - change (foldl Graph.relax (Graph.relax (d, p, c) e) l = (d', p', c')) in Hf.
    destruct (Graph.relax (d, p, c) e) as [[d1 p1] c1] eqn:Hr.
    eapply IH; [|eapply relax_preds_from; [|exact Hp|exact Hr]|exact Hf].
    + intros e' H. apply Hl. by right.
    + apply Hl. left.
Qed.

Lemma passes_preds_from es n : forall d p d' p',
  Spec.preds_from es p -> Graph.relaxPasses n es d p = (d', p') ->
  Spec.preds_from es p'.
Proof.
  induction n as [|n IH]; intros d p d' p' Hp Hr; simpl in Hr.
  - by injection Hr as _ <-.
  - destruct (foldl Graph.relax (d, p, false) es) as [[d1 p1] c1] eqn:Hf.
    pose proof (pass_preds_from es es _ _ _ _ _ _ (fun e H => H) Hp Hf) as Hp1.
    destruct c1; [by eapply IH|by injection Hr as _ <-].
Qed.

Lemma bellmanFord_preds_from nodes es s :
  Spec.preds_from es (Graph.predecessors (Graph.bellmanFord nodes es s)).
Proof.
  unfold Graph.bellmanFord.
  destruct (Graph.initTables nodes s) as [d0 p0] eqn:Hinit.
  destruct (BellmanFord.initTables_spec _ _ _ _ Hinit) as (_ & _ & Hp0 & _).
  destruct (Graph.relaxPasses _ es d0 p0) as [d p] eqn:Hpass. simpl.
  eapply passes_preds_from; [|exact Hpass].
  intros v u Hvu. rewrite Hp0 in Hvu. by case_decide.
Qed.

(** Dynamic weights. *)

Lemma towerPenalty_total nodes toNode towers : forall weight,
  is_Some toNode ->
  Forall (fun t => is_Some (findNode nodes (t_nodeId t))) towers ->
  is_Some (towerPenalty nodes toNode towers weight).
Proof.
  intros weight [toN ->] Hts. revert weight.
  induction Hts as [|t ts [tNode Ht] _ IH]; intros weight; simpl; [done|].
  rewrite Ht. simpl. apply IH.
Qed.

Lemma dynamicEdge_total nodes roadBlocks towers e :
  is_Some (findNode nodes (Graph.to e)) ->
  Forall (fun t => is_Some (findNode nodes (t_nodeId t))) towers ->
  exists d, dynamicEdge nodes roadBlocks towers e = Some d
            /\ Graph.from d = Graph.from e /\ Graph.to d = Graph.to e.
Proof.
  intros Hto Hts. unfold dynamicEdge.
  destruct (existsb _ roadBlocks); simpl; [eauto|].
  destruct (towerPenalty_total nodes _ towers (Graph.weight e) Hto Hts) as [w ->].
  simpl. eauto.
Qed.

Lemma dynamicEdges_total nodes roadBlocks towers es :
  Forall (fun e => is_Some (findNode nodes (Graph.to e))) es ->
  Forall (fun t => is_Some (findNode nodes (t_nodeId t))) towers ->
  exists ds, mapM (dynamicEdge nodes roadBlocks towers) es = Some ds
             /\ Forall (fun d => is_Some (findNode nodes (Graph.to d))) ds.
Proof.
  intros Hes Hts. induction Hes as [|e es He _ IH].
  - exists []. by split.
  - destruct IH as (ds & Hds & Hfor).
    destruct (dynamicEdge_total nodes roadBlocks towers e He Hts)
      as (d & Hd & _ & Hto).
    exists (d :: ds). split.
    + apply mapM_Some. constructor; [done|]. by apply mapM_Some.
    + constructor; [by rewrite Hto|done].
Qed.

(** The movement pass. *)

Lemma moveEnemy_total nodes roadBlocks endNodeId preds dt lives status enemy :
  on_map nodes enemy ->
  (forall v u, preds !! v = Some (Some u) -> is_Some (findNode nodes u)) ->
  exists e' keep lives' status',
    moveEnemy nodes roadBlocks endNodeId preds dt lives status enemy
      = Some (e', keep, lives', status')
    /\ on_map nodes e'.
Proof.
  intros [startN Hstart] Hpred. unfold moveEnemy, on_map.
  destruct (preds !! e_currentNodeId enemy) as [[next|]|] eqn:Hp; simpl.
  - destruct (Hpred _ _ Hp) as [endN Hend]. rewrite Hstart, Hend. simpl.
    repeat match goal with
           | |- context [if ?b then _ else _] => destruct b
           end; do 4 eexists; (split; [reflexivity|]); simpl; eauto.
  - destruct (String.eqb _ endNodeId); do 4 eexists;
      (split; [reflexivity|]); simpl; eauto.
  - destruct (String.eqb _ endNodeId); do 4 eexists;
      (split; [reflexivity|]); simpl; eauto.
Qed.

Lemma moveEnemies_total nodes roadBlocks endNodeId preds dt es :
  Forall (on_map nodes) es ->
  (forall v u, preds !! v = Some (Some u) -> is_Some (findNode nodes u)) ->
  forall lives status,
  exists es' lives' status',
    moveEnemies nodes roadBlocks endNodeId preds dt lives status es
      = Some (es', lives', status')
    /\ Forall (on_map nodes) es'.
Proof.
  intros Hes Hpred. induction Hes as [|e es He _ IH]; intros lives status; simpl.
  - exists [], lives, status. by split.
  - destruct (moveEnemy_total nodes roadBlocks endNodeId preds dt lives status e
                He Hpred) as (e' & keep & l1 & s1 & -> & He').
    simpl. destruct (IH l1 s1) as (es' & l2 & s2 & -> & Hes'). simpl.
    do 3 eexists. split; [reflexivity|]. destruct keep; [by constructor|done].
Qed.

(** Projectile impacts keep every enemy where it is. *)

Lemma areaDamage_on_map nodes p aoe es : forall money,
  Forall (on_map nodes) es ->
  Forall (on_map nodes) (areaDamage p aoe es money).1.
Proof.
  induction es as [|e es IH]; intros money Hes; simpl; [done|].
  apply Forall_cons in Hes as [He Hes].
  destruct (Qleb _ _);
    match goal with
    | |- context [areaDamage p aoe es ?m] =>
        specialize (IH m Hes); destruct (areaDamage p aoe es m) as [rest m']
    end; simpl in *; by constructor.
Qed.

Lemma damageTarget_on_map nodes targetId damage es :
  Forall (on_map nodes) es ->
  Forall (on_map nodes) (damageTarget targetId damage es).
Proof.
  induction 1 as [|e es He Hes IH]; simpl; [constructor|].
  destruct (String.eqb _ _); by constructor.
Qed.

Lemma moveProjectile_on_map nodes dt es money p :
  Forall (on_map nodes) es ->
  Forall (on_map nodes) (moveProjectile dt es money p).1.2.
Proof.
  intros Hes. unfold moveProjectile.
  destruct (List.find _ es) as [target|]; [|done].
  destruct (Qltb _ 5); [|done].
  destruct (truthy_number (p_aoe p)).
  - pose proof (areaDamage_on_map nodes p (default 0 (p_aoe p)) es money Hes) as H.
    by destruct (areaDamage _ _ es money).
  - simpl. by apply damageTarget_on_map.
Qed.

Lemma moveProjectiles_on_map nodes dt ps : forall es money,
  Forall (on_map nodes) es ->
  Forall (on_map nodes) (moveProjectiles dt es money ps).1.2.
Proof.
  induction ps as [|p ps IH]; intros es money Hes; simpl; [done|].
  pose proof (moveProjectile_on_map nodes dt es money p Hes) as H1.
  destruct (moveProjectile dt es money p) as [[kept es1] m1]. simpl in H1.
  specialize (IH es1 m1 H1).
  by destruct (moveProjectiles dt es1 m1 ps) as [[rest es2] m2].
Qed.

(** Towers. *)

Lemma fireTowers_total env now nodes es ts :
  Forall (fun t => is_Some (findNode nodes (t_nodeId t))) ts ->
  forall ps k,
  exists ts' ps' k',
    fireTowers env now nodes es ts ps k = Some (ts', ps', k')
    /\ Forall (fun t => is_Some (findNode nodes (t_nodeId t))) ts'.
Proof.
  induction 1 as [|t ts [tn Ht] Hts IH]; intros ps k; simpl.
  - do 3 eexists. by split.
  - destruct (t_fireRate t <? now - t_lastFired t).
    + rewrite Ht. unfold findTarget.
      assert (Hfind : exists target,
                (match es with
                 | [] => Some None
                 | _ :: _ =>
                     tn0 ← Some tn;
                     Some (List.find
                             (fun e => Qleb (distance (e_x e) (e_y e)
                                               (inject_Z (Graph.x tn0))
                                               (inject_Z (Graph.y tn0)))
                                            (inject_Z (t_range t))) es)
                 end) = Some target).
      { destruct es; simpl; eauto. }
      destruct Hfind as [target ->]. simpl.
      destruct target as [target|].
      * destruct (IH (ps ++ [mkProjectile (random_id (random env k))
                               (inject_Z (Graph.x tn)) (inject_Z (Graph.y tn))
                               (e_id target) 300 (t_damage t) (t_aoe t)])%list (S k))
          as (ts' & ps' & k' & -> & Hts').
        simpl. do 3 eexists. split; [reflexivity|]. constructor; [|done].
        simpl. eauto.
      * destruct (IH ps k) as (ts' & ps' & k' & -> & Hts').
        simpl. do 3 eexists. split; [reflexivity|]. constructor; [eauto|done].
    + destruct (IH ps k) as (ts' & ps' & k' & -> & Hts').
      simpl. do 3 eexists. split; [reflexivity|]. constructor; [eauto|done].
Qed.

(** Spawning. *)

Lemma spawn_total env state dt :
  is_Some (findNode (nodes state) (startNodeId state)) ->
  Forall (on_map (nodes state)) (enemies state) ->
  exists spawnTimer' toSpawn' es k,
    spawn env state dt = Some (spawnTimer', toSpawn', es, k)
    /\ Forall (on_map (nodes state)) es.
Proof.
  intros [startNode Hstart] Hes. unfold spawn.
  destruct (0 <? enemiesToSpawn state); [|by do 4 eexists].
  destruct (Qltb 1000 _); [|by do 4 eexists].
  rewrite Hstart. simpl. do 4 eexists. split; [reflexivity|].
  apply Forall_app. split; [done|]. constructor; [|done].
  unfold on_map. simpl. eauto.
Qed.

(** Well-formed states. *)

Lemma wellFormed_intro state :
  Forall (fun e => is_Some (findNode (nodes state) (Graph.to e))) (edges state) ->
  Forall (fun t => is_Some (findNode (nodes state) (t_nodeId t))) (towers state) ->
  is_Some (findNode (nodes state) (startNodeId state)) ->
  Forall (on_map (nodes state)) (enemies state) ->
  wellFormed state.
Proof.
  intros H1 H2 H3 H4. split_and!; [| |done|]; intros a Ha.
  - by apply (proj1 (Forall_forall _ _) H1).
  - by apply (proj1 (Forall_forall _ _) H2).
  - by apply (proj1 (Forall_forall _ _) H4).
Qed.

Lemma wellFormed_elim state :
  wellFormed state ->
  Forall (fun e => is_Some (findNode (nodes state) (Graph.to e))) (edges state)
  /\ Forall (fun t => is_Some (findNode (nodes state) (t_nodeId t))) (towers state)
  /\ is_Some (findNode (nodes state) (startNodeId state))
  /\ Forall (on_map (nodes state)) (enemies state).
Proof.
  intros (H1 & H2 & H3 & H4). split_and!; [| |done|]; by apply Forall_forall.
Qed.

Lemma generated_wellFormed env stg g state :
  Graph.generateGraph env stg = Some g ->
  nodes state = Graph.nodes g -> edges state = Graph.edges g ->
  startNodeId state = Graph.startNodeId g ->
  towers state = [] -> enemies state = [] ->
  wellFormed state.
Proof.
  intros Hg Hn He Hs Ht Hen. destruct (generated_endpoints _ _ _ Hg) as [Hends Hstart].
  assert (Hfind : forall i, i ∈ Spec.node_ids (Graph.nodes g) ->
                    is_Some (findNode (nodes state) i)).
  { intros i Hi. apply findNode_is_Some. rewrite Hn.
    by apply elem_of_list_to_set in Hi. }
  apply wellFormed_intro.
  - rewrite He. apply Forall_forall. intros e Hin. apply Hfind.
    by destruct (Hends e Hin).
  - rewrite Ht. constructor.
  - rewrite Hs. by apply Hfind.
  - rewrite Hen. constructor.
Qed.

Lemma startNextWave_total env state :
  wellFormed state ->
  exists state', startNextWave env state = Some state' /\ wellFormed state'.
Proof.
  intros Hwf. unfold startNextWave.
  destruct (maxWavesPerStage state <=? wave state).
  - destruct (generateGraph_total env (stage state + 1)) as [g Hg]. rewrite Hg.
    simpl. eexists. split; [reflexivity|].
    by eapply generated_wellFormed.
  - eexists. split; [reflexivity|]. exact Hwf.
Qed.

Lemma initGameState_wellFormed env :
  exists state, initGameState env = Some state /\ wellFormed state
                /\ solvent state.
Proof.
  unfold initGameState. destruct (generateGraph_total env 1) as [g Hg].
  rewrite Hg. simpl. eexists. split; [reflexivity|]. split.
  - by eapply generated_wellFormed.
  - split; simpl; [lia|]. intros e He. by apply elem_of_nil in He.
Qed.

Lemma playing_total env state dt :
  status state = playing \/ status state = paused ->
  wellFormed state ->
  exists state', updateGame env state dt = Some state' /\ wellFormed state'.
Proof.
  intros Hst Hwf. apply wellFormed_elim in Hwf as (Hedges & Htowers & Hstart & Henemies).
  set (rbs := List.filter (fun rb => date_now env 0 <? rb_expiresAt rb)
                          (roadBlocks state)).
  destruct (dynamicEdges_total (nodes state) rbs (towers state) (edges state)
              Hedges Htowers) as (ds & Hds & Hdsto).
  destruct (spawn_total env state dt Hstart Henemies)
    as (st' & ts' & es0 & k & Hspawn & Hes0).
  set (preds := Graph.predecessors
                  (Graph.bellmanFord (nodes state) (reverseEdge <$> ds)
                                     (endNodeId state))).
  assert (Hpred : forall v u, preds !! v = Some (Some u) ->
                    is_Some (findNode (nodes state) u)).
  { intros v u Hvu.
    destruct (bellmanFord_preds_from _ _ _ _ _ Hvu) as (e & He & <-).
    apply list_elem_of_fmap in He as (d & -> & Hd). simpl.
    by apply (proj1 (Forall_forall _ _) Hdsto). }
  destruct (moveEnemies_total (nodes state) rbs (endNodeId state) preds dt es0
              Hes0 Hpred (lives state) (status state))
    as (es1 & l' & s' & Hmove & Hes1).
  pose proof (moveProjectiles_on_map (nodes state) dt (projectiles state)
                es1 (money state) Hes1) as Hes2.
  destruct (moveProjectiles dt es1 (money state) (projectiles state))
    as [[ps1 es2] m'] eqn:Hproj. simpl in Hes2.
  destruct (fireTowers_total env (date_now env 1) (nodes state) es2
              (towers state) Htowers ps1 k) as (t' & ps2 & k' & Hfire & Ht').
  eexists. split.
  - unfold updateGame. fold rbs.
    destruct Hst as [Hst|Hst]; rewrite Hst in *; rewrite Hds; simpl;
      rewrite Hspawn; simpl; fold preds; rewrite Hmove; simpl;
      rewrite Hproj, Hfire; simpl; reflexivity.
  - by apply wellFormed_intro.
Qed.

Lemma updateGame_total env state dt :
  wellFormed state ->
  exists state', updateGame env state dt = Some state' /\ wellFormed state'.
Proof.
  intros Hwf. destruct (status state) eqn:Hst.
  1,2,4: (unfold updateGame; rewrite Hst;
          match goal with
          | |- context [if ?b then _ else _] => destruct b
          end;
          [apply startNextWave_total; exact Hwf
          |eexists; split; [reflexivity|exact Hwf]]).
  - apply playing_total; auto.
  - exists state. split; [by apply updateGame_game_over|done].
  - apply playing_total; auto.
Qed.

Lemma placeTower_wellFormed env state nodeId :
  wellFormed state -> wellFormed (placeTower env state nodeId).
Proof.
  intros Hwf. unfold placeTower.
  destruct (findNode _ _) as [node|] eqn:Hnode; [|done].
  destruct (_ || _); [done|]. destruct (List.find _ _); [done|].
  apply wellFormed_elim in Hwf as (H1 & H2 & H3 & H4).
  apply wellFormed_intro; simpl; try done.
  apply Forall_app. split; [done|]. constructor; [|done]. simpl. eauto.
Qed.

Lemma placeRoadBlock_wellFormed env state nodeId :
  wellFormed state -> wellFormed (placeRoadBlock env state nodeId).
Proof.
  intros Hwf. unfold placeRoadBlock.
  destruct (findNode _ _) as [node|]; [|done].
  destruct (_ || _); [done|]. by destruct (List.find _ _).
Qed.

Lemma upgradeTower_wellFormed state towerId upgradeType :
  wellFormed state -> wellFormed (upgradeTower state towerId upgradeType).
Proof.
  intros Hwf. unfold upgradeTower.
  destruct (findIndex _ _) as [i|]; [|done].
  destruct (money state <? 200); [done|].
  destruct (towers state !! i) as [tower|] eqn:Hi; [|done].
  apply wellFormed_elim in Hwf as Hwf'. destruct Hwf' as (H1 & H2 & H3 & H4).
  pose proof (proj1 (Forall_lookup _ _) H2 i tower Hi) as Htower.
  match goal with
  | |- wellFormed (match ?u with _ => _ end) => destruct u as [up|] eqn:Hup
  end; [|done].
  match goal with
  | |- wellFormed (if ?b then _ else _) => destruct b
  end; [done|].
  assert (Hnode : t_nodeId up = t_nodeId tower).
  { repeat match type of Hup with
           | context [if ?b then _ else _] => destruct b
           end; try discriminate; injection Hup as <-;
      try (by destruct upgradeType); by destruct (t_type tower). }
  apply wellFormed_intro; simpl; try done.
  apply Forall_insert; [done|]. by rewrite Hnode.
Qed.

Lemma step_total state c :
  wellFormed state ->
  exists state', App.step state c = Some state' /\ wellFormed state'.
Proof.
  intros Hwf. destruct c; simpl.
  - by apply updateGame_total.
  - unfold App.animate. destruct (status state); try (by apply updateGame_total).
    by exists state.
  - eexists. split; [reflexivity|]. by apply placeTower_wellFormed.
  - eexists. split; [reflexivity|]. by apply placeRoadBlock_wellFormed.
  - eexists. split; [reflexivity|]. by apply upgradeTower_wellFormed.
  - by apply startNextWave_total.
  - eexists. split; [reflexivity|]. exact Hwf.
Qed.

Lemma run_total cs : forall state,
  wellFormed state -> solvent state ->
  exists state', App.run state cs = Some state' /\ solvent state'.
Proof.
  induction cs as [|c cs IH]; intros state Hwf Hs; simpl.
  - by exists state.
  - destruct (step_total state c Hwf) as (s1 & Hstep & Hwf1). rewrite Hstep.
    apply IH; [done|]. by eapply step_solvent.
Qed.

End Totality.

(** * The money invariant *)

Module Money.

Import Engine EngineSpec Samples Ticks Combat Generated Economy Totality.

Lemma placeTower_spends env state nodeId :
  placeTower env state nodeId = state
  \/ (100 <= money state
      /\ money (placeTower env state nodeId) = money state - 100).
Proof.
  unfold placeTower. destruct (findNode _ _) as [node|]; [|by left].
  destruct (Graph.isPath node); [by left|].
  destruct (money state <? 100) eqn:Hlt; [by left|]. simpl.
  destruct (List.find _ _); [by left|]. right. simpl. lia.
Qed.

Lemma placeRoadBlock_spends env state nodeId :
  placeRoadBlock env state nodeId = state
  \/ (50 <= money state
      /\ money (placeRoadBlock env state nodeId) = money state - 50).
Proof.
  unfold placeRoadBlock. destruct (findNode _ _) as [node|]; [|by left].
  destruct (Graph.isPath node); [|by left].
  destruct (money state <? 50) eqn:Hlt; [by left|]. simpl.
  destruct (List.find _ _); [by left|]. right. simpl. lia.
Qed.

Lemma upgradeTower_spends state towerId upgradeType :
  upgradeTower state towerId upgradeType = state
  \/ (exists cost, (cost = 200 \/ cost = 400) /\ cost <= money state
        /\ money (upgradeTower state towerId upgradeType) = money state - cost).
Proof.
  unfold upgradeTower. destruct (findIndex _ _) as [i|]; [|by left].
  destruct (money state <? 200) eqn:H200; [by left|].
  destruct (towers state !! i) as [tower|]; [|by left].
  destruct (t_tier tower =? 1) eqn:H1.
  - rewrite H200. right. exists 200. simpl. split; [by left|lia].
  - destruct (t_tier tower =? 2); [|by left].
    destruct (money state <? 400) eqn:H400; [by left|].
    right. exists 400. simpl. split; [by right|lia].
Qed.

(** C4.  Money is never negative.  [initGameState] starts with 800.  Every
    state a session reaches has money that is not negative and enemies
    that carry no negative reward (the rewards are those of [ENEMY_TYPES]);
    on such a state every operation returns such a state again; a command
    either returns the state unchanged or deducts its exact cost, which the
    money covers, never clamping; so every session runs to a state whose
    money is not negative. *)
Theorem money_never_negative :
  (forall env, exists state,
      initGameState env = Some state /\ money state = 800)
  /\ (forall state, solvent state ->
      (forall env deltaTime state',
          updateGame env state deltaTime = Some state' -> solvent state')
      /\ (forall env nodeId, solvent (placeTower env state nodeId))
      /\ (forall env nodeId, solvent (placeRoadBlock env state nodeId))
      /\ (forall towerId upgradeType,
            solvent (upgradeTower state towerId upgradeType))
      /\ (forall env, exists state',
            startNextWave env state = Some state' /\ solvent state'))
  /\ (forall env state nodeId towerId upgradeType,
      (placeTower env state nodeId = state
       \/ (100 <= money state
           /\ money (placeTower env state nodeId) = money state - 100))
      /\ (placeRoadBlock env state nodeId = state
          \/ (50 <= money state
              /\ money (placeRoadBlock env state nodeId) = money state - 50))
      /\ (upgradeTower state towerId upgradeType = state
          \/ (exists cost, (cost = 200 \/ cost = 400) /\ cost <= money state
                /\ money (upgradeTower state towerId upgradeType)
                   = money state - cost)))
  /\ (forall env cs, exists state,
      App.session env cs = Some state /\ 0 <= money state)
  /\ (forall env cs state,
      App.session env cs = Some state ->
      solvent state
      /\ (forall env' deltaTime state',
            updateGame env' state deltaTime = Some state' -> 0 <= money state')
      /\ (forall env' nodeId, 0 <= money (placeTower env' state nodeId))
      /\ (forall env' nodeId, 0 <= money (placeRoadBlock env' state nodeId))
      /\ (forall towerId upgradeType,
            0 <= money (upgradeTower state towerId upgradeType))
      /\ (forall env', exists state',
            startNextWave env' state = Some state' /\ 0 <= money state')).
Proof.
  assert (Hsession : forall env cs, exists state,
            App.session env cs = Some state /\ solvent state).
  { intros env cs. unfold App.session.
    destruct (initGameState_wellFormed env) as (s0 & -> & Hwf & Hs).
    by apply run_total. }
  split_and!.
  - intros env. destruct (initGameState_spec env) as (s & Hs & Hm & _). eauto.
  - intros state Hs. split_and!.
    + intros env dt state'. by apply updateGame_solvent.
    + intros env nodeId. by apply placeTower_solvent.
    + intros env nodeId. by apply placeRoadBlock_solvent.
    + intros towerId upgradeType. by apply upgradeTower_solvent.
    + intros env. by apply startNextWave_solvent.
  - intros env state nodeId towerId upgradeType. split_and!.
    + apply placeTower_spends.
    + apply placeRoadBlock_spends.
    + apply upgradeTower_spends.
  - intros env cs. destruct (Hsession env cs) as (s & Hrun & [Hm _]). eauto.
  - intros env cs state Hrun.
    destruct (Hsession env cs) as (s & Hrun' & Hs).
    rewrite Hrun in Hrun'. injection Hrun' as <-.
    split_and!; [done|..].
    + intros env' dt state' Hup.
      by destruct (updateGame_solvent _ _ _ _ Hs Hup).
    + intros env' nodeId. by destruct (placeTower_solvent env' _ nodeId Hs).
    + intros env' nodeId. by destruct (placeRoadBlock_solvent env' _ nodeId Hs).
    + intros towerId upgradeType.
      by destruct (upgradeTower_solvent _ towerId upgradeType Hs).
    + intros env'.
      destruct (startNextWave_solvent env' _ Hs) as (s' & Hs' & [Hm _]). eauto.
Qed.

Lemma road_state_solvent : solvent road_state.
Proof.
  split; [vm_compute; discriminate|]. intros e He. by apply elem_of_nil in He.
Defined.

Lemma money_never_negative_witness :
  solvent road_state /\ solvent (placeTower sample_env road_state "c").
Proof.
  split; [exact road_state_solvent|].
  apply (proj1 (proj2 (proj1 (proj2 money_never_negative) road_state
                         road_state_solvent))).
Defined.

End Money.

(** * More of the engine *)

(** * More on the shortest-path engine *)

Module PathEngine.

Import Graph Spec PathSpec BellmanFord Generated Samples MoreSamples.

Lemma walk_app es s vs1 w1 v vs2 w2 u :
  walk es s vs1 w1 v -> walk es v vs2 w2 u ->
  exists vs, walk es s vs (w1 + w2) u.
Proof.
  intros H1 H2. induction H2 as [|vs2 w2 x e H2 IH He Hfrom].
  - exists vs1. by rewrite Z.add_0_r.
  - destruct IH as [vs IH]. exists (to e :: vs).
    rewrite Z.add_assoc. by econstructor.
Qed.

(** The tables [bellmanFord] returns, before any assumption on the
    weights: every finite entry is the weight of a walk. *)
Lemma bellmanFord_sound nodes es s :
  sound es s (node_ids nodes ∪ {[s]}) (distances (bellmanFord nodes es s)).
Proof.
  unfold bellmanFord.
  destruct (initTables nodes s) as [d0 p0] eqn:Hinit.
  destruct (initTables_spec _ _ _ _ Hinit) as (Hs0 & Hd0 & Hp0 & Hdom0 & Hpdom0).
  destruct (relaxPasses (length nodes - 1) es d0 p0) as [d p] eqn:Hpass.
  simpl.
  assert (Hsound0 : sound es s (node_ids nodes ∪ {[s]}) d0).
  { split; [done|]. split; [|by exists 0].
    intros v z Hv. destruct (decide (v = s)) as [->|Hne].
    - rewrite Hs0 in Hv. injection Hv as <-. exists [s]. constructor.
    - rewrite Hd0 in Hv by done. by case_decide. }
  assert (Hbound0 : bound es s (node_ids nodes ∪ {[s]}) 0 d0).
  { intros vs w v Hw Hlen. inversion Hw; subst.
    - by exists 0.
    - match goal with H : walk _ _ _ _ _ |- _ => apply walk_nonempty in H end.
      simpl in Hlen. lia. }
  by destruct (passes_sound es s _ _ _ _ _ _ _ Hsound0 Hbound0 Hpass).
Qed.

Lemma flag_false_settled nodes es s :
  hasNegativeCycle (bellmanFord nodes es s) = false ->
  settled es (distances (bellmanFord nodes es s)).
Proof.
  unfold bellmanFord.
  destruct (initTables nodes s) as [d0 p0].
  destruct (relaxPasses (length nodes - 1) es d0 p0) as [d p]. simpl.
  intros Hflag e He. destruct (relaxable d e) eqn:Hr; [|done].
  assert (existsb (relaxable d) es = true); [|congruence].
  apply existsb_exists. exists e. split; [by apply list_elem_of_In|done].
Qed.

Lemma shortcut_no_negative_cycle :
  no_negative_cycle (graph_edges shortcut_nodes shortcut_edges).
Proof.
  intros v vs c Hw.
  assert (Hpot : forall e, e ∈ graph_edges shortcut_nodes shortcut_edges ->
            0 <= weight e + 5 * (shortcut_potential (to e)
                                 - shortcut_potential (from e))).
  { intros e He. vm_compute in He.
    repeat (apply elem_of_cons in He as [->|He]; [vm_compute; discriminate|]).
    by apply elem_of_nil in He. }
  pose proof (walk_potential shortcut_potential _ _ _ _ _ Hpot Hw). lia.
Defined.

Lemma shortcut_source : "a" ∈ node_ids shortcut_nodes.
Proof. apply elem_of_list_to_set. simpl. left. Defined.

(** X2.  The flag is a complete detector: when [bellmanFord] reports no
    negative cycle for a source among the nodes, the distances are the true
    ones and no cycle through a node reachable from the source is negative;
    so a negative cycle reachable from the source always sets the flag. *)
Theorem bellmanFord_flag_complete nodes edges sourceId :
  sourceId ∈ node_ids nodes ->
  let r := bellmanFord nodes edges sourceId in
  let G := graph_edges nodes edges in
  (hasNegativeCycle r = false ->
     (forall v d, distances r !! v = Some d -> true_distance G sourceId v d)
     /\ (forall v vs c, reachable G sourceId v -> walk G v vs c v -> 0 <= c))
  /\ (forall v vs c, reachable G sourceId v -> walk G v vs c v -> c < 0 ->
        hasNegativeCycle r = true).
Proof.
  intros Hsrc r G. subst r G.
  pose proof (absorb_source _ _ Hsrc) as HK.
  pose proof (bellmanFord_sound nodes edges sourceId) as Hs. rewrite HK in Hs.
  assert (Hflag : hasNegativeCycle (bellmanFord nodes edges sourceId) = false ->
     (forall v d, distances (bellmanFord nodes edges sourceId) !! v = Some d ->
        true_distance (graph_edges nodes edges) sourceId v d)
     /\ (forall v vs c, reachable (graph_edges nodes edges) sourceId v ->
           walk (graph_edges nodes edges) v vs c v -> 0 <= c)).
  { intros Hfalse. apply flag_false_settled in Hfalse.
    pose proof (settled_bound _ _ _ _ Hs Hfalse) as Hall.
    split; [by apply final_distance|].
    intros v vs c (vs0 & w0 & Hreach) Hcycle.
    destruct (Hall _ _ _ Hreach) as (z & Hz & _).
    destruct Hs as (_ & Hwalk & _). destruct (Hwalk _ _ Hz) as [vs1 Hvs1].
    destruct (walk_app _ _ _ _ _ _ _ _ Hvs1 Hcycle) as [vs2 Hvs2].
    destruct (Hall _ _ _ Hvs2) as (z' & Hz' & Hle).
    rewrite Hz in Hz'. injection Hz' as <-. lia. }
  split; [exact Hflag|].
  intros v vs c Hreach Hcycle Hneg.
  destruct (hasNegativeCycle (bellmanFord nodes edges sourceId)) eqn:Hf; [done|].
  destruct (Hflag eq_refl) as [_ Hnn]. specialize (Hnn v vs c Hreach Hcycle). lia.
Qed.

Lemma bellmanFord_flag_complete_witness :
  "a" ∈ node_ids looping_nodes
  /\ hasNegativeCycle (bellmanFord looping_nodes looping_edges "a") = true.
Proof.
  assert (Hsrc : "a" ∈ node_ids looping_nodes).
  { apply elem_of_list_to_set. simpl. left. }
  split; [exact Hsrc|].
  apply (proj2 (bellmanFord_flag_complete looping_nodes looping_edges "a" Hsrc)
               "a" ["a"; "b"; "a"] (-1)).
  - exists ["a"], 0. constructor.
  - assert (He1 : mkEdge "a" "b" 1 false ∈ graph_edges looping_nodes looping_edges).
    { vm_compute. left. }
    assert (He2 : mkEdge "b" "a" (-2) false ∈ graph_edges looping_nodes looping_edges).
    { vm_compute. right. left. }
    pose proof (walk_step _ "a" _ _ _ _ (walk_nil _ "a") He1 eq_refl) as H1.
    exact (walk_step _ "a" _ _ _ _ H1 He2 eq_refl).
  - lia.
Defined.

End PathEngine.

Module Paths.

Import Graph Spec PathSpec BellmanFord Generated Samples MoreSamples
  PathEngine.

(** *** Predecessors are edges *)

Lemma relax_pred_edges es d p c e d' p' c' :
  e ∈ es -> pred_edges es d p -> relax (d, p, c) e = (d', p', c') ->
  pred_edges es d' p'.
Proof.
  intros He Hp Hr.
  destruct (relax_cases d p c e)
    as [[_ Heq]|(zu & dv & Hu & Hv & Hlt & _ & Heq)];
    rewrite Heq in Hr; injection Hr as <- <- _; [done|].
  assert (Hlow : forall x z, d !! x = Some (Fin z) ->
            exists z', <[to e:=Fin (zu + weight e)]> d !! x = Some (Fin z')
                       /\ z' <= z).
  { intros x z Hz. destruct (decide (x = to e)) as [->|Hne].
    - rewrite lookup_insert_eq. eexists. split; [reflexivity|].
      rewrite Hv in Hz. injection Hz as ->. simpl in Hlt. lia.
    - exists z. by rewrite lookup_insert_ne. }
  intros v u Hvu. destruct (decide (v = to e)) as [->|Hne].
  - rewrite lookup_insert_eq in Hvu. injection Hvu as <-.
    destruct (Hlow _ _ Hu) as (z' & Hz' & Hle).
    exists e, z', (zu + weight e). split_and!; try done; [|lia].
    by rewrite lookup_insert_eq.
  - rewrite lookup_insert_ne in Hvu by done.
    destruct (Hp _ _ Hvu) as (e0 & zu0 & zv0 & He0 & Hf & Ht & Hdu & Hdv & Hle).
    destruct (Hlow _ _ Hdu) as (z' & Hz' & Hle').
    exists e0, z', zv0. split_and!; try done; [|lia].
    by rewrite lookup_insert_ne.
Qed.

Lemma pass_pred_edges es l : forall d p c d' p' c',
  (forall e, e ∈ l -> e ∈ es) -> pred_edges es d p ->
  foldl relax (d, p, c) l = (d', p', c') -> pred_edges es d' p'.
Proof.
  induction l as [|e l IH]; intros d p c d' p' c' Hl Hp Hf.
  - simpl in Hf. by injection Hf as <- <- _.
  - change (foldl relax (relax (d, p, c) e) l = (d', p', c')) in Hf.
    destruct (relax (d, p, c) e) as [[d1 p1] c1] eqn:Hr.
    eapply IH; [|eapply relax_pred_edges; [|exact Hp|exact Hr]|exact Hf].
    + intros e' H. apply Hl. by right.
    + apply Hl. left.
Qed.

Lemma passes_pred_edges es n : forall d p d' p',
  pred_edges es d p -> relaxPasses n es d p = (d', p') -> pred_edges es d' p'.
Proof.
  induction n as [|n IH]; intros d p d' p' Hp Hr; simpl in Hr.
  - by injection Hr as <- <-.
  - destruct (foldl relax (d, p, false) es) as [[d1 p1] c1] eqn:Hf.
    pose proof (pass_pred_edges es es _ _ _ _ _ _ (fun e H => H) Hp Hf) as Hp1.
    destruct c1; [by eapply IH|by injection Hr as <- <-].
Qed.

Lemma pass_pred_dom l : forall (d : gmap string num) p c d' p' c',
  foldl relax (d, p, c) l = (d', p', c') ->
  dom p ⊆ dom p' /\ dom p' ⊆ dom p ∪ dom d /\ dom d' = dom d.
Proof.
  induction l as [|e l IH]; intros d p c d' p' c' Hf.
  - simpl in Hf. injection Hf as <- <- _. set_solver.
  - change (foldl relax (relax (d, p, c) e) l = (d', p', c')) in Hf.
    destruct (relax_cases d p c e)
      as [[_ Heq]|(zu & dv & Hu & Hv & _ & _ & Heq)];
      rewrite Heq in Hf; apply IH in Hf as (H1 & H2 & H3); [done|].
    assert (to e ∈ dom d) by (apply elem_of_dom; eauto).
    rewrite !dom_insert_L in *. set_solver.
Qed.

Lemma passes_pred_dom es n : forall (d : gmap string num) p d' p',
  relaxPasses n es d p = (d', p') ->
  dom p ⊆ dom p' /\ dom p' ⊆ dom p ∪ dom d /\ dom d' = dom d.
Proof.
  induction n as [|n IH]; intros d p d' p' Hr; simpl in Hr.
  - injection Hr as <- <-. set_solver.
  - destruct (foldl relax (d, p, false) es) as [[d1 p1] c1] eqn:Hf.
    apply pass_pred_dom in Hf as (H1 & H2 & H3).
    destruct c1.
    + apply IH in Hr as (H4 & H5 & H6). rewrite H3 in *. set_solver.
    + injection Hr as <- <-. done.
Qed.

Lemma relax_pred_marks s d p c e d' p' c' :
  pred_marks s d p -> relax (d, p, c) e = (d', p', c') -> pred_marks s d' p'.
Proof.
  intros [Hinf Hfin] Hr.
  destruct (relax_cases d p c e)
    as [[_ Heq]|(zu & dv & Hu & Hv & Hlt & _ & Heq)];
    rewrite Heq in Hr; injection Hr as <- <- _; [done|].
  split.
  - intros v Hv'. destruct (decide (v = to e)) as [->|Hne].
    + by rewrite lookup_insert_eq in Hv'.
    + rewrite lookup_insert_ne in Hv' by done.
      rewrite lookup_insert_ne by done. by apply Hinf.
  - intros v z Hvs Hv'. destruct (decide (v = to e)) as [->|Hne].
    + rewrite lookup_insert_eq. eauto.
    + rewrite lookup_insert_ne in Hv' by done.
      rewrite lookup_insert_ne by done. by eapply Hfin.
Qed.

Lemma pass_pred_marks s l : forall d p c d' p' c',
  pred_marks s d p -> foldl relax (d, p, c) l = (d', p', c') ->
  pred_marks s d' p'.
Proof.
  induction l as [|e l IH]; intros d p c d' p' c' Hp Hf.
  - simpl in Hf. by injection Hf as <- <- _.
  - change (foldl relax (relax (d, p, c) e) l = (d', p', c')) in Hf.
    destruct (relax (d, p, c) e) as [[d1 p1] c1] eqn:Hr.
    eapply IH; [|exact Hf]. by eapply relax_pred_marks.
Qed.

Lemma passes_pred_marks s es n : forall d p d' p',
  pred_marks s d p -> relaxPasses n es d p = (d', p') -> pred_marks s d' p'.
Proof.
  induction n as [|n IH]; intros d p d' p' Hp Hr; simpl in Hr.
  - by injection Hr as <- <-.
  - destruct (foldl relax (d, p, false) es) as [[d1 p1] c1] eqn:Hf.
    pose proof (pass_pred_marks s es _ _ _ _ _ _ Hp Hf) as Hp1.
    destruct c1; [by eapply IH|by injection Hr as <- <-].
Qed.

Lemma bellmanFord_pred_marks nodes edges s :
  pred_marks s (distances (bellmanFord nodes edges s))
             (predecessors (bellmanFord nodes edges s)).
Proof.
  unfold bellmanFord.
  destruct (initTables nodes s) as [d0 p0] eqn:Hinit.
  destruct (initTables_spec _ _ _ _ Hinit) as (Hs0 & Hd0 & Hp0 & _).
  destruct (relaxPasses (length nodes - 1) edges d0 p0) as [d p] eqn:Hpass.
  simpl. eapply passes_pred_marks; [|exact Hpass]. split.
  - intros v Hv. destruct (decide (v = s)) as [->|Hne]; [congruence|].
    rewrite Hd0 in Hv by done. rewrite Hp0. by case_decide.
  - intros v z Hne Hv. rewrite Hd0 in Hv by done. by case_decide.
Qed.

(** On a graph without negative cycle the source keeps its [null]
    predecessor. *)
Lemma relax_source_null es s K d p c e d' p' c' :
  e ∈ es -> sound es s K d -> no_negative_cycle (List.filter (live K) es) ->
  p !! s = Some None -> relax (d, p, c) e = (d', p', c') ->
  p' !! s = Some None.
Proof.
  intros He (Hdom & Hw & (z0 & Hz0 & Hle0)) Hnn Hp Hr.
  destruct (relax_cases d p c e)
    as [[_ Heq]|(zu & dv & Hu & Hv & Hlt & _ & Heq)];
    rewrite Heq in Hr; injection Hr as _ <- _; [done|].
  destruct (decide (to e = s)) as [Hto|Hne];
    [|by rewrite lookup_insert_ne].
  exfalso. rewrite Hto, Hz0 in Hv. injection Hv as <-. simpl in Hlt.
  destruct (Hw _ _ Hu) as [vs Hvs].
  assert (Hin : e ∈ List.filter (live K) es).
  { apply in_G; [done|..]; rewrite <- Hdom; apply elem_of_dom;
      [|rewrite Hto]; eauto. }
  pose proof (walk_step _ _ _ _ _ _ Hvs Hin eq_refl) as Hcyc.
  rewrite Hto in Hcyc. apply Hnn in Hcyc. lia.
Qed.

Lemma pass_source_null es s K l : forall d p c d' p' c',
  (forall e, e ∈ l -> e ∈ es) -> sound es s K d ->
  no_negative_cycle (List.filter (live K) es) ->
  p !! s = Some None -> foldl relax (d, p, c) l = (d', p', c') ->
  p' !! s = Some None.
Proof.
  induction l as [|e l IH]; intros d p c d' p' c' Hl Hs Hnn Hp Hf.
  - simpl in Hf. by injection Hf as _ <- _.
  - change (foldl relax (relax (d, p, c) e) l = (d', p', c')) in Hf.
    destruct (relax (d, p, c) e) as [[d1 p1] c1] eqn:Hr.
    assert (He : e ∈ es) by (apply Hl; left).
    destruct (relax_sound es s K _ _ _ _ _ _ _ He Hs Hr) as (Hs1 & _).
    eapply (IH d1 p1 c1); [|exact Hs1|exact Hnn| |exact Hf].
    + intros e' H. apply Hl. by right.
    + exact (relax_source_null es s K _ _ _ _ _ _ _ He Hs Hnn Hp Hr).
Qed.

Lemma passes_source_null es s K n : forall d p d' p',
  sound es s K d -> no_negative_cycle (List.filter (live K) es) ->
  p !! s = Some None -> relaxPasses n es d p = (d', p') ->
  p' !! s = Some None.
Proof.
  induction n as [|n IH]; intros d p d' p' Hs Hnn Hp Hr; simpl in Hr.
  - by injection Hr as _ <-.
  - destruct (foldl relax (d, p, false) es) as [[d1 p1] c1] eqn:Hf.
    pose proof (pass_source_null es s K es _ _ _ _ _ _ (fun e H => H)
                  Hs Hnn Hp Hf) as Hp1.
    destruct (pass_sound es s K es _ _ _ _ _ _ (fun e H => H) Hs Hf)
      as (Hs1 & _).
    destruct c1; [by eapply IH|by injection Hr as _ <-].
Qed.

(** The tables of [bellmanFord], whatever the weights and the source. *)
Lemma bellmanFord_pred_edges nodes edges s :
  pred_edges edges (distances (bellmanFord nodes edges s))
             (predecessors (bellmanFord nodes edges s)).
Proof.
  unfold bellmanFord.
  destruct (initTables nodes s) as [d0 p0] eqn:Hinit.
  destruct (initTables_spec _ _ _ _ Hinit) as (_ & _ & Hp0 & _).
  destruct (relaxPasses (length nodes - 1) edges d0 p0) as [d p] eqn:Hpass.
  simpl. eapply passes_pred_edges; [|exact Hpass].
  intros v u Hvu. rewrite Hp0 in Hvu. by case_decide.
Qed.

Lemma bellmanFord_source_null nodes edges s :
  s ∈ node_ids nodes ->
  no_negative_cycle (graph_edges nodes edges) ->
  predecessors (bellmanFord nodes edges s) !! s = Some None.
Proof.
  intros Hsrc Hnn. unfold bellmanFord.
  destruct (initTables nodes s) as [d0 p0] eqn:Hinit.
  destruct (initTables_spec _ _ _ _ Hinit) as (Hs0 & Hd0 & Hp0 & Hdom0 & Hpdom0).
  rewrite (absorb_source _ _ Hsrc) in Hdom0.
  destruct (relaxPasses (length nodes - 1) edges d0 p0) as [d p] eqn:Hpass.
  simpl.
  eapply (passes_source_null edges s (node_ids nodes)); [|exact Hnn| |exact Hpass].
  - split; [done|]. split; [|by exists 0].
    intros v z Hv. destruct (decide (v = s)) as [->|Hne].
    + rewrite Hs0 in Hv. injection Hv as <-. exists [s]. constructor.
    + rewrite Hd0 in Hv by done. by case_decide.
  - rewrite Hp0. by rewrite decide_True.
Qed.

(** Predecessors of a table that reports no negative cycle are tight. *)
Lemma bellmanFord_pred_tight nodes edges s v u :
  hasNegativeCycle (bellmanFord nodes edges s) = false ->
  predecessors (bellmanFord nodes edges s) !! v = Some (Some u) ->
  exists e zu,
    e ∈ edges /\ from e = u /\ to e = v
    /\ distances (bellmanFord nodes edges s) !! u = Some (Fin zu)
    /\ distances (bellmanFord nodes edges s) !! v
       = Some (Fin (zu + weight e)).
Proof.
  intros Hflag Hvu.
  destruct (bellmanFord_pred_edges nodes edges s _ _ Hvu)
    as (e & zu & zv & He & Hf & Ht & Hdu & Hdv & Hle).
  pose proof (flag_false_settled nodes edges s Hflag e He) as Hr.
  unfold relaxable in Hr. rewrite Hf, Ht, Hdu, Hdv in Hr. simpl in Hr.
  exists e, zu. split_and!; try done. rewrite Hdv. do 2 f_equal. lia.
Qed.

Lemma bellmanFord_tables_dom nodes edges s :
  dom (distances (bellmanFord nodes edges s)) = node_ids nodes ∪ {[s]}
  /\ node_ids nodes ⊆ dom (predecessors (bellmanFord nodes edges s))
  /\ dom (predecessors (bellmanFord nodes edges s)) ⊆ node_ids nodes ∪ {[s]}.
Proof.
  pose proof (bellmanFord_sound nodes edges s) as (Hdom & _).
  unfold bellmanFord in *.
  destruct (initTables nodes s) as [d0 p0] eqn:Hinit.
  destruct (initTables_spec _ _ _ _ Hinit) as (Hs0 & Hd0 & Hp0 & Hdom0 & Hpdom0).
  destruct (relaxPasses (length nodes - 1) edges d0 p0) as [d p] eqn:Hpass.
  simpl in *.
  destruct (passes_pred_dom _ _ _ _ _ _ Hpass) as (H1 & H2 & H3).
  split; [done|]. split; [by rewrite <- Hpdom0|].
  rewrite Hpdom0, Hdom0 in H2. set_solver.
Qed.

(** X3.  Whatever the weights and the source, the tables of [bellmanFord]
    have the node ids and the source as keys of [distances], and the node
    ids, and at most the source besides, as keys of [predecessors]; the
    source has a finite distance, at most 0; each predecessor recorded is
    the origin of an edge of the list into that node, both at a finite
    distance; and when no negative cycle is reported the two distances
    differ by exactly the weight of that edge. *)
Theorem bellmanFord_tables nodes edges sourceId :
  let r := bellmanFord nodes edges sourceId in
  dom (distances r) = node_ids nodes ∪ {[sourceId]}
  /\ node_ids nodes ⊆ dom (predecessors r)
  /\ dom (predecessors r) ⊆ node_ids nodes ∪ {[sourceId]}
  /\ (exists z, distances r !! sourceId = Some (Fin z) /\ z <= 0)
  /\ (forall v u, predecessors r !! v = Some (Some u) ->
        exists e zu zv,
          e ∈ edges /\ from e = u /\ to e = v
          /\ distances r !! u = Some (Fin zu)
          /\ distances r !! v = Some (Fin zv)
          /\ zu + weight e <= zv
          /\ (hasNegativeCycle r = false -> zv = zu + weight e)).
Proof.
  intros r. subst r.
  pose proof (bellmanFord_sound nodes edges sourceId) as (Hdom & _ & Hsrc).
  pose proof (bellmanFord_pred_edges nodes edges sourceId) as Hp.
  pose proof (flag_false_settled nodes edges sourceId) as Hset.
  unfold bellmanFord in *.
  destruct (initTables nodes sourceId) as [d0 p0] eqn:Hinit.
  destruct (initTables_spec _ _ _ _ Hinit) as (Hs0 & Hd0 & Hp0 & Hdom0 & Hpdom0).
  destruct (relaxPasses (length nodes - 1) edges d0 p0) as [d p] eqn:Hpass.
  simpl in *.
  destruct (passes_pred_dom _ _ _ _ _ _ Hpass) as (H1 & H2 & H3).
  split_and!; try done.
  - by rewrite <- Hpdom0.
  - rewrite Hpdom0, Hdom0 in H2. set_solver.
  - intros v u Hvu.
    destruct (Hp _ _ Hvu) as (e & zu & zv & He & Hf & Ht & Hdu & Hdv & Hle).
    exists e, zu, zv. split_and!; try done.
    intros Hflag. specialize (Hset Hflag e He).
    unfold relaxable in Hset. rewrite Hf, Ht, Hdu, Hdv in Hset.
    simpl in Hset. lia.
Qed.

(** X1.  For a source among the nodes and a graph without negative cycle
    (negative edges allowed), [bellmanFord] returns a correct result: the
    true distance of every node, [null] predecessors for the source and the
    unreachable nodes, for every other node a predecessor along an edge on
    which the distances differ by the weight, and no negative cycle
    reported. *)
Theorem bellmanFord_no_negative_cycle_correct nodes edges sourceId :
  sourceId ∈ node_ids nodes ->
  no_negative_cycle (graph_edges nodes edges) ->
  shortest_path_result nodes edges sourceId (bellmanFord nodes edges sourceId).
Proof.
  intros Hsrc Hnn.
  pose proof (absorb_source _ _ Hsrc) as HK.
  pose proof (bellmanFord_general nodes edges sourceId) as Hgen.
  cbv zeta in Hgen. rewrite HK in Hgen.
  destruct Hgen as (Hs & Hall & Hflag).
  { exact Hnn. }
  { intros vs w v. by apply simple_walk_length. }
  pose proof (bellmanFord_source_null nodes edges sourceId Hsrc Hnn) as Hnull.
  destruct (bellmanFord_pred_marks nodes edges sourceId) as [Hinf Hfin].
  pose proof (bellmanFord_tables_dom nodes edges sourceId) as (_ & Hsub1 & Hsub2).
  rewrite HK in Hsub2.
  assert (Hpdom : dom (predecessors (bellmanFord nodes edges sourceId))
                  = node_ids nodes) by set_solver.
  destruct Hs as (Hdom & Hwalk & Hle).
  unfold shortest_path_result.
  split; [done|]. split; [by apply final_distance|].
  split; [done|]. split; [|split; [|done]].
  - intros v. split.
    + intros Hv. assert (HvK : v ∈ node_ids nodes).
      { rewrite <- Hpdom. apply elem_of_dom. eauto. }
      split; [done|].
      destruct (decide (v = sourceId)) as [|Hne]; [by left|right].
      assert (is_Some (distances (bellmanFord nodes edges sourceId) !! v))
        as [[z|] Hz].
      { apply elem_of_dom. by rewrite Hdom. }
      * destruct (Hfin _ _ Hne Hz) as [u Hu]. congruence.
      * done.
    + intros [_ [->|Hinf']]; auto.
  - intros v u Hvu.
    destruct (bellmanFord_pred_tight _ _ _ _ _ Hflag Hvu)
      as (e & zu & He & Hf & Ht & Hdu & Hdv).
    exists e, zu. split_and!; try done.
    apply in_G; [done|..]; rewrite <- Hdom; apply elem_of_dom;
      [rewrite Hf|rewrite Ht]; eauto.
Qed.

Lemma bellmanFord_no_negative_cycle_correct_witness :
  "a" ∈ node_ids shortcut_nodes
  /\ no_negative_cycle (graph_edges shortcut_nodes shortcut_edges)
  /\ shortest_path_result shortcut_nodes shortcut_edges "a"
       (bellmanFord shortcut_nodes shortcut_edges "a").
Proof.
  split; [exact shortcut_source|]. split; [exact shortcut_no_negative_cycle|].
  apply (bellmanFord_no_negative_cycle_correct shortcut_nodes shortcut_edges "a"
           shortcut_source shortcut_no_negative_cycle).
Defined.

Example shortcut_distances :
  distances (bellmanFord shortcut_nodes shortcut_edges "a")
  = {[ "a" := Fin 0; "b" := Fin 10; "c" := Fin (-15) ]}.
Proof. apply map_eq. intros k. vm_compute. reflexivity. Qed.

End Paths.

Module PathWalk.

Import Graph Spec PathSpec BellmanFord Generated Samples PathEngine.

Lemma positive_nonneg es : positive es -> nonneg es.
Proof. intros H e He. specialize (H e He). lia. Qed.

(** The final tables on weights that are not negative. *)
Lemma nonneg_tables nodes edges s :
  nonneg edges -> s ∈ node_ids nodes ->
  let r := bellmanFord nodes edges s in
  sound edges s (node_ids nodes) (distances r)
  /\ settled edges (distances r)
  /\ pred_inv edges s (node_ids nodes) (distances r) (predecessors r).
Proof.
  intros Hnn Hsrc r. subst r.
  pose proof (absorb_source _ _ Hsrc) as HK.
  pose proof (bellmanFord_general nodes edges s) as Hgen.
  cbv zeta in Hgen. rewrite HK in Hgen.
  destruct Hgen as (Hs & Hall & Hflag).
  { intros v vs c Hw. by eapply (walk_nonneg edges v (node_ids nodes)). }
  { intros vs w v. by apply simple_walk_length. }
  split; [done|]. split; [by apply (final_settled edges s (node_ids nodes))|].
  unfold bellmanFord.
  destruct (initTables nodes s) as [d0 p0] eqn:Hinit.
  destruct (initTables_spec _ _ _ _ Hinit) as (Hs0 & Hd0 & Hp0 & Hdom0 & Hpdom0).
  rewrite HK in Hdom0.
  destruct (relaxPasses (length nodes - 1) edges d0 p0) as [d p] eqn:Hpass.
  simpl. eapply passes_pred; [exact Hnn| | |exact Hpass].
  - split; [done|]. split; [|by exists 0].
    intros v z Hv. destruct (decide (v = s)) as [->|Hne].
    + rewrite Hs0 in Hv. injection Hv as <-. exists [s]. constructor.
    + rewrite Hd0 in Hv by done. by case_decide.
  - split; [done|]. split; [by rewrite Hp0, decide_True|].
    split; [|split].
    + intros v Hv. destruct (decide (v = s)) as [->|Hne]; [congruence|].
      rewrite Hd0 in Hv by done. rewrite Hp0. by case_decide.
    + intros v u Hv. rewrite Hp0 in Hv. by case_decide.
    + intros v z Hne Hv. rewrite Hd0 in Hv by done. by case_decide.
Qed.

Lemma getPath_loop_undefined preds fuel : forall path,
  preds !! "undefined" = None ->
  getPath_loop fuel preds (Some Undefined) path = None.
Proof.
  induction fuel as [|fuel IH]; intros path Hu; [done|].
  simpl. unfold readPred. simpl. rewrite Hu. by apply IH.
Qed.

(** Following the predecessors back from a node at a finite distance. *)
Lemma getPath_back es s K d p :
  positive es -> sound es s K d -> settled es d -> pred_inv es s K d p ->
  forall n v z, d !! v = Some (Fin z) -> Z.to_nat z = n ->
  exists path k,
    walk (List.filter (live K) es) s (rev path) z v
    /\ forall fuel acc, (k <= fuel)%nat ->
         getPath_loop fuel p (Some (Str v)) acc
         = Some ((Str <$> path) ++ acc)%list.
Proof.
  intros Hpos Hs Hset (Hpdom & Hps & Hpinf & Hpe & Hpfin).
  pose proof (sound_source es s K d (positive_nonneg _ Hpos) Hs) as Hsd.
  induction n as [n IH] using lt_wf_ind. intros v z Hv Hn.
  destruct (decide (v = s)) as [->|Hne].
  - rewrite Hsd in Hv. injection Hv as <-.
    exists [s], 1%nat. split; [constructor|].
    intros [|fuel] acc Hk; [lia|]. simpl. unfold readPred. simpl.
    rewrite Hps. by destruct fuel.
  - destruct (Hpfin _ _ Hne Hv) as [u Hu].
    destruct (Hpe _ _ Hu) as (e & zu & zv & He & Hfrom & Hto & Hdu & Hdv & Hle).
    rewrite Hv in Hdv. injection Hdv as <-.
    pose proof He as He'. apply G_in in He' as (He' & _).
    pose proof (Hset e He') as Hr. unfold relaxable in Hr.
    rewrite Hfrom, Hto, Hdu, Hv in Hr. simpl in Hr.
    pose proof (Hpos e He') as Hw.
    destruct Hs as (Hdom & Hwalk & Hle0).
    destruct (Hwalk _ _ Hdu) as [vsu Hvsu].
    pose proof (walk_nonneg es s K _ _ _ (positive_nonneg _ Hpos) Hvsu) as H0.
    assert (Hz : z = zu + weight e) by lia.
    destruct (IH (Z.to_nat zu) ltac:(lia) u zu Hdu eq_refl)
      as (path & k & Hpath & Hrun).
    exists (path ++ [v])%list, (S k). split.
    + rewrite rev_app_distr. simpl. subst z. rewrite <- Hto.
      by econstructor.
    + intros [|fuel] acc Hk; [lia|]. simpl. unfold readPred. simpl.
      rewrite Hu. rewrite Hrun by lia.
      by rewrite fmap_app, <- app_assoc.
Qed.

(** X4.  On strictly positive weights, for a source and a target among the
    nodes, [getPath] on the predecessors of [bellmanFord] returns, given
    enough iterations, the nodes of a shortest path from the source to the
    target in order, and the target alone when it cannot be reached. *)
Theorem getPath_shortest_path nodes edges sourceId targetId :
  positive edges ->
  sourceId ∈ node_ids nodes -> targetId ∈ node_ids nodes ->
  let r := bellmanFord nodes edges sourceId in
  let G := graph_edges nodes edges in
  exists path k,
    (forall fuel, (k <= fuel)%nat ->
       getPath fuel (predecessors r) targetId = Some (Str <$> path))
    /\ match distances r !! targetId with
       | Some (Fin z) =>
           walk G sourceId (rev path) z targetId
           /\ forall vs w, walk G sourceId vs w targetId -> z <= w
       | _ => path = [targetId] /\ ~ reachable G sourceId targetId
       end.
Proof.
  intros Hpos Hsrc Htgt r G. subst r G.
  destruct (nonneg_tables nodes edges sourceId (positive_nonneg _ Hpos) Hsrc)
    as (Hs & Hset & Hp).
  pose proof (bellmanFord_general nodes edges sourceId) as Hgen.
  cbv zeta in Hgen. rewrite (absorb_source _ _ Hsrc) in Hgen.
  destruct Hgen as (_ & Hall & _).
  { intros v vs c Hw.
    eapply (walk_nonneg edges v (node_ids nodes)); [|exact Hw].
    by apply positive_nonneg. }
  { intros vs w v. by apply simple_walk_length. }
  set (r := bellmanFord nodes edges sourceId) in *.
  assert (is_Some (distances r !! targetId)) as [[z|] Hz].
  { apply elem_of_dom. destruct Hs as (-> & _). done. }
  - destruct (getPath_back _ _ _ _ _ Hpos Hs Hset Hp _ _ _ Hz eq_refl)
      as (path & k & Hw & Hrun).
    exists path, k. rewrite Hz. split.
    + intros fuel Hk. unfold getPath. rewrite Hrun by done.
      by rewrite app_nil_r.
    + split; [done|]. intros vs w Hvs.
      destruct (Hall _ _ _ Hvs) as (z' & Hz' & Hle). congruence.
  - exists [targetId], 1%nat. rewrite Hz. split.
    + intros [|fuel] Hk; [lia|]. unfold getPath. simpl. unfold readPred. simpl.
      destruct Hp as (_ & _ & Hpinf & _). rewrite (Hpinf _ Hz).
      by destruct fuel.
    + split; [done|]. intros (vs & w & Hvs).
      destruct (Hall _ _ _ Hvs) as (z' & Hz' & _). congruence.
Qed.

Lemma getPath_shortest_path_witness :
  positive sample_edges /\ "a" ∈ node_ids sample_nodes
  /\ "c" ∈ node_ids sample_nodes
  /\ exists path k,
       (forall fuel, (k <= fuel)%nat ->
          getPath fuel
            (predecessors (bellmanFord sample_nodes sample_edges "a")) "c"
          = Some (Str <$> path))
       /\ match distances (bellmanFord sample_nodes sample_edges "a") !! "c"
          with
          | Some (Fin z) =>
              walk (graph_edges sample_nodes sample_edges) "a" (rev path) z "c"
              /\ forall vs w,
                   walk (graph_edges sample_nodes sample_edges) "a" vs w "c" ->
                   z <= w
          | _ => path = ["c"]
                 /\ ~ reachable (graph_edges sample_nodes sample_edges) "a" "c"
          end.
Proof.
  assert (H1 : positive sample_edges).
  { intros e He. unfold sample_edges in He.
    repeat (apply elem_of_cons in He as [->|He]); simpl; try lia.
    by apply elem_of_nil in He. }
  assert (H2 : "a" ∈ node_ids sample_nodes).
  { unfold node_ids, sample_nodes. apply elem_of_list_to_set. simpl. left. }
  assert (H3 : "c" ∈ node_ids sample_nodes).
  { unfold node_ids, sample_nodes. apply elem_of_list_to_set. simpl.
    right. right. left. }
  split; [exact H1|]. split; [exact H2|]. split; [exact H3|].
  exact (getPath_shortest_path sample_nodes sample_edges "a" "c" H1 H2 H3).
Defined.

Example sample_path :
  getPath 3 (predecessors (bellmanFord sample_nodes sample_edges "a")) "c"
  = Some [Str "a"; Str "b"; Str "c"].
Proof. vm_compute. reflexivity. Qed.

(** X5.  [getPath] never returns when neither the target nor the key
    ["undefined"] is in the predecessor table: the first read gives
    [undefined], which is not [null], and every later read gives
    [undefined] again. *)
Theorem getPath_missing_target_diverges predecessors targetId :
  predecessors !! targetId = None ->
  predecessors !! "undefined" = None ->
  forall fuel, getPath fuel predecessors targetId = None.
Proof.
  intros Ht Hu [|fuel]; [done|].
  unfold getPath. simpl. unfold readPred. simpl. rewrite Ht.
  by apply getPath_loop_undefined.
Qed.

Lemma getPath_missing_target_diverges_witness :
  predecessors (bellmanFord sample_nodes sample_edges "a") !! "z" = None
  /\ predecessors (bellmanFord sample_nodes sample_edges "a") !! "undefined"
     = None
  /\ forall fuel,
       getPath fuel (predecessors (bellmanFord sample_nodes sample_edges "a"))
         "z" = None.
Proof.
  assert (H1 : predecessors (bellmanFord sample_nodes sample_edges "a") !! "z"
               = None) by (vm_compute; reflexivity).
  assert (H2 : predecessors (bellmanFord sample_nodes sample_edges "a")
                 !! "undefined" = None) by (vm_compute; reflexivity).
  split; [exact H1|]. split; [exact H2|].
  exact (getPath_missing_target_diverges _ "z" H1 H2).
Defined.

End PathWalk.

Module GridShape.

Import Graph Spec PathSpec BellmanFord Generated Samples.

Lemma markPath_fields ids n :
  id (markPath ids n) = id n /\ x (markPath ids n) = x n
  /\ y (markPath ids n) = y n /\ towerId (markPath ids n) = towerId n.
Proof. unfold markPath. by case_bool_decide. Qed.

Lemma generated_walkable ids n :
  n ∈ markPath ids <$> initial_nodes -> (isPath n = true <-> id n ∈ ids).
Proof.
  intros Hn. apply list_elem_of_fmap in Hn as (n0 & -> & Hn0).
  unfold initial_nodes in Hn0.
  apply list_elem_of_fmap in Hn0 as ([cx cy] & -> & _).
  unfold markPath. case_bool_decide; simpl; split; done.
Qed.

Lemma generated_cell ids cx cy :
  0 <= cx < GRID_SIZE -> 0 <= cy < GRID_SIZE ->
  markPath ids (mkNode (node_id cx cy) (MARGIN + cx * NODE_SPACING)
                       (MARGIN + cy * NODE_SPACING) false None)
    ∈ markPath ids <$> initial_nodes.
Proof.
  intros Hx Hy. apply list_elem_of_fmap_2. unfold initial_nodes.
  apply (list_elem_of_fmap_2' _ _ (cx, cy)); [|done]. by apply grid_cells_spec.
Qed.

Lemma node_id_inj cx cy nx ny :
  0 <= cx < GRID_SIZE -> 0 <= cy < GRID_SIZE ->
  0 <= nx < GRID_SIZE -> 0 <= ny < GRID_SIZE ->
  node_id cx cy = node_id nx ny -> cx = nx /\ cy = ny.
Proof.
  intros Hx Hy Hx' Hy' Heq.
  assert (H : forallb (fun c : Z * Z =>
                forallb (fun c' : Z * Z =>
                  implb (String.eqb (node_id c.1 c.2) (node_id c'.1 c'.2))
                        ((c.1 =? c'.1) && (c.2 =? c'.2)))
                  grid_cells) grid_cells = true) by (vm_compute; reflexivity).
  rewrite forallb_forall in H.
  specialize (H (cx, cy)). rewrite forallb_forall in H.
  specialize (H ltac:(by apply list_elem_of_In, grid_cells_spec) (nx, ny)
                ltac:(by apply list_elem_of_In, grid_cells_spec)).
  cbn [fst snd] in H. rewrite (proj2 (String.eqb_eq _ _) Heq) in H.
  cbn [implb] in H. apply andb_true_iff in H. lia.
Qed.

Lemma warpEdges_walkable env k stage nodes warp e :
  warpEdges env k stage nodes = Some warp -> e ∈ warp ->
  exists from to,
    from ∈ nodes /\ to ∈ nodes
    /\ isPath from = true /\ isPath to = true
    /\ warp = [e] /\ e = mkEdge (id from) (id to) (-15) true
    /\ id from <> id to /\ 2 <= stage.
Proof.
  unfold warpEdges. intros H He.
  destruct (2 <=? stage) eqn:Hstage;
    [|injection H as <-; by apply elem_of_nil in He].
  destruct (10 <? _); [|injection H as <-; by apply elem_of_nil in He].
  set (pNodes := List.filter isPath nodes) in *.
  destruct (_ && _); [|injection H as <-; by apply elem_of_nil in He].
  destruct (List.filter isCandidateFrom pNodes !! _) as [from|] eqn:Hfrom;
    [|done].
  destruct (List.filter isCandidateTo pNodes !! _) as [to|] eqn:Hto; [|done].
  match type of H with
  | (if ?b then _ else _) = _ => destruct b eqn:Hcond
  end; injection H as <-; [|by apply elem_of_nil in He].
  apply list_elem_of_singleton in He as ->.
  apply andb_true_iff in Hcond as [Hcond _].
  apply andb_true_iff in Hcond as [Hne _].
  apply negb_true_iff, String.eqb_neq in Hne.
  assert (Hin : forall (f : Node -> bool) n,
            n ∈ List.filter f pNodes -> n ∈ nodes /\ isPath n = true).
  { intros f n Hn. apply list_elem_of_In, filter_In in Hn as [Hn _].
    apply filter_In in Hn as [Hn Hp]. split; [by apply list_elem_of_In|done]. }
  apply list_elem_of_lookup_2, Hin in Hfrom as [? ?].
  apply list_elem_of_lookup_2, Hin in Hto as [? ?].
  exists from, to. split_and!; try done. lia.
Qed.

(** X6.  [generateGraph] always returns, and the nodes of its graph are the
    100 cells of the 10 x 10 grid, row by row, each with its own id, at
    pixel (40 + 60 x, 40 + 60 y) and without tower; the start node is
    [node_0_0] and the goal [node_9_9], both among the nodes. *)
Theorem generateGraph_grid env stage :
  exists g,
    generateGraph env stage = Some g
    /\ (fun n => (id n, x n, y n, towerId n)) <$> nodes g
       = (fun c : Z * Z =>
            (node_id c.1 c.2, 40 + 60 * c.1, 40 + 60 * c.2, None))
           <$> grid_cells
    /\ length (nodes g) = 100%nat
    /\ NoDup (id <$> nodes g)
    /\ startNodeId g = "node_0_0" /\ endNodeId g = "node_9_9"
    /\ startNodeId g ∈ node_ids (nodes g)
    /\ endNodeId g ∈ node_ids (nodes g).
Proof.
  destruct (generateGraph_spec env stage) as (ids & k & warp & Hg & _).
  cbv zeta in Hg. eexists. split; [exact Hg|].
  cbn [nodes edges startNodeId endNodeId].
  assert (Hproj : (fun n => (id n, x n, y n, towerId n))
                    <$> (markPath ids <$> initial_nodes)
                  = (fun c : Z * Z =>
                       (node_id c.1 c.2, 40 + 60 * c.1, 40 + 60 * c.2, None))
                      <$> grid_cells).
  { unfold initial_nodes. rewrite <- !list_fmap_compose.
    apply list_fmap_ext. intros i [cx cy] _. simpl.
    destruct (markPath_fields ids
                (mkNode (node_id cx cy) (MARGIN + cx * NODE_SPACING)
                        (MARGIN + cy * NODE_SPACING) false None))
      as (-> & -> & -> & ->).
    simpl. unfold MARGIN, NODE_SPACING. do 3 f_equal; lia. }
  assert (Hids : id <$> (markPath ids <$> initial_nodes)
                 = (fun c : Z * Z => node_id c.1 c.2) <$> grid_cells).
  { unfold initial_nodes. rewrite <- !list_fmap_compose.
    apply list_fmap_ext. intros i [cx cy] _. simpl.
    by destruct (markPath_fields ids
                (mkNode (node_id cx cy) (MARGIN + cx * NODE_SPACING)
                        (MARGIN + cy * NODE_SPACING) false None))
      as (-> & _). }
  split_and!.
  - exact Hproj.
  - by rewrite !length_fmap.
  - rewrite Hids.
    apply (bool_decide_eq_true_1
             (NoDup ((fun c : Z * Z => node_id c.1 c.2) <$> grid_cells))).
    vm_compute. reflexivity.
  - done.
  - done.
  - apply generated_ids; unfold GRID_SIZE; lia.
  - apply generated_ids; unfold GRID_SIZE; lia.
Qed.

(** X7.  The edges of a generated graph: every edge joins two distinct
    walkable nodes of the graph; an edge that is no warp has weight 10,
    joins neighbouring cells and comes with its opposite; any two
    neighbouring walkable nodes are joined; a warp edge has weight -15,
    exists only from stage 2 on, and is the only warp edge of the graph. *)
Theorem generateGraph_edges env stage :
  exists g,
    generateGraph env stage = Some g
    /\ (forall e, e ∈ edges g ->
          exists a b,
            a ∈ nodes g /\ b ∈ nodes g /\ id a = from e /\ id b = to e
            /\ isPath a = true /\ isPath b = true /\ from e <> to e
            /\ (isWarp e = false ->
                  weight e = 10 /\ neighbours a b
                  /\ mkEdge (to e) (from e) 10 false ∈ edges g)
            /\ (isWarp e = true ->
                  weight e = -15 /\ 2 <= stage
                  /\ forall e', e' ∈ edges g -> isWarp e' = true -> e' = e))
    /\ (forall a b,
          a ∈ nodes g -> b ∈ nodes g ->
          isPath a = true -> isPath b = true -> neighbours a b ->
          mkEdge (id a) (id b) 10 false ∈ edges g).
Proof.
  destruct (generateGraph_spec env stage) as (ids & k & warp & Hg & Hw & _).
  cbv zeta in Hg. eexists. split; [exact Hg|].
  cbn [nodes edges startNodeId endNodeId]. split.
  - intros e [He|He]%elem_of_app.
    + pose proof He as He'.
      apply adjacencyEdges_spec in He'
        as (cx & cy & nx & ny & Hx & Hy & Hnb & Hnx & Hny & Hc & Hn & Hcase).
      assert (0 <= nx < GRID_SIZE /\ 0 <= ny < GRID_SIZE) as [Hx' Hy'] by lia.
      pose proof (generated_cell ids cx cy Hx Hy) as Hcin.
      pose proof (generated_cell ids nx ny Hx' Hy') as Hnin.
      destruct (markPath_fields ids
                  (mkNode (node_id cx cy) (MARGIN + cx * NODE_SPACING)
                          (MARGIN + cy * NODE_SPACING) false None))
        as (Hcid & Hcx & Hcy & _).
      destruct (markPath_fields ids
                  (mkNode (node_id nx ny) (MARGIN + nx * NODE_SPACING)
                          (MARGIN + ny * NODE_SPACING) false None))
        as (Hnid & Hnx' & Hny' & _).
      cbn [id x y] in Hcid, Hcx, Hcy, Hnid, Hnx', Hny'.
      remember (markPath ids (mkNode (node_id cx cy) _ _ false None)) as c
        eqn:Hc_def.
      remember (markPath ids (mkNode (node_id nx ny) _ _ false None)) as n
        eqn:Hn_def.
      clear Hc_def Hn_def.
      assert (Hcp : isPath c = true).
      { apply (generated_walkable ids c Hcin). by rewrite Hcid. }
      assert (Hnp : isPath n = true).
      { apply (generated_walkable ids n Hnin). by rewrite Hnid. }
      assert (Hne : node_id cx cy <> node_id nx ny).
      { intros Heq. apply node_id_inj in Heq; lia. }
      assert (Hopp : forall a b, (a = node_id cx cy /\ b = node_id nx ny)
                                 \/ (a = node_id nx ny /\ b = node_id cx cy) ->
                mkEdge a b 10 false ∈ (adjacencyEdges ids ++ warp)%list).
      { intros a b Hab. apply elem_of_app. left. apply adjacencyEdges_spec.
        exists cx, cy, nx, ny.
        destruct Hab as [[-> ->]|[-> ->]]; split_and!; auto; lia. }
      destruct Hcase as [-> | ->]; cbn [from to weight isWarp].
      * exists c, n. split_and!; try done.
        intros _. split; [done|]. split; [|apply Hopp; auto].
        unfold neighbours. rewrite Hcx, Hcy, Hnx', Hny'. unfold NODE_SPACING.
        destruct Hnb as [[-> ->]|[-> ->]]; [left|right; right; left]; lia.
      * exists n, c. split_and!; try done; try congruence.
        intros _. split; [done|]. split; [|apply Hopp; auto].
        unfold neighbours. rewrite Hcx, Hcy, Hnx', Hny'. unfold NODE_SPACING.
        destruct Hnb as [[-> ->]|[-> ->]]; [right; left|do 3 right]; lia.
    + destruct (warpEdges_walkable _ _ _ _ _ _ Hw He)
        as (a & b & Ha & Hb & Hap & Hbp & Hwarp & -> & Hne & Hst).
      exists a, b. cbn [from to weight isWarp]. split_and!; try done.
      intros _. split; [done|]. split; [done|].
      intros e' [He'|He']%elem_of_app Hiw.
      * apply adjacency_progress in He' as (_ & Hf & _). congruence.
      * rewrite Hwarp in He'. by apply list_elem_of_singleton in He'.
  - intros a b Ha Hb Hap Hbp Hnb.
    apply elem_of_app. left. apply adjacencyEdges_spec.
    apply (generated_walkable ids a Ha) in Hap.
    apply (generated_walkable ids b Hb) in Hbp.
    destruct (generated_node _ _ Ha) as (ax & ay & Hax & Hay & Haid & Hapx & Hapy).
    destruct (generated_node _ _ Hb) as (bx & by' & Hbx & Hby & Hbid & Hbpx & Hbpy).
    rewrite Haid in *. rewrite Hbid in *.
    unfold neighbours in Hnb. rewrite Hapx, Hapy, Hbpx, Hbpy in Hnb.
    unfold MARGIN, NODE_SPACING, GRID_SIZE in *.
    destruct Hnb as [[H1 H2]|[[H1 H2]|[[H1 H2]|[H1 H2]]]].
    + exists ax, ay, bx, by'. split_and!; try done; try lia; by left.
    + exists bx, by', ax, ay. split_and!; try done; try lia; by right.
    + exists ax, ay, bx, by'. split_and!; try done; try lia; by left.
    + exists bx, by', ax, ay. split_and!; try done; try lia; by right.
Qed.

End GridShape.

Module Weights.

Import Engine EngineSpec TickSpec.

Lemma forallb_false_elem {A} (f : A -> bool) (l : list A) :
  forallb f l = false -> exists a, a ∈ l /\ f a = false.
Proof.
  induction l as [|a l IH]; [done|]. simpl.
  destruct (f a) eqn:Ha.
  - intros (b & Hb & Hfb)%IH. exists b. split; [by right|done].
  - intros _. exists a. split; [left|done].
Qed.

Lemma towerPenalty_count nodes toN towers : forall weight,
  Forall (fun t => is_Some (findNode nodes (t_nodeId t))) towers ->
  towerPenalty nodes (Some toN) towers weight
  = Some (weight
          + 20 * Z.of_nat (length (List.filter (nearTower nodes toN) towers))).
Proof.
  induction towers as [|t towers IH]; intros weight Hall.
  - simpl. f_equal. lia.
  - apply Forall_cons in Hall as [[tNode Ht] Hall].
    cbn [towerPenalty List.filter]. unfold nearTower at 1. rewrite Ht.
    cbn [mbind option_bind]. rewrite IH by done.
    destruct (Qltb _ 100); cbn [length]; f_equal; lia.
Qed.

Lemma towerPenalty_missing_tower nodes toNode towers : forall weight,
  Exists (fun t => findNode nodes (t_nodeId t) = None) towers ->
  towerPenalty nodes toNode towers weight = None.
Proof.
  induction towers as [|t towers IH]; intros weight Hex.
  - by apply Exists_nil in Hex.
  - cbn [towerPenalty].
    destruct (findNode nodes (t_nodeId t)) as [tNode|] eqn:Ht; [|done].
    destruct toNode as [toN|]; [|done]. cbn [mbind option_bind].
    apply IH. apply Exists_cons in Hex as [Hex|Hex]; [congruence|done].
Qed.

(** X8.  The dynamic weight of an edge in closed form: 1000000 when a road
    block stands on either endpoint; otherwise the base weight plus 20 for
    each tower within 100 pixels of the destination.  The endpoints and the
    warp flag are kept.  The computation throws exactly when the edge is
    not blocked, there is at least one tower, and the destination node or
    the node of some tower is missing from the node list. *)
Theorem dynamicEdge_closed_form nodes roadBlocks towers e :
  dynamicEdge nodes roadBlocks towers e
  = if isBlocked roadBlocks e then
      Some (Graph.mkEdge (Graph.from e) (Graph.to e) 1000000 (Graph.isWarp e))
    else
      match towers, findNode nodes (Graph.to e) with
      | [], _ => Some e
      | _ :: _, None => None
      | _ :: _, Some toN =>
          if forallb (fun t => bool_decide
                                 (is_Some (findNode nodes (t_nodeId t))))
                     towers
          then Some (Graph.mkEdge (Graph.from e) (Graph.to e)
                       (Graph.weight e
                        + 20 * Z.of_nat
                                 (length (List.filter (nearTower nodes toN)
                                                      towers)))
                       (Graph.isWarp e))
          else None
      end.
Proof.
  unfold dynamicEdge. fold (isBlocked roadBlocks e).
  destruct (isBlocked roadBlocks e); [done|].
  destruct towers as [|t towers]; [by destruct e|].
  destruct (findNode nodes (Graph.to e)) as [toN|] eqn:HtoN.
  - destruct (forallb _ (t :: towers)) eqn:Hall.
    + rewrite towerPenalty_count; [done|].
      apply Forall_forall. intros t' Ht'.
      rewrite forallb_forall in Hall.
      specialize (Hall t' ltac:(by apply list_elem_of_In)).
      by apply bool_decide_eq_true_1 in Hall.
    + rewrite towerPenalty_missing_tower; [done|].
      apply Exists_exists.
      destruct (forallb_false_elem _ _ Hall) as (t' & Ht' & Hb).
      exists t'. split; [done|]. apply bool_decide_eq_false_1 in Hb.
      destruct (findNode nodes (t_nodeId t')); [|done].
      destruct Hb. eauto.
  - cbn [towerPenalty]. by destruct (findNode nodes (t_nodeId t)).
Qed.

End Weights.

Module TickPhases.

Import Engine EngineSpec TickSpec Weights.
Import Graph(from, to, weight, isWarp).

(** A tick outside the countdown and [game_over] branches, phase by
    phase. *)
Lemma tick_phases env state dt state' :
  status state = playing \/ status state = paused ->
  updateGame env state dt = Some state' ->
  exists dyn spawnTimer' toSpawn' es0 k es1 lives' status'
         ps1 es2 money' towers' ps2 k',
    let rbs := standing (date_now env 0) (roadBlocks state) in
    mapM (dynamicEdge (nodes state) rbs (towers state)) (edges state)
      = Some dyn
    /\ spawn env state dt = Some (spawnTimer', toSpawn', es0, k)
    /\ moveEnemies (nodes state) rbs (endNodeId state)
         (Graph.predecessors (toEnd state dyn))
         dt (lives state) (status state) es0
       = Some (es1, lives', status')
    /\ moveProjectiles dt es1 (money state) (projectiles state)
       = (ps1, es2, money')
    /\ fireTowers env (date_now env 1) (nodes state) es2 (towers state) ps1 k
       = Some (towers', ps2, k')
    /\ state'
       = mkGameState
           (nodes state) (edges state) es2 towers' ps2 rbs money' lives'
           (wave state) (stage state) (maxWavesPerStage state)
           (if waveDone es2 toSpawn' status' then
              if maxWavesPerStage state <=? wave state
              then stage_transition else wave_countdown
            else status')
           (if waveDone es2 toSpawn' status' then
              if maxWavesPerStage state <=? wave state
              then 10000 else 5000
            else timer state)
           spawnTimer' toSpawn'
           (startNodeId state) (endNodeId state).
Proof.
  intros Hst H. unfold updateGame in H.
  destruct Hst as [Hs|Hs]; rewrite Hs in H;
    (destruct (mapM _ (edges state)) as [dyn|] eqn:Hdyn; simpl in H; [|done];
     destruct (spawn env state dt) as [[[[st' ts'] es0] k]|] eqn:Hspawn;
       simpl in H; [|done];
     destruct (moveEnemies _ _ _ _ dt _ _ es0) as [[[es1 l'] s']|] eqn:Hmove;
       simpl in H; [|done];
     destruct (moveProjectiles dt es1 _ _) as [[ps1 es2] m'] eqn:Hproj;
     destruct (fireTowers _ _ _ es2 _ ps1 k) as [[[t' ps2] k']|] eqn:Hfire;
       simpl in H; [|done];
     injection H as <-;
     exists dyn, st', ts', es0, k, es1, l', s', ps1, es2, m', t', ps2, k';
     rewrite Hs; split_and!; done).
Qed.

(** *** The dynamic edges *)

Lemma towerPenalty_ge nodes toNode towers : forall weight w,
  towerPenalty nodes toNode towers weight = Some w -> weight <= w.
Proof.
  induction towers as [|t towers IH]; intros weight w H; simpl in H.
  - injection H as <-. lia.
  - destruct (findNode nodes (t_nodeId t)); simpl in H; [|done].
    destruct toNode; simpl in H; [|done].
    apply IH in H. destruct (Qltb _ 100); lia.
Qed.

Lemma dynamicEdge_fields nodes rbs towers e d :
  dynamicEdge nodes rbs towers e = Some d ->
  from d = from e /\ to d = to e /\ isWarp d = isWarp e
  /\ (weight e <= 1000000 -> weight e <= weight d).
Proof.
  unfold dynamicEdge. intros H.
  destruct (existsb _ rbs); simpl in H; [by injection H as <-|].
  destruct (towerPenalty _ _ _ _) as [w|] eqn:Hw; simpl in H; [|done].
  injection H as <-. simpl. split_and!; auto.
  intros _. by apply towerPenalty_ge in Hw.
Qed.

Lemma dynamicEdges_elem nodes rbs towers es dyn d :
  mapM (dynamicEdge nodes rbs towers) es = Some dyn -> d ∈ dyn ->
  exists e, e ∈ es /\ dynamicEdge nodes rbs towers e = Some d.
Proof.
  intros Hm Hd. apply mapM_Some in Hm.
  apply list_elem_of_lookup in Hd as [i Hi].
  destruct (Forall2_lookup_r _ _ _ _ _ Hm Hi) as (e & He & Hed).
  exists e. split; [by eapply list_elem_of_lookup_2|done].
Qed.

(** *** Movement *)

Lemma moveEnemy_cases nodes rbs endId preds dt lives status enemy
    e' keep lives' status' :
  moveEnemy nodes rbs endId preds dt lives status enemy
    = Some (e', keep, lives', status') ->
  e_id e' = e_id enemy /\ e_type e' = e_type enemy /\ e_hp e' = e_hp enemy
  /\ e_maxHp e' = e_maxHp enemy /\ e_speed e' = e_speed enemy
  /\ e_reward e' = e_reward enemy
  /\ e_nextNodeId e' = mjoin (preds !! e_currentNodeId enemy)
  /\ (e_currentNodeId e' = e_currentNodeId enemy
      \/ preds !! e_currentNodeId enemy = Some (Some (e_currentNodeId e')))
  /\ ((lives' = lives /\ status' = status)
      \/ (keep = false /\ e_currentNodeId enemy = endId
          /\ truthy_string (mjoin (preds !! e_currentNodeId enemy)) = false
          /\ lives' = lives - 1
          /\ status' = if lives - 1 <=? 0 then game_over else status)).
Proof.
  unfold moveEnemy. intros H.
  destruct (preds !! e_currentNodeId enemy) as [[next|]|] eqn:Hp;
    cbn [mjoin option_join option_bind mbind] in *.
  - destruct (truthy_string (Some next)) eqn:Htruthy.
    + repeat match type of H with
             | context [if ?x then _ else _] => destruct x eqn:?
             | context [?x ≫= _] => destruct x eqn:?; simpl in H
             end; simplify_eq; simpl; split_and!; auto.
    + destruct (String.eqb _ endId) eqn:Hend; simplify_eq; simpl;
        split_and!; auto.
      right. apply String.eqb_eq in Hend. split_and!; auto.
  - destruct (String.eqb _ endId) eqn:Hend; simplify_eq; simpl;
      split_and!; auto.
    right. apply String.eqb_eq in Hend. split_and!; auto.
  - destruct (String.eqb _ endId) eqn:Hend; simplify_eq; simpl;
      split_and!; auto.
    right. apply String.eqb_eq in Hend. split_and!; auto.
Qed.

Lemma moveEnemies_elem nodes rbs endId preds dt es :
  forall lives status es' lives' status' e',
  moveEnemies nodes rbs endId preds dt lives status es
    = Some (es', lives', status') ->
  e' ∈ es' ->
  exists e l s l1 s1,
    e ∈ es
    /\ moveEnemy nodes rbs endId preds dt l s e = Some (e', true, l1, s1).
Proof.
  induction es as [|e es IH]; intros lives status es' lives' status' e' H Hin;
    simpl in H.
  - injection H as <- _ _. by apply elem_of_nil in Hin.
  - destruct (moveEnemy _ _ _ _ _ lives status e) as [[[[e1 keep] l1] s1]|] eqn:He;
      simpl in H; [|done].
    destruct (moveEnemies _ _ _ _ _ l1 s1 es) as [[[es1 l2] s2]|] eqn:Hes;
      simpl in H; [|done].
    injection H as <- <- <-.
    assert (Hrest : e' ∈ es1 ->
              exists e0 l s l1 s1, e0 ∈ e :: es
                /\ moveEnemy nodes rbs endId preds dt l s e0
                   = Some (e', true, l1, s1)).
    { intros Hin'. destruct (IH _ _ _ _ _ _ Hes Hin')
        as (e0 & l & s & l3 & s3 & He0 & Hm).
      exists e0, l, s, l3, s3. split; [by right|done]. }
    destruct keep; [|by apply Hrest].
    apply elem_of_cons in Hin as [->|Hin]; [|by apply Hrest].
    exists e, lives, status, l1, s1. split; [left|done].
Qed.

Lemma moveEnemy_at_goal nodes rbs endId preds dt lives status enemy
    e' keep lives' status' :
  preds !! endId = Some None ->
  moveEnemy nodes rbs endId preds dt lives status enemy
    = Some (e', keep, lives', status') ->
  lives' = lives - (if String.eqb (e_currentNodeId enemy) endId then 1 else 0).
Proof.
  intros Hend H.
  destruct (String.eqb (e_currentNodeId enemy) endId) eqn:Hat.
  - pose proof Hat as Heq. apply String.eqb_eq in Heq.
    unfold moveEnemy in H. rewrite Heq, Hend in H.
    cbn [mjoin option_join option_bind mbind] in H.
    rewrite String.eqb_refl in H. by injection H as _ _ <- _.
  - apply moveEnemy_cases in H as (_ & _ & _ & _ & _ & _ & _ & _ & Hl).
    destruct Hl as [[-> _]|(_ & Heq & _)]; [lia|].
    apply String.eqb_eq in Heq. congruence.
Qed.

(** With a [null] predecessor for the goal, the movement pass takes one
    life for each enemy standing on the goal. *)
Lemma moveEnemies_lives nodes rbs endId preds dt es :
  preds !! endId = Some None ->
  forall lives status es' lives' status',
  moveEnemies nodes rbs endId preds dt lives status es
    = Some (es', lives', status') ->
  lives' = lives - Z.of_nat (length (standingOn endId es)).
Proof.
  intros Hend. induction es as [|e es IH];
    intros lives status es' lives' status' H; simpl in H.
  - injection H as _ <- _. simpl. lia.
  - destruct (moveEnemy _ _ _ _ _ lives status e) as [[[[e1 keep] l1] s1]|] eqn:He;
      simpl in H; [|done].
    destruct (moveEnemies _ _ _ _ _ l1 s1 es) as [[[es1 l2] s2]|] eqn:Hes;
      simpl in H; [|done].
    injection H as _ <- _.
    rewrite (IH _ _ _ _ _ Hes).
    rewrite (moveEnemy_at_goal _ _ _ _ _ _ _ _ _ _ _ _ Hend He).
    unfold standingOn. cbn [List.filter].
    destruct (String.eqb (e_currentNodeId e) endId); cbn [length]; lia.
Qed.

(** The status after the movement pass: [game_over] when a life was lost
    and none is left, the status before otherwise. *)
Lemma moveEnemies_status nodes rbs endId preds dt es :
  forall lives status es' lives' status',
  moveEnemies nodes rbs endId preds dt lives status es
    = Some (es', lives', status') ->
  lives' <= lives
  /\ status' = if (lives' <? lives) && (lives' <=? 0)
               then game_over else status.
Proof.
  induction es as [|e es IH]; intros lives status es' lives' status' H;
    simpl in H.
  - injection H as _ <- <-. split; [lia|].
    by rewrite Z.ltb_irrefl.
  - destruct (moveEnemy _ _ _ _ _ lives status e) as [[[[e1 keep] l1] s1]|] eqn:He;
      simpl in H; [|done].
    destruct (moveEnemies _ _ _ _ _ l1 s1 es) as [[[es1 l2] s2]|] eqn:Hes;
      simpl in H; [|done].
    injection H as _ <- <-.
    destruct (IH _ _ _ _ _ Hes) as [Hle ->].
    apply moveEnemy_cases in He as (_ & _ & _ & _ & _ & _ & _ & _ & Hl).
    destruct Hl as [[-> ->]|(_ & _ & _ & -> & ->)]; [done|].
    split; [lia|].
    destruct (l2 <? lives - 1) eqn:H1; destruct (l2 <=? 0) eqn:H2;
      destruct (lives - 1 <=? 0) eqn:H3; destruct (l2 <? lives) eqn:H4;
      try done; lia.
Qed.

End TickPhases.

Module Pathfinding.

Import Engine EngineSpec TickSpec Weights TickPhases Samples MoreSamples.
Import Graph(from, to, weight, isWarp, markPath, initial_nodes,
  adjacencyEdges, warpEdges, node_id, GRID_SIZE).
Import Spec BellmanFord Generated PathEngine Paths.

Lemma spawn_cases env state dt spawnTimer' toSpawn' es0 k :
  spawn env state dt = Some (spawnTimer', toSpawn', es0, k) ->
  (es0 = enemies state /\ toSpawn' = enemiesToSpawn state)
  \/ (exists new,
        es0 = (enemies state ++ [new])%list
        /\ 0 < enemiesToSpawn state
        /\ toSpawn' = enemiesToSpawn state - 1
        /\ (1000 < spawnTimer state + dt)%Q /\ spawnTimer' = 0%Q
        /\ e_currentNodeId new = startNodeId state
        /\ e_nextNodeId new = None
        /\ e_hp new = e_maxHp new /\ e_progress new = 0%Q
        /\ e_reward new = s_reward (ENEMY_TYPES (e_type new))
        /\ e_speed new = s_speed (ENEMY_TYPES (e_type new))).
Proof.
  unfold spawn. intros H.
  destruct (0 <? enemiesToSpawn state) eqn:Hn; [|injection H as <- <- <- <-; auto].
  destruct (Qltb 1000 _) eqn:Ht; [|injection H as <- <- <- <-; auto].
  destruct (findNode _ _) as [startNode|]; simpl in H; [|done].
  injection H as <- <- <- <-. right. eexists. split; [reflexivity|].
  simpl. split_and!; try done; try lia.
  by apply Ticks.Qltb_lt.
Qed.

(** *** The dynamic graph of a generated map *)

Lemma generated_map_shape state :
  generated_map state ->
  exists ids warp env k stage,
    nodes state = markPath ids <$> initial_nodes
    /\ edges state = (adjacencyEdges ids ++ warp)%list
    /\ startNodeId state = node_id 0 0
    /\ endNodeId state = node_id (GRID_SIZE - 1) (GRID_SIZE - 1)
    /\ warpEdges env k stage (markPath ids <$> initial_nodes) = Some warp.
Proof.
  intros (env & stage & Hg).
  destruct (generateGraph_spec env stage) as (ids & k & warp & Hg' & Hw & _).
  cbv zeta in Hg'. rewrite Hg in Hg'. injection Hg' as Hn He Hs Hd.
  by exists ids, warp, env, k, stage.
Qed.

Lemma generated_potential state e :
  generated_map state -> e ∈ edges state ->
  0 <= weight e + 5 * (progressOf (to e) - progressOf (from e))
  /\ weight e <= 1000000.
Proof.
  intros (ids & warp & env & k & stage & _ & He & _ & _ & Hw)%generated_map_shape.
  rewrite He. intros [Hin|Hin]%elem_of_app.
  - apply adjacency_progress in Hin as (-> & _ & Hd & _). lia.
  - destruct (warp_progress _ _ _ _ _ _ Hw Hin) as (_ & _ & -> & _ & _ & Hd & _).
    lia.
Qed.

Lemma generated_goal state :
  generated_map state ->
  endNodeId state ∈ node_ids (nodes state)
  /\ startNodeId state <> endNodeId state.
Proof.
  intros (ids & warp & env & k & stage & -> & _ & -> & -> & _)%generated_map_shape.
  split; [apply generated_ids; unfold GRID_SIZE; lia|].
  by vm_compute.
Qed.

(** Road blocks and towers only raise weights, so the reversed dynamic
    graph of a generated map has no negative cycle. *)
Lemma in_game_no_negative_cycle state rbs towers dyn :
  generated_map state ->
  mapM (dynamicEdge (nodes state) rbs towers) (edges state) = Some dyn ->
  no_negative_cycle (graph_edges (nodes state) (reverseEdge <$> dyn)).
Proof.
  intros Hgen Hdyn v vs c Hw.
  assert (Hpot : forall e, e ∈ graph_edges (nodes state) (reverseEdge <$> dyn) ->
            0 <= weight e + 5 * ((fun v => - progressOf v) (to e)
                                 - (fun v => - progressOf v) (from e))).
  { intros e' He'. apply G_in in He' as (He' & _).
    apply list_elem_of_fmap in He' as (d & -> & Hd).
    destruct (dynamicEdges_elem _ _ _ _ _ _ Hdyn Hd) as (e & He & Hed).
    apply dynamicEdge_fields in Hed as (Hf & Ht & _ & Hwt).
    destruct (generated_potential state e Hgen He) as [Hp Hmax].
    specialize (Hwt Hmax). simpl. rewrite Hf, Ht. lia. }
  pose proof (walk_potential (fun v => - progressOf v) _ _ _ _ _ Hpot Hw). lia.
Qed.

Lemma toEnd_flag state rbs towers dyn :
  generated_map state ->
  mapM (dynamicEdge (nodes state) rbs towers) (edges state) = Some dyn ->
  Graph.hasNegativeCycle (toEnd state dyn) = false
  /\ (forall v d, Graph.distances (toEnd state dyn) !! v = Some d ->
        true_distance (graph_edges (nodes state) (reverseEdge <$> dyn))
                      (endNodeId state) v d)
  /\ Graph.predecessors (toEnd state dyn) !! endNodeId state = Some None.
Proof.
  intros Hgen Hdyn. unfold toEnd.
  destruct (generated_goal state Hgen) as [Hend _].
  pose proof (in_game_no_negative_cycle _ _ _ _ Hgen Hdyn) as Hnn.
  pose proof (bellmanFord_general (nodes state) (reverseEdge <$> dyn)
                (endNodeId state)) as Hgen'.
  cbv zeta in Hgen'. rewrite (absorb_source _ _ Hend) in Hgen'.
  destruct Hgen' as (Hs & Hall & Hflag).
  { exact Hnn. }
  { intros vs w v. by apply simple_walk_length. }
  split; [done|]. split; [by apply final_distance|].
  by apply bellmanFord_source_null.
Qed.

(** X9.  On a generated map, whatever towers and road blocks stand on it,
    a tick in play takes exactly one life for each enemy that stood on the
    goal node when the tick began, and the returned state is [game_over]
    exactly when a life was lost and none is left. *)
Theorem goal_costs_one_life env state dt state' :
  status state = playing -> generated_map state ->
  updateGame env state dt = Some state' ->
  lives state'
  = lives state
    - Z.of_nat (length (standingOn (endNodeId state) (enemies state)))
  /\ (status state' = game_over <->
        lives state' < lives state /\ lives state' <= 0).
Proof.
  intros Hst Hgen Hup.
  destruct (tick_phases env state dt state' (or_introl Hst) Hup)
    as (dyn & st' & ts' & es0 & k & es1 & l' & s' & ps1 & es2 & m' & t' & ps2
        & k' & Hdyn & Hspawn & Hmove & Hproj & Hfire & ->).
  destruct (toEnd_flag _ _ _ _ Hgen Hdyn) as (_ & _ & Hnull).
  pose proof (moveEnemies_lives _ _ _ _ _ _ Hnull _ _ _ _ _ Hmove) as Hl.
  destruct (moveEnemies_status _ _ _ _ _ _ _ _ _ _ _ Hmove) as [Hle Hs].
  destruct (generated_goal state Hgen) as [_ Hne].
  assert (Hcount : standingOn (endNodeId state) es0
                   = standingOn (endNodeId state) (enemies state)).
  { destruct (spawn_cases _ _ _ _ _ _ _ Hspawn)
      as [[-> _]|(new & -> & _ & _ & _ & _ & Hcur & _)]; [done|].
    unfold standingOn. rewrite List.filter_app. cbn [List.filter].
    rewrite Hcur. rewrite (proj2 (String.eqb_neq _ _) Hne).
    by rewrite app_nil_r. }
  rewrite Hcount in Hl. cbn [lives status]. split; [done|].
  rewrite Hst in Hs. rewrite Hs. unfold waveDone.
  destruct ((l' <? lives state) && (l' <=? 0)) eqn:Hb.
  - rewrite andb_false_r. apply andb_true_iff in Hb as [H1 H2].
    split; [lia|done].
  - split.
    + intros H. destruct (_ && _ && _); [|done].
      by destruct (_ <=? _).
    + intros [H1 H2]. apply andb_false_iff in Hb as [Hb|Hb]; lia.
Qed.

Lemma opening_state_generated : generated_map opening_state.
Proof. exists sample_env, 1. vm_compute. reflexivity. Defined.

Lemma goal_costs_one_life_witness :
  exists state',
    status arrived_state = playing /\ generated_map arrived_state
    /\ updateGame sample_env arrived_state 16 = Some state'
    /\ lives arrived_state = 20 /\ lives state' = 19
    /\ status state' = playing.
Proof.
  eexists.
  assert (H1 : status arrived_state = playing) by reflexivity.
  assert (H2 : generated_map arrived_state) by exact opening_state_generated.
  assert (H3 : updateGame sample_env arrived_state 16
               = Some (default road_state
                         (updateGame sample_env arrived_state 16))).
  { vm_compute. reflexivity. }
  split; [exact H1|]. split; [exact H2|]. split; [exact H3|].
  split; [reflexivity|].
  destruct (goal_costs_one_life sample_env arrived_state 16 _ H1 H2 H3)
    as [Hl Hs].
  split; [rewrite Hl; vm_compute; reflexivity|].
  vm_compute. reflexivity.
Defined.

End Pathfinding.

Module Impacts.

Import Engine EngineSpec TickSpec Weights TickPhases Samples.

Lemma sameButHp_refl e : sameButHp e e.
Proof. by destruct e. Qed.

Lemma sameButHp_trans e1 e2 e3 :
  sameButHp e1 e2 -> sameButHp e2 e3 -> sameButHp e1 e3.
Proof.
  unfold sameButHp. intros H12 H23. rewrite H23. rewrite H12. simpl. done.
Qed.

Lemma hitIf_refl P e : hitIf P e e.
Proof. split; [apply sameButHp_refl|intros _; apply Qle_refl]. Qed.

Lemma hitIf_trans (P Q : Prop) e1 e2 e3 :
  hitIf P e1 e2 -> hitIf Q e2 e3 -> hitIf (P /\ Q) e1 e3.
Proof.
  intros [H1 H2] [H3 H4]. split; [by eapply sameButHp_trans|].
  intros [HP HQ]. eapply Qle_trans; [by apply H4|by apply H2].
Qed.

Lemma hitIf_weaken (P Q : Prop) e e' : (Q -> P) -> hitIf P e e' -> hitIf Q e e'.
Proof. intros HQP [H1 H2]. split; auto. Qed.

Lemma Forall2_hitIf_refl P es : Forall2 (hitIf P) es es.
Proof. induction es; constructor; [apply hitIf_refl|done]. Qed.

Lemma Forall2_hitIf_trans (P Q : Prop) es1 es2 es3 :
  Forall2 (hitIf P) es1 es2 -> Forall2 (hitIf Q) es2 es3 ->
  Forall2 (hitIf (P /\ Q)) es1 es3.
Proof.
  intros H12. revert es3. induction H12 as [|e1 e2 es1 es2 H _ IH];
    intros es3 H23; inversion H23; subst; constructor.
  - by eapply hitIf_trans.
  - by apply IH.
Qed.

Lemma damageEnemy_hitIf damage e :
  hitIf (0 <= damage) e (damageEnemy damage e).
Proof.
  split; [done|]. intros Hd. simpl.
  assert (0 <= inject_Z damage)%Q
    by (change 0%Q with (inject_Z 0); by rewrite <- Zle_Qle).
  lra.
Qed.

Lemma areaDamage_hitIf p aoe es : forall money,
  Forall2 (hitIf (0 <= p_damage p)) es (areaDamage p aoe es money).1.
Proof.
  induction es as [|e es IH]; intros money; simpl; [constructor|].
  destruct (Qleb _ _);
    match goal with
    | |- context [areaDamage p aoe es ?m] =>
        specialize (IH m); destruct (areaDamage p aoe es m) as [rest m']
    end; simpl in *; constructor; try done.
  - apply damageEnemy_hitIf.
  - apply hitIf_refl.
Qed.

Lemma damageTarget_hitIf targetId damage es :
  Forall2 (hitIf (0 <= damage)) es (damageTarget targetId damage es).
Proof.
  induction es as [|e es IH]; simpl; [constructor|].
  destruct (String.eqb _ _); constructor; try done.
  - apply damageEnemy_hitIf.
  - apply Forall2_hitIf_refl.
  - apply hitIf_refl.
Qed.

Lemma moveProjectile_hitIf dt es money p :
  Forall2 (hitIf (0 <= p_damage p)) es (moveProjectile dt es money p).1.2.
Proof.
  unfold moveProjectile.
  destruct (List.find _ es) as [target|]; [|apply Forall2_hitIf_refl].
  destruct (Qltb _ 5); [|apply Forall2_hitIf_refl].
  destruct (truthy_number (p_aoe p)).
  - pose proof (areaDamage_hitIf p (default 0 (p_aoe p)) es money) as H.
    by destruct (areaDamage _ _ es money).
  - simpl. apply damageTarget_hitIf.
Qed.

Lemma Forall2_hitIf_ids P es es' :
  Forall2 (hitIf P) es es' -> e_id <$> es' = e_id <$> es.
Proof.
  induction 1 as [|e e' es es' [H _] _ IH]; [done|].
  rewrite !fmap_cons, IH. f_equal. by rewrite H.
Qed.

Lemma id_present (es : list Enemy) (targetId : string) :
  (exists e, e ∈ es /\ e_id e = targetId) <-> targetId ∈ e_id <$> es.
Proof.
  rewrite list_elem_of_fmap. split; intros (e & H1 & H2); exists e; by split.
Qed.

(** What is kept of a projectile, and where its target stands. *)
Lemma moveProjectile_kept dt es money p p' :
  (moveProjectile dt es money p).1.1 = Some p' ->
  p_id p' = p_id p /\ p_targetId p' = p_targetId p
  /\ p_speed p' = p_speed p /\ p_damage p' = p_damage p
  /\ p_aoe p' = p_aoe p
  /\ (moveProjectile dt es money p).1.2 = es
  /\ (moveProjectile dt es money p).2 = money
  /\ exists target,
       List.find (fun e => String.eqb (e_id e) (p_targetId p)) es = Some target
       /\ (5 <= distance (e_x target) (e_y target) (p_x p) (p_y p))%Q.
Proof.
  unfold moveProjectile.
  destruct (List.find _ es) as [target|] eqn:Hfind; [|done].
  destruct (Qltb _ 5) eqn:Hnear.
  - destruct (truthy_number (p_aoe p)); [|done].
    by destruct (areaDamage _ _ es money).
  - simpl. intros H. injection H as <-. simpl. split_and!; try done.
    exists target. split; [done|].
    unfold Qltb in Hnear. apply negb_false_iff, Qle_bool_iff in Hnear.
    exact Hnear.
Qed.

(** The projectile phase on the enemies and on the projectiles kept. *)
Lemma moveProjectiles_hitIf dt ps :
  forall es money ps' es' money',
  moveProjectiles dt es money ps = (ps', es', money') ->
  Forall2 (hitIf (Forall (fun p => 0 <= p_damage p) ps)) es es'
  /\ Forall (fun p' =>
       (exists p, p ∈ ps /\ p_id p' = p_id p /\ p_targetId p' = p_targetId p
                  /\ p_speed p' = p_speed p /\ p_damage p' = p_damage p
                  /\ p_aoe p' = p_aoe p)
       /\ exists e, e ∈ es' /\ e_id e = p_targetId p') ps'.
Proof.
  induction ps as [|p ps IH]; intros es money ps' es' money' H; simpl in H.
  - injection H as <- <- _. split; [apply Forall2_hitIf_refl|done].
  - pose proof (moveProjectile_hitIf dt es money p) as H1.
    pose proof (moveProjectile_kept dt es money p) as Hk.
    destruct (moveProjectile dt es money p) as [[kept es1] m1]. simpl in H1, Hk.
    destruct (moveProjectiles dt es1 m1 ps) as [[rest es2] m2] eqn:Hrest.
    injection H as <- <- _.
    destruct (IH _ _ _ _ _ Hrest) as (H2 & Hps).
    pose proof (Forall2_hitIf_trans _ _ _ _ _ H1 H2) as H12.
    split.
    { eapply Forall2_impl; [exact H12|]. intros e e'.
      apply hitIf_weaken. intros [? ?]%Forall_cons. done. }
    assert (Hrest' : Forall (fun p' =>
       (exists p0, p0 ∈ p :: ps /\ p_id p' = p_id p0
                  /\ p_targetId p' = p_targetId p0
                  /\ p_speed p' = p_speed p0 /\ p_damage p' = p_damage p0
                  /\ p_aoe p' = p_aoe p0)
       /\ exists e, e ∈ es2 /\ e_id e = p_targetId p') rest).
    { eapply Forall_impl; [exact Hps|]. intros p' [(p0 & Hin & Hf) He].
      split; [|done]. exists p0. split; [by right|done]. }
    destruct kept as [p'|]; [|done]. constructor; [|done].
    destruct (Hk p' eq_refl) as (Hid & Htg & Hsp & Hdm & Hao & -> & _ & target
                                 & Hfind & _).
    split; [exists p; split; [left|done]|].
    apply id_present. rewrite (Forall2_hitIf_ids _ _ _ H2).
    apply id_present. exists target.
    apply find_some in Hfind as [Hin Heq].
    split; [by apply list_elem_of_In|]. rewrite Htg. by apply String.eqb_eq.
Qed.

(** X11.  The projectile phase never removes, adds or reorders enemies:
    the enemies after the phase are the enemies before it, in order, each
    with the same fields except hit points, and when no projectile carries
    a negative damage no hit points grow.  A projectile that stays in
    flight keeps its id, target, speed, damage and area, and its target is
    among the enemies. *)
Theorem projectile_phase_keeps_enemies dt ps es money ps' es' money' :
  moveProjectiles dt es money ps = (ps', es', money') ->
  Forall2 sameButHp es es'
  /\ (Forall (fun p => 0 <= p_damage p) ps -> Forall2 hitBy es es')
  /\ Forall (fun p' =>
       (exists p, p ∈ ps /\ p_id p' = p_id p /\ p_targetId p' = p_targetId p
                  /\ p_speed p' = p_speed p /\ p_damage p' = p_damage p
                  /\ p_aoe p' = p_aoe p)
       /\ exists e, e ∈ es' /\ e_id e = p_targetId p') ps'.
Proof.
  intros H. destruct (moveProjectiles_hitIf _ _ _ _ _ _ _ H) as [H1 H2].
  split_and!; [| |done].
  - eapply Forall2_impl; [exact H1|]. by intros e e' [? _].
  - intros Hd. eapply Forall2_impl; [exact H1|]. intros e e'.
    by apply hitIf_weaken.
Qed.

Lemma projectile_phase_keeps_enemies_witness :
  moveProjectiles 16 [enemy_at_a 60 8] 800 [shot "p1" 10]
  = ([], [enemy_at_a 50 8], 800)
  /\ Forall2 sameButHp [enemy_at_a 60 8] [enemy_at_a 50 8].
Proof.
  assert (H : moveProjectiles 16 [enemy_at_a 60 8] 800 [shot "p1" 10]
              = ([], [enemy_at_a 50 8], 800)) by (vm_compute; reflexivity).
  split; [exact H|].
  exact (proj1 (projectile_phase_keeps_enemies _ _ _ _ _ _ _ H)).
Defined.

End Impacts.

Module Towers.

Import Engine EngineSpec TickSpec Weights TickPhases Samples MoreSamples
  Impacts Pathfinding.
Import Graph(from, to, weight, isWarp).
Import Spec BellmanFord Generated PathEngine Paths.

Lemma findTarget_spec towerNode range es target :
  findTarget towerNode range es = Some (Some target) ->
  exists tn, towerNode = Some tn /\ target ∈ es
    /\ (distance (e_x target) (e_y target)
                 (inject_Z (Graph.x tn)) (inject_Z (Graph.y tn))
        <= inject_Z range)%Q.
Proof.
  unfold findTarget. destruct es as [|e es]; [done|].
  destruct towerNode as [tn|]; [|done]. simpl. intros H. injection H as H.
  exists tn. split; [done|].
  change (List.find (fun e0 => Qleb (distance (e_x e0) (e_y e0)
                                 (inject_Z (Graph.x tn)) (inject_Z (Graph.y tn)))
                                 (inject_Z range)) (e :: es) = Some target) in H.
  apply find_some in H as [Hin Hle].
  split; [by apply list_elem_of_In|]. by apply Qle_bool_iff.
Qed.

(** What the shooting loop does to the towers and to the projectiles. *)
Lemma fireTowers_effect env now nodes es ts :
  forall ps k ts' ps' k',
  fireTowers env now nodes es ts ps k = Some (ts', ps', k') ->
  Forall2 (fun t t' => t_nodeId t' = t_nodeId t /\ t_tier t' = t_tier t
                       /\ t_cost t' = t_cost t) ts ts'
  /\ exists new,
       ps' = (ps ++ new)%list
       /\ Forall (fun p => exists e, e ∈ es /\ e_id e = p_targetId p) new.
Proof.
  induction ts as [|t ts IH]; intros ps k ts' ps' k' H; simpl in H.
  - injection H as <- <- _. split; [constructor|].
    exists []. by rewrite app_nil_r.
  - assert (Hskip : forall r,
              (fireTowers env now nodes es ts ps k
                 ≫= (fun '(rest', ps', k') => Some (t :: rest', ps', k')))
              = Some r -> r = (ts', ps', k') ->
              Forall2 (fun t t' => t_nodeId t' = t_nodeId t
                                   /\ t_tier t' = t_tier t
                                   /\ t_cost t' = t_cost t) (t :: ts) ts'
              /\ exists new,
                   ps' = (ps ++ new)%list
                   /\ Forall (fun p => exists e, e ∈ es
                                 /\ e_id e = p_targetId p) new).
    { intros r Hr ->.
      destruct (fireTowers _ _ _ _ ts _ _) as [[[rest ps1] k1]|] eqn:Hrest;
        simpl in Hr; [|done].
      injection Hr as <- <- _.
      destruct (IH _ _ _ _ _ Hrest) as (Hts & new & -> & Hnew).
      split; [by constructor|]. by exists new. }
    destruct (t_fireRate t <? now - t_lastFired t); [|by eapply Hskip].
    destruct (findTarget _ (t_range t) es) as [[target|]|] eqn:Htarget;
      simpl in H; [| |done]; [|by eapply Hskip].
    destruct (findNode nodes (t_nodeId t)) as [tn|] eqn:Htn;
      simpl in H; [|done].
    destruct (fireTowers _ _ _ _ ts _ _) as [[[rest ps1] k1]|] eqn:Hrest;
      simpl in H; [|done].
    injection H as <- <- _.
    destruct (IH _ _ _ _ _ Hrest) as (Hts & new & -> & Hnew).
    split; [by constructor|].
    eexists (_ :: new). split; [by rewrite <- app_assoc|].
    constructor; [|done].
    destruct (findTarget_spec _ _ _ _ Htarget) as (tn' & _ & Hin & _).
    by exists target.
Qed.

(** X12.  The shooting loop keeps the towers in order, each unchanged or
    with [lastFired] set to the clock reading; a tower fires only when its
    cooldown has elapsed, at most once, and its projectile starts on the
    node of the tower, flies at speed 300, carries the damage and area of
    the tower and is aimed at an enemy within range; the projectiles
    already in flight stay at the front of the list in order; with no
    enemy nothing is fired. *)
Theorem fireTowers_spec env now nodes es ts :
  forall ps k ts' ps' k',
  fireTowers env now nodes es ts ps k = Some (ts', ps', k') ->
  exists shots : list (option Projectile),
    Forall3 (fun t t' shot =>
               match shot with
               | None => t' = t
               | Some p => firedAt now t t' /\ shotOf nodes es now t p
               end) ts ts' shots
    /\ ps' = (ps ++ omap (fun shot => shot) shots)%list
    /\ (es = [] -> ts' = ts /\ ps' = ps).
Proof.
  induction ts as [|t ts IH]; intros ps k ts' ps' k' H; simpl in H.
  - injection H as <- <- _. exists []. split; [constructor|].
    by rewrite app_nil_r.
  - destruct (t_fireRate t <? now - t_lastFired t) eqn:Hcool.
    + destruct (findTarget _ (t_range t) es) as [[target|]|] eqn:Htarget;
        simpl in H; [| |done].
      * destruct (findNode nodes (t_nodeId t)) as [tn|] eqn:Htn;
          simpl in H; [|done].
        destruct (fireTowers _ _ _ _ ts _ _) as [[[rest ps1] k1]|] eqn:Hrest;
          simpl in H; [|done].
        injection H as <- <- _.
        destruct (IH _ _ _ _ _ Hrest) as (shots & Hall & -> & Hnone).
        exists (Some (mkProjectile (random_id (random env k))
                        (inject_Z (Graph.x tn)) (inject_Z (Graph.y tn))
                        (e_id target) 300 (t_damage t) (t_aoe t)) :: shots).
        split; [constructor; [|exact Hall]|].
        -- split; [done|].
           destruct (findTarget_spec _ _ _ _ Htarget) as (tn' & Heq & Hin & Hd).
           injection Heq as <-.
           exists tn, target. simpl. split_and!; try done. lia.
        -- split; [by rewrite <- app_assoc|].
           intros ->. by destruct (findNode nodes (t_nodeId t)).
      * destruct (fireTowers _ _ _ _ ts _ _) as [[[rest ps1] k1]|] eqn:Hrest;
          simpl in H; [|done].
        injection H as <- <- _.
        destruct (IH _ _ _ _ _ Hrest) as (shots & Hall & -> & Hnone).
        exists (None :: shots). split; [by constructor|]. split; [done|].
        intros Hes. destruct (Hnone Hes) as [-> ?]. done.
    + destruct (fireTowers _ _ _ _ ts _ _) as [[[rest ps1] k1]|] eqn:Hrest;
        simpl in H; [|done].
      injection H as <- <- _.
      destruct (IH _ _ _ _ _ Hrest) as (shots & Hall & -> & Hnone).
      exists (None :: shots). split; [by constructor|]. split; [done|].
      intros Hes. destruct (Hnone Hes) as [-> ?]. done.
Qed.

Lemma fireTowers_spec_witness :
  fireTowers later_env 1000 road_nodes [enemy_at_a 60 8]
             [newTower sample_env "c"] [] 0
  = Some ([mkTower "r" "c" T_basic 10 120 800 1000 100 1 None],
          [mkProjectile "r" 40 100 "e1" 300 10 None], 1%nat)
  /\ exists shots : list (option Projectile),
       Forall3 (fun t t' shot =>
                  match shot with
                  | None => t' = t
                  | Some p =>
                      firedAt 1000 t t'
                      /\ shotOf road_nodes [enemy_at_a 60 8] 1000 t p
                  end)
               [newTower sample_env "c"]
               [mkTower "r" "c" T_basic 10 120 800 1000 100 1 None]
               shots
       /\ [mkProjectile "r" 40 100 "e1" 300 10 None]
          = ([] ++ omap (fun shot => shot) shots)%list
       /\ ([enemy_at_a 60 8] = [] ->
           [mkTower "r" "c" T_basic 10 120 800 1000 100 1 None]
           = [newTower sample_env "c"]
           /\ [mkProjectile "r" 40 100 "e1" 300 10 None] = []).
Proof.
  assert (H : fireTowers later_env 1000 road_nodes [enemy_at_a 60 8]
                [newTower sample_env "c"] [] 0
              = Some ([mkTower "r" "c" T_basic 10 120 800 1000 100 1
                               None],
                      [mkProjectile "r" 40 100 "e1" 300 10 None],
                      1%nat)).
  { vm_compute. reflexivity. }
  split; [exact H|]. exact (fireTowers_spec _ _ _ _ _ _ _ _ _ _ H).
Defined.

End Towers.

Module Play.

Import Engine EngineSpec TickSpec Weights TickPhases Samples MoreSamples
  Impacts Pathfinding Towers.
Import Graph(from, to, weight, isWarp).
Import Spec PathSpec BellmanFord Generated PathEngine Paths.


(** A predecessor of the table [toEnd] is the far end of an edge of the
    map. *)
Lemma toEnd_pred_edge state rbs towers dyn u v :
  mapM (dynamicEdge (nodes state) rbs towers) (edges state) = Some dyn ->
  Graph.predecessors (toEnd state dyn) !! u = Some (Some v) ->
  exists e d, e ∈ edges state /\ d ∈ dyn
    /\ dynamicEdge (nodes state) rbs towers e = Some d
    /\ from e = u /\ to e = v /\ from d = u /\ to d = v.
Proof.
  intros Hdyn Hp.
  destruct (bellmanFord_pred_edges _ _ _ _ _ Hp)
    as (r & _ & _ & Hr & Hf & Ht & _).
  apply list_elem_of_fmap in Hr as (d & -> & Hd).
  destruct (dynamicEdges_elem _ _ _ _ _ _ Hdyn Hd) as (e & He & Hed).
  pose proof (dynamicEdge_fields _ _ _ _ _ Hed) as (Hdf & Hdt & _).
  simpl in Hf, Ht. exists e, d. split_and!; try done; congruence.
Qed.






(** X14.  After a tick in play every projectile in flight is aimed at an
    enemy that is present: a projectile whose target is gone is dropped,
    impacts remove no enemy, and towers fire at enemies of the list. *)
Theorem projectiles_target_present env state dt state' :
  status state = playing ->
  updateGame env state dt = Some state' ->
  forall p, p ∈ projectiles state' ->
    exists e, e ∈ enemies state' /\ e_id e = p_targetId p.
Proof.
  intros Hst Hup.
  destruct (tick_phases env state dt state' (or_introl Hst) Hup)
    as (dyn & st' & ts' & es0 & k & es1 & l' & s' & ps1 & es2 & m' & t' & ps2
        & k' & Hdyn & Hspawn & Hmove & Hproj & Hfire & ->).
  cbn [projectiles enemies].
  destruct (moveProjectiles_hitIf _ _ _ _ _ _ _ Hproj) as [_ Hkept].
  destruct (fireTowers_effect _ _ _ _ _ _ _ _ _ _ Hfire)
    as (_ & new & -> & Hnew).
  intros p [Hp|Hp]%elem_of_app.
  - apply (proj1 (Forall_forall _ _) Hkept) in Hp as [_ He]. exact He.
  - by apply (proj1 (Forall_forall _ _) Hnew) in Hp.
Qed.

Lemma projectiles_target_present_witness :
  exists state',
    status armed_state = playing
    /\ updateGame later_env armed_state 1001 = Some state'
    /\ p_targetId <$> projectiles state' = ["9"]
    /\ forall p, p ∈ projectiles state' ->
         exists e, e ∈ enemies state' /\ e_id e = p_targetId p.
Proof.
  eexists.
  assert (H1 : status armed_state = playing) by (vm_compute; reflexivity).
  assert (H2 : updateGame later_env armed_state 1001
               = Some (default road_state
                         (updateGame later_env armed_state 1001))).
  { vm_compute. reflexivity. }
  split; [exact H1|]. split; [exact H2|]. split; [vm_compute; reflexivity|].
  exact (projectiles_target_present later_env armed_state 1001 _ H1 H2).
Defined.

End Play.

(** * Dead enemies *)

Module Casualties.

Import Engine EngineSpec TickSpec Weights TickPhases Samples MoreSamples
  Impacts Pathfinding Towers Play.






End Casualties.

Module Sessions.

Import Engine EngineSpec TickSpec Weights TickPhases Samples MoreSamples
  Impacts Pathfinding Towers Play.
Import Graph(from, to, weight, isWarp, markPath, initial_nodes,
  adjacencyEdges, warpEdges, node_id, GRID_SIZE).
Import Spec PathSpec BellmanFord Generated PathEngine Paths GridShape.

Lemma findNode_Some nodes i n :
  findNode nodes i = Some n -> n ∈ nodes /\ Graph.id n = i.
Proof.
  unfold findNode. intros [Hin Heq]%find_some.
  split; [by apply list_elem_of_In|by apply String.eqb_eq].
Qed.

(** *** Walkable nodes of a generated map *)

Lemma walkable_generated ids i :
  i ∈ ids -> i ∈ node_ids (markPath ids <$> initial_nodes) ->
  walkable (markPath ids <$> initial_nodes) i.
Proof.
  intros Hi Hn.
  assert (is_Some (findNode (markPath ids <$> initial_nodes) i)) as [n Hf].
  { apply Totality.findNode_is_Some. by apply elem_of_list_to_set in Hn. }
  exists n. split; [done|].
  apply findNode_Some in Hf as [Hin <-].
  by apply (generated_walkable ids n Hin).
Qed.

Lemma generated_edge_ids env k stage ids warp e :
  warpEdges env k stage (markPath ids <$> initial_nodes) = Some warp ->
  e ∈ (adjacencyEdges ids ++ warp)%list ->
  (from e ∈ ids /\ from e ∈ node_ids (markPath ids <$> initial_nodes))
  /\ (to e ∈ ids /\ to e ∈ node_ids (markPath ids <$> initial_nodes)).
Proof.
  intros Hw [He|He]%elem_of_app.
  - pose proof He as He'.
    apply adjacency_progress in He' as (_ & _ & _ & Hf & Ht).
    apply adjacencyEdges_spec in He
      as (cx & cy & nx & ny & _ & _ & _ & _ & _ & Hc & Hn & [-> | ->]);
      simpl in *; done.
  - destruct (warp_progress _ _ _ _ _ _ Hw He) as (_ & _ & _ & _ & _ & _ & Hf & Ht).
    destruct (warpEdges_walkable _ _ _ _ _ _ Hw He)
      as (a & b & Ha & Hb & Hap & Hbp & _ & -> & _).
    simpl in *.
    apply (generated_walkable ids a Ha) in Hap.
    apply (generated_walkable ids b Hb) in Hbp. done.
Qed.

Lemma generated_edges_walkable env stage g e :
  Graph.generateGraph env stage = Some g -> e ∈ Graph.edges g ->
  walkable (Graph.nodes g) (from e) /\ walkable (Graph.nodes g) (to e).
Proof.
  intros Hg He.
  destruct (generateGraph_spec env stage) as (ids & k & warp & Hg' & Hw & _).
  cbv zeta in Hg'. rewrite Hg in Hg'. injection Hg' as ->.
  cbn [Graph.nodes Graph.edges] in *.
  destruct (generated_edge_ids _ _ _ _ _ _ Hw He) as [[? ?] [? ?]].
  split; by apply walkable_generated.
Qed.

Lemma generated_start_walkable env stage g :
  Graph.generateGraph env stage = Some g -> 1 <= stage ->
  walkable (Graph.nodes g) (Graph.startNodeId g).
Proof.
  intros Hg Hst.
  destruct (generateGraph_spec env stage) as (ids & k & warp & Hg' & Hw & Hc).
  cbv zeta in Hg'. rewrite Hg in Hg'. injection Hg' as ->.
  cbn [Graph.nodes Graph.startNodeId].
  apply walkable_generated; [|apply generated_ids; unfold GRID_SIZE; lia].
  specialize (Hc Hst). inversion Hc; done.
Qed.

(** *** The invariant is kept by every command *)

Lemma NoDup_fmap_filter {A B} (f : A -> B) (P : A -> bool) (l : list A) :
  NoDup (f <$> l) -> NoDup (f <$> List.filter P l).
Proof.
  induction l as [|a l IH]; [done|]. rewrite fmap_cons.
  intros [Hnin Hnd]%NoDup_cons. simpl. destruct (P a); [|by apply IH].
  rewrite fmap_cons. apply NoDup_cons. split; [|by apply IH].
  intros (b & Hab & Hin)%list_elem_of_fmap. apply Hnin.
  apply list_elem_of_fmap. exists b. split; [done|].
  apply list_elem_of_In. apply list_elem_of_In, filter_In in Hin as [Hin _].
  done.
Qed.

Lemma Forall_filter_keep {A} (Q : A -> Prop) (P : A -> bool) (l : list A) :
  Forall Q l -> Forall Q (List.filter P l).
Proof.
  intros H. apply Forall_forall. intros a Ha.
  apply list_elem_of_In, filter_In in Ha as [Ha _].
  by apply (proj1 (Forall_forall _ _) H), list_elem_of_In.
Qed.

Lemma initGameState_playable env state :
  initGameState env = Some state -> playable state.
Proof.
  unfold initGameState.
  destruct (Graph.generateGraph env 1) as [g|] eqn:Hg; [|done].
  simpl. intros H. injection H as <-.
  constructor; simpl; try done; try lia; try constructor.
  exists env. rewrite Hg. by destruct g.
Qed.

Lemma startNextWave_playable env state state' :
  playable state -> startNextWave env state = Some state' -> playable state'.
Proof.
  intros [] H. unfold startNextWave in H.
  destruct (maxWavesPerStage state <=? wave state) eqn:Hw.
  - destruct (Graph.generateGraph env (stage state + 1)) as [g|] eqn:Hg;
      [|done].
    simpl in H. injection H as <-.
    constructor; simpl; try done; try lia; try constructor.
    exists env. rewrite Hg. by destruct g.
  - injection H as <-. apply Z.leb_gt in Hw.
    constructor; simpl; try done; lia.
Qed.

Lemma togglePause_playable state :
  playable state -> playable (App.togglePause state).
Proof.
  intros []. constructor; simpl; try done.
  by destruct (status state).
Qed.

Lemma placeTower_playable env state nodeId :
  playable state -> playable (placeTower env state nodeId).
Proof.
  intros Hp. unfold placeTower.
  destruct (findNode (nodes state) nodeId) as [node|] eqn:Hnode; [|done].
  destruct (Graph.isPath node) eqn:Hpath; [done|].
  destruct (money state <? 100); [done|]. cbn [orb].
  destruct (List.find _ (towers state)) eqn:Hfind; [done|].
  destruct Hp. constructor; simpl; try done.
  - rewrite fmap_app. apply NoDup_app. split; [done|]. split.
    + intros i (t & -> & Ht)%list_elem_of_fmap Hin. simpl in Hin.
      apply list_elem_of_singleton in Hin.
      eapply find_none in Hfind; [|by apply list_elem_of_In].
      apply String.eqb_neq in Hfind. done.
    + simpl. apply NoDup_singleton.
  - apply Forall_app. split; [done|]. constructor; [|constructor].
    simpl. split; [by exists node|]. split; [lia|done].
Qed.

Lemma placeRoadBlock_playable env state nodeId :
  playable state -> playable (placeRoadBlock env state nodeId).
Proof.
  intros Hp. unfold placeRoadBlock.
  destruct (findNode (nodes state) nodeId) as [node|] eqn:Hnode; [|done].
  destruct (Graph.isPath node) eqn:Hpath; [|done].
  destruct (money state <? 50); [done|]. cbn [negb orb].
  destruct (List.find _ (roadBlocks state)) eqn:Hfind; [done|].
  destruct Hp. constructor; simpl; try done.
  - rewrite fmap_app. apply NoDup_app. split; [done|]. split.
    + intros i (t & -> & Ht)%list_elem_of_fmap Hin. simpl in Hin.
      apply list_elem_of_singleton in Hin.
      eapply find_none in Hfind; [|by apply list_elem_of_In].
      apply String.eqb_neq in Hfind. done.
    + simpl. apply NoDup_singleton.
  - apply Forall_app. split; [done|]. constructor; [|constructor].
    simpl. by exists node.
Qed.

Lemma upgradeTower_playable state towerId upgradeType :
  playable state -> playable (upgradeTower state towerId upgradeType).
Proof.
  intros Hp. unfold upgradeTower.
  destruct (findIndex _ (towers state)) as [i|]; [|done].
  destruct (money state <? 200); [done|].
  destruct (towers state !! i) as [tower|] eqn:Hi; [|done].
  assert (Hkeep : forall t',
            t_nodeId t' = t_nodeId tower ->
            (1 <= t_tier t' <= 3 /\ t_cost t' = towerCost (t_tier t')) ->
            playable
              (mkGameState
                 (nodes state) (edges state) (enemies state)
                 (<[i:=t']> (towers state))
                 (projectiles state) (roadBlocks state)
                 (money state - (if t_tier tower =? 1 then 200 else 400))
                 (lives state) (wave state)
                 (stage state) (maxWavesPerStage state) (status state)
                 (timer state) (spawnTimer state) (enemiesToSpawn state)
                 (startNodeId state) (endNodeId state))).
  { intros t' Hn Ht'. destruct Hp. constructor; simpl; try done.
    - rewrite list_fmap_insert, Hn.
      rewrite list_insert_id; [done|]. by rewrite list_lookup_fmap, Hi.
    - apply Forall_insert; [done|].
      pose proof (proj1 (Forall_lookup _ _) playable_towers0 _ _ Hi)
        as (Hb & _).
      rewrite Hn. done. }
  pose proof (proj1 (Forall_lookup _ _) (playable_towers _ Hp) _ _ Hi)
    as (_ & Htier & Hcost).
  destruct (t_tier tower =? 1) eqn:H1.
  - apply Z.eqb_eq in H1. cbv zeta.
    destruct (money state <? 200); [done|].
    rewrite Hcost, H1.
    destruct upgradeType; apply Hkeep; simpl; (split; [lia|done]) || done.
  - destruct (t_tier tower =? 2) eqn:H2; [|done].
    apply Z.eqb_eq in H2. cbv zeta.
    destruct (money state <? 400); [done|].
    rewrite Hcost, H2.
    destruct (t_type tower); apply Hkeep; simpl; (split; [lia|done]) || done.
Qed.

Lemma playable_timer state timer' :
  playable state ->
  playable
    (mkGameState (nodes state) (edges state) (enemies state) (towers state)
                 (projectiles state) (roadBlocks state)
                 (money state) (lives state) (wave state) (stage state)
                 (maxWavesPerStage state) (status state)
                 timer' (spawnTimer state) (enemiesToSpawn state)
                 (startNodeId state) (endNodeId state)).
Proof. intros []. by constructor. Qed.

Lemma playing_playable env state dt state' :
  status state = playing \/ status state = paused ->
  playable state -> updateGame env state dt = Some state' -> playable state'.
Proof.
  intros Hst Hp Hup.
  destruct (tick_phases env state dt state' Hst Hup)
    as (dyn & st' & ts' & es0 & k & es1 & l' & s' & ps1 & es2 & m' & t' & ps2
        & k' & Hdyn & Hspawn & Hmove & Hproj & Hfire & ->).
  cbv zeta in *.
  destruct (moveEnemies_status _ _ _ _ _ _ _ _ _ _ _ Hmove) as [Hle Hs].
  destruct (moveProjectiles_hitIf _ _ _ _ _ _ _ Hproj) as [Hhit Hkept].
  destruct (fireTowers_effect _ _ _ _ _ _ _ _ _ _ Hfire)
    as (Hts & shots & -> & Hshots).
  destruct (playable_map _ Hp) as [env0 Hg].
  assert (Hes0 : Forall (fun e => walkable (nodes state) (e_currentNodeId e))
                        es0).
  { destruct (spawn_cases _ _ _ _ _ _ _ Hspawn)
      as [[-> _]|(new & -> & _ & _ & _ & _ & Hcur & _)];
      [exact (playable_enemies _ Hp)|].
    apply Forall_app. split; [exact (playable_enemies _ Hp)|].
    constructor; [|constructor]. rewrite Hcur.
    exact (generated_start_walkable _ _ _ Hg (playable_stage _ Hp)). }
  assert (Hes2 : Forall (fun e => walkable (nodes state) (e_currentNodeId e))
                        es2).
  { apply Forall_forall. intros e' He'.
    apply list_elem_of_lookup in He' as [i Hi].
    destruct (Forall2_lookup_r _ _ _ _ _ Hhit Hi) as (e1 & He1 & [Hsame _]).
    apply list_elem_of_lookup_2 in He1.
    destruct (moveEnemies_elem _ _ _ _ _ _ _ _ _ _ _ _ Hmove He1)
      as (e0 & l & s & l1 & s1 & He0 & Hm).
    apply moveEnemy_cases in Hm as (_ & _ & _ & _ & _ & _ & _ & Hcur & _).
    unfold sameButHp in Hsame. rewrite Hsame. cbn [e_currentNodeId].
    destruct Hcur as [->|Hcur].
    - by apply (proj1 (Forall_forall _ _) Hes0).
    - destruct (toEnd_pred_edge _ _ _ _ _ _ Hdyn Hcur)
        as (e & d & He & _ & _ & _ & Ht & _).
      rewrite <- Ht.
      by apply (generated_edges_walkable _ _ _ e Hg). }
  constructor; cbn [nodes edges enemies towers projectiles roadBlocks money
                    lives wave stage maxWavesPerStage status timer spawnTimer
                    enemiesToSpawn startNodeId endNodeId].
  - exact (playable_map _ Hp).
  - exact (playable_stage _ Hp).
  - exact (playable_wave _ Hp).
  - exact (playable_max _ Hp).
  - pose proof (playable_toSpawn _ Hp).
    destruct (spawn_cases _ _ _ _ _ _ _ Hspawn)
      as [[_ ->]|(new & _ & ? & -> & _)]; lia.
  - pose proof (playable_lives _ Hp). lia.
  - intros Hover.
    assert (s' = game_over) as ->.
    { destruct (waveDone es2 ts' s'); [|done].
      by destruct (_ <=? _). }
    destruct ((l' <? lives state) && (l' <=? 0)) eqn:Hb.
    + apply andb_true_iff in Hb as [_ Hb]. lia.
    + destruct Hst as [Hst|Hst]; congruence.
  - assert (Heq : t_nodeId <$> t' = t_nodeId <$> towers state).
    { clear -Hts. induction Hts as [|t t1 ts ts1 (H & _) _ IH]; [done|].
      by rewrite !fmap_cons, IH, H. }
    rewrite Heq. exact (playable_towers_apart _ Hp).
  - pose proof (playable_towers _ Hp) as Hold. clear -Hts Hold.
    induction Hts as [|t t1 ts ts1 (H1 & H2 & H3) _ IH]; [constructor|].
    apply Forall_cons in Hold as [Ht Hold]. constructor; [|by apply IH].
    by rewrite H1, H2, H3.
  - apply NoDup_fmap_filter. exact (playable_blocks_apart _ Hp).
  - apply Forall_filter_keep. exact (playable_blocks _ Hp).
  - exact Hes2.
  - apply Forall_app. split.
    + eapply Forall_impl; [exact Hkept|]. by intros p [_ ?].
    + exact Hshots.
Qed.

Lemma updateGame_playable env state dt state' :
  playable state -> updateGame env state dt = Some state' -> playable state'.
Proof.
  intros Hp Hup.
  assert (Hcount : forall s, status state = s ->
            (if Qleb (timer state - dt) 0
             then startNextWave env
                    (mkGameState
                       (nodes state) (edges state) (enemies state)
                       (towers state) (projectiles state) (roadBlocks state)
                       (money state) (lives state) (wave state) (stage state)
                       (maxWavesPerStage state) s
                       (timer state - dt)%Q (spawnTimer state)
                       (enemiesToSpawn state)
                       (startNodeId state) (endNodeId state))
             else Some
                    (mkGameState
                       (nodes state) (edges state) (enemies state)
                       (towers state) (projectiles state) (roadBlocks state)
                       (money state) (lives state) (wave state) (stage state)
                       (maxWavesPerStage state) s
                       (timer state - dt)%Q (spawnTimer state)
                       (enemiesToSpawn state)
                       (startNodeId state) (endNodeId state))) = Some state' ->
            playable state').
  { intros s <- H. pose proof (playable_timer state (timer state - dt)%Q Hp).
    destruct (Qleb _ 0); [by eapply startNextWave_playable|].
    by injection H as <-. }
  destruct (status state) eqn:Hst; unfold updateGame in Hup;
    rewrite Hst in Hup; cbn [timer] in Hup.
  - by apply (Hcount build_phase).
  - by apply (Hcount wave_countdown).
  - apply (playing_playable env state dt); [by left|done|].
    unfold updateGame. by rewrite Hst.
  - by apply (Hcount stage_transition).
  - by injection Hup as <-.
  - apply (playing_playable env state dt); [by right|done|].
    unfold updateGame. by rewrite Hst.
Qed.

Lemma step_playable state c state' :
  playable state -> App.step state c = Some state' -> playable state'.
Proof.
  intros Hp Hc. destruct c as [env dt|env dt|env n|env n|tid ty|env|];
    simpl in Hc.
  - by eapply updateGame_playable.
  - unfold App.animate in Hc.
    destruct (status state) eqn:Hst;
      try (by eapply updateGame_playable).
    by injection Hc as <-.
  - injection Hc as <-. by apply placeTower_playable.
  - injection Hc as <-. by apply placeRoadBlock_playable.
  - injection Hc as <-. by apply upgradeTower_playable.
  - by eapply startNextWave_playable.
  - injection Hc as <-. by apply togglePause_playable.
Qed.

(** X15.  The invariant of sessions.  In every state a session reaches:
    the map is one that [generateGraph] returns for the stage of the
    state; the stage is at least 1, the wave between 0 and 5 with 5 waves
    per stage, the number of enemies still to spawn is not negative and
    there are at most 20 lives; a state that is [game_over] has no life
    left; towers stand on distinct nodes of the map that are not walkable,
    have a tier from 1 to 3 and a cost of 100, 300 or 700 according to the
    tier; road blocks stand on distinct walkable nodes; every enemy stands
    on a walkable node; every projectile is aimed at an enemy that is
    present.  No session throws. *)
Theorem session_invariant env cs :
  exists state, App.session env cs = Some state /\ playable state.
Proof.
  unfold App.session.
  destruct (Totality.initGameState_wellFormed env) as (s0 & Hinit & Hwf & _).
  rewrite Hinit. apply initGameState_playable in Hinit.
  revert s0 Hwf Hinit. induction cs as [|c cs IH]; intros s0 Hwf Hp; simpl.
  - by exists s0.
  - destruct (Totality.step_total s0 c Hwf) as (s1 & Hstep & Hwf1).
    rewrite Hstep. apply IH; [done|]. by eapply step_playable.
Qed.

Example sample_session :
  exists state,
    App.session sample_env sample_commands = Some state
    /\ status state = playing /\ money state = 450
    /\ t_tier <$> towers state = [2]
    /\ rb_nodeId <$> roadBlocks state = ["node_3_2"]
    /\ e_currentNodeId <$> enemies state = ["node_1_1"; "node_1_0"]
    /\ length (projectiles state) = 1%nat.
Proof. eexists. split; [vm_compute; reflexivity|]. by vm_compute. Qed.

End Sessions.

Module Waves.

Import Engine EngineSpec TickSpec Weights TickPhases Samples MoreSamples
  Impacts Pathfinding Towers Play.

(** X16.  The end of a wave.  After a tick in play the enemies to spawn
    have dropped by at most one, and only when the spawn timer passed
    1000 ms, which resets it; at most one enemy was added.  The wave is
    complete exactly when no enemy is left, nothing is left to spawn and
    the game was not lost in this tick: the status then becomes
    [stage_transition] with a timer of 10000 ms after the last wave of the
    stage, [wave_countdown] with 5000 ms otherwise.  In every other case
    the timer is kept and the status is [playing], or [game_over] when a
    life was lost and none is left. *)
Theorem wave_completion env state dt state' :
  status state = playing ->
  updateGame env state dt = Some state' ->
  let lost := (lives state' <? lives state) && (lives state' <=? 0) in
  let complete :=
    bool_decide (enemies state' = []) && (enemiesToSpawn state' =? 0)
    && negb lost in
  ((enemiesToSpawn state' = enemiesToSpawn state
    /\ (length (enemies state') <= length (enemies state))%nat)
   \/ (0 < enemiesToSpawn state
       /\ enemiesToSpawn state' = enemiesToSpawn state - 1
       /\ (1000 < spawnTimer state + dt)%Q /\ spawnTimer state' = 0%Q
       /\ (length (enemies state') <= S (length (enemies state)))%nat))
  /\ lives state' <= lives state
  /\ status state'
     = (if complete then
          if maxWavesPerStage state <=? wave state
          then stage_transition else wave_countdown
        else if lost then game_over else playing)
  /\ timer state'
     = (if complete then
          if maxWavesPerStage state <=? wave state then 10000%Q else 5000%Q
        else timer state).
Proof.
  intros Hst Hup lost complete. subst lost complete.
  destruct (tick_phases env state dt state' (or_introl Hst) Hup)
    as (dyn & st' & ts' & es0 & k & es1 & l' & s' & ps1 & es2 & m' & t' & ps2
        & k' & Hdyn & Hspawn & Hmove & Hproj & Hfire & ->).
  cbn [enemies enemiesToSpawn lives status timer spawnTimer].
  destruct (moveEnemies_status _ _ _ _ _ _ _ _ _ _ _ Hmove) as [Hle Hs].
  rewrite Hst in Hs.
  destruct (moveProjectiles_hitIf _ _ _ _ _ _ _ Hproj) as [Hhit _].
  apply Forall2_length in Hhit.
  assert (Hlen : (length es1 <= length es0)%nat).
  { clear -Hmove. revert Hmove. generalize (lives state) (status state).
    revert es1 l' s'.
    induction es0 as [|e es0 IH]; intros es1 l' s' l s H; simpl in H.
    - by injection H as <- _ _.
    - destruct (moveEnemy _ _ _ _ _ l s e) as [[[[e1 keep] l1] s1]|];
        simpl in H; [|done].
      destruct (moveEnemies _ _ _ _ _ l1 s1 es0) as [[[es2 l2] s2]|] eqn:Hes;
        simpl in H; [|done].
      injection H as <- _ _. apply IH in Hes.
      destruct keep; simpl; lia. }
  split_and!.
  - destruct (spawn_cases _ _ _ _ _ _ _ Hspawn)
      as [[-> ->]|(new & -> & Hn & -> & Hq & -> & _)].
    + left. split; [done|]. lia.
    + right. split_and!; try done. rewrite length_app in Hlen. simpl in Hlen.
      lia.
  - done.
  - unfold waveDone. rewrite Hs.
    destruct es2;
      [rewrite bool_decide_eq_true_2 by done
      |rewrite bool_decide_eq_false_2 by done];
      destruct ((l' <? lives state) && (l' <=? 0)); cbn [negb length];
      rewrite ?andb_false_r, ?andb_true_r; try done;
      by destruct (ts' =? 0).
  - unfold waveDone. rewrite Hs.
    destruct es2;
      [rewrite bool_decide_eq_true_2 by done
      |rewrite bool_decide_eq_false_2 by done];
      destruct ((l' <? lives state) && (l' <=? 0)); cbn [negb length];
      rewrite ?andb_false_r, ?andb_true_r; try done;
      by destruct (ts' =? 0).
Qed.

Lemma wave_completion_witness :
  exists state',
    status arrived_state = playing
    /\ updateGame sample_env arrived_state 16 = Some state'
    /\ lives state' <= lives arrived_state
    /\ status state' = playing /\ timer state' = timer arrived_state.
Proof.
  eexists.
  assert (H1 : status arrived_state = playing) by reflexivity.
  assert (H2 : updateGame sample_env arrived_state 16
               = Some (default road_state
                         (updateGame sample_env arrived_state 16))).
  { vm_compute. reflexivity. }
  split; [exact H1|]. split; [exact H2|].
  destruct (wave_completion sample_env arrived_state 16 _ H1 H2)
    as (_ & Hl & Hs & Ht).
  split; [exact Hl|]. split; [rewrite Hs|rewrite Ht]; vm_compute; reflexivity.
Defined.

(** X21.  The button that starts the next wave by hand is shown for a
    state in play without enemies and with nothing left to spawn.  No tick
    in play returns such a state: the wave-completion check has then
    already started a countdown. *)
Theorem next_wave_button_hidden env state dt state' :
  status state = playing ->
  updateGame env state dt = Some state' ->
  nextWaveButton state' = false.
Proof.
  intros Hst Hup.
  destruct (tick_phases env state dt state' (or_introl Hst) Hup)
    as (dyn & st' & ts' & es0 & k & es1 & l' & s' & ps1 & es2 & m' & t' & ps2
        & k' & _ & _ & _ & _ & _ & ->).
  unfold nextWaveButton, waveDone. cbn [status enemies enemiesToSpawn].
  destruct (Z.of_nat (length es2) =? 0); [|by rewrite andb_false_r].
  destruct (ts' =? 0); [|by rewrite andb_false_r].
  cbn [andb]. rewrite !andb_true_r.
  destruct (GameStatus_eqb s' playing) eqn:Hs; [|done].
  by destruct (maxWavesPerStage state <=? wave state).
Qed.

Lemma next_wave_button_hidden_witness :
  exists state',
    status road_state = playing
    /\ nextWaveButton road_state = true
    /\ updateGame sample_env road_state 16 = Some state'
    /\ status state' = wave_countdown
    /\ nextWaveButton state' = false.
Proof.
  eexists.
  assert (H1 : status road_state = playing) by reflexivity.
  assert (H2 : updateGame sample_env road_state 16
               = Some (default road_state
                         (updateGame sample_env road_state 16))).
  { vm_compute. reflexivity. }
  split; [exact H1|]. split; [reflexivity|]. split; [exact H2|].
  split; [vm_compute; reflexivity|].
  exact (next_wave_button_hidden sample_env road_state 16 _ H1 H2).
Defined.

(** The state [state] with the timer of a countdown run down by [dt]. *)
Lemma countdown_tick env state dt :
  status state = build_phase \/ status state = wave_countdown
  \/ status state = stage_transition ->
  updateGame env state dt
  = if Qleb (timer state - dt) 0
    then startNextWave env
           (mkGameState
              (nodes state) (edges state) (enemies state) (towers state)
              (projectiles state) (roadBlocks state)
              (money state) (lives state) (wave state) (stage state)
              (maxWavesPerStage state) (status state)
              (timer state - dt)%Q (spawnTimer state) (enemiesToSpawn state)
              (startNodeId state) (endNodeId state))
    else Some
           (mkGameState
              (nodes state) (edges state) (enemies state) (towers state)
              (projectiles state) (roadBlocks state)
              (money state) (lives state) (wave state) (stage state)
              (maxWavesPerStage state) (status state)
              (timer state - dt)%Q (spawnTimer state) (enemiesToSpawn state)
              (startNodeId state) (endNodeId state)).
Proof.
  unfold updateGame. by intros [->|[->| ->]].
Qed.

(** X17.  The end of a countdown.  A tick in [build_phase],
    [wave_countdown] or [stage_transition] only runs the timer down while
    it stays positive.  The tick that brings it to zero or below starts a
    wave: below the last wave of the stage, the next wave of the same
    stage with [10 + 2 * wave] enemies to spawn and everything else kept;
    at the last wave, wave 1 of the next stage on a freshly generated map,
    with money back to 800, lives to 20, no tower, enemy, projectile or
    road block, and [10 + 2 * stage] enemies to spawn.  The status is then
    [playing]; the timer keeps the value it ran down to. *)
Theorem countdown_ends env state dt :
  status state = build_phase \/ status state = wave_countdown
  \/ status state = stage_transition ->
  exists state',
    updateGame env state dt = Some state'
    /\ timer state' = (timer state - dt)%Q
    /\ spawnTimer state' = spawnTimer state
    /\ maxWavesPerStage state' = maxWavesPerStage state
    /\ ((0 < timer state - dt)%Q ->
          state' = mkGameState
                     (nodes state) (edges state) (enemies state)
                     (towers state) (projectiles state) (roadBlocks state)
                     (money state) (lives state) (wave state) (stage state)
                     (maxWavesPerStage state) (status state)
                     (timer state - dt)%Q (spawnTimer state)
                     (enemiesToSpawn state)
                     (startNodeId state) (endNodeId state))
    /\ ((timer state - dt <= 0)%Q -> wave state < maxWavesPerStage state ->
          state' = mkGameState
                     (nodes state) (edges state) (enemies state)
                     (towers state) (projectiles state) (roadBlocks state)
                     (money state) (lives state) (wave state + 1)
                     (stage state) (maxWavesPerStage state) playing
                     (timer state - dt)%Q (spawnTimer state)
                     (10 + (wave state + 1) * 2)
                     (startNodeId state) (endNodeId state))
    /\ ((timer state - dt <= 0)%Q -> maxWavesPerStage state <= wave state ->
          Graph.generateGraph env (stage state + 1)
          = Some (Graph.mkGraphData (nodes state') (edges state')
                                    (startNodeId state') (endNodeId state'))
          /\ enemies state' = [] /\ towers state' = []
          /\ projectiles state' = [] /\ roadBlocks state' = []
          /\ money state' = 800 /\ lives state' = 20
          /\ wave state' = 1 /\ stage state' = stage state + 1
          /\ status state' = playing
          /\ enemiesToSpawn state' = 10 + (stage state + 1) * 2).
Proof.
  intros Hst. rewrite (countdown_tick env state dt Hst).
  destruct (Qleb (timer state - dt) 0) eqn:Hq.
  - apply Qle_bool_iff in Hq. unfold startNextWave.
    cbn [maxWavesPerStage wave stage].
    destruct (maxWavesPerStage state <=? wave state) eqn:Hw.
    + apply Z.leb_le in Hw.
      destruct (Economy.generateGraph_total env (stage state + 1)) as [g Hg].
      rewrite Hg. cbn [mbind option_bind]. eexists. split; [reflexivity|].
      cbn. split_and!; try done.
      * intros Hpos. exfalso. lra.
      * intros _ Hlt. lia.
      * intros _ _. split_and!; try done. by destruct g.
    + apply Z.leb_gt in Hw. eexists. split; [reflexivity|].
      cbn. split_and!; try done.
      * intros Hpos. exfalso. lra.
      * intros _ Hle. lia.
  - unfold Qleb in Hq. eexists. split; [reflexivity|]. cbn.
    split_and!; try done.
    + intros Hle. apply Qle_bool_iff in Hle. congruence.
    + intros Hle. apply Qle_bool_iff in Hle. congruence.
Qed.

Lemma countdown_ends_witness :
  status (default road_state (initGameState sample_env)) = build_phase
  /\ exists state',
       updateGame sample_env (default road_state (initGameState sample_env))
                  10000 = Some state'
       /\ status state' = playing /\ wave state' = 1
       /\ enemiesToSpawn state' = 12.
Proof.
  assert (H : status (default road_state (initGameState sample_env))
              = build_phase) by (vm_compute; reflexivity).
  split; [exact H|].
  destruct (countdown_ends sample_env
              (default road_state (initGameState sample_env)) 10000
              (or_introl H))
    as (state' & Hup & _ & _ & _ & _ & Hnext & _).
  exists state'. split; [exact Hup|].
  rewrite Hnext; [by vm_compute|by vm_compute|by vm_compute].
Defined.

End Waves.

Module Upgrades.

Import Engine EngineSpec TickSpec Weights TickPhases Samples MoreSamples.

(** X18.  A successful upgrade.  When the first tower carrying the id is
    of tier 1 and the money is at least 200, or of tier 2 and the money at
    least 400, [upgradeTower] takes exactly that cost and replaces that
    tower, in place, by one of the next tier on the same node, with the
    same id and the same [lastFired], whose recorded cost grew by the
    price; nothing else changes.  From tier 1 the tower takes the
    requested type; from tier 2 it keeps its type, whatever type is
    requested. *)
Theorem upgradeTower_frame state towerId upgradeType tower :
  List.find (fun t => String.eqb (t_id t) towerId) (towers state)
    = Some tower ->
  (t_tier tower = 1 /\ 200 <= money state)
  \/ (t_tier tower = 2 /\ 400 <= money state) ->
  let price := if t_tier tower =? 1 then 200 else 400 in
  exists i tower',
    towers state !! i = Some tower
    /\ upgradeTower state towerId upgradeType
       = mkGameState
           (nodes state) (edges state) (enemies state)
           (<[i := tower']> (towers state))
           (projectiles state) (roadBlocks state)
           (money state - price) (lives state) (wave state) (stage state)
           (maxWavesPerStage state) (status state) (timer state)
           (spawnTimer state) (enemiesToSpawn state)
           (startNodeId state) (endNodeId state)
    /\ t_id tower' = t_id tower /\ t_nodeId tower' = t_nodeId tower
    /\ t_lastFired tower' = t_lastFired tower
    /\ t_tier tower' = t_tier tower + 1
    /\ t_cost tower' = t_cost tower + price
    /\ (t_tier tower = 1 ->
          upgradeType = T_fast_shot \/ upgradeType = T_heavy_shot
          \/ upgradeType = T_area_damage ->
          t_type tower' = upgradeType)
    /\ (t_tier tower = 2 ->
          t_type tower' = t_type tower
          /\ upgradeTower state towerId upgradeType
             = upgradeTower state towerId T_fast_shot).
Proof.
  intros Hfind Hcase price. subst price. unfold upgradeTower.
  pose proof (Commands.findIndex_find
                (fun t => String.eqb (t_id t) towerId) (towers state)) as Hidx.
  destruct (findIndex _ (towers state)) as [i|]; [|congruence].
  destruct Hidx as (tower0 & Hi & Hfind'). rewrite Hfind in Hfind'.
  injection Hfind' as <-. rewrite Hi.
  assert (Hm : (money state <? 200) = false) by (apply Z.ltb_ge; lia).
  rewrite Hm. exists i.
  destruct Hcase as [[Ht Hmoney]|[Ht Hmoney]]; rewrite Ht; cbn [Z.eqb Pos.eqb].
  - rewrite Hm.
    destruct upgradeType; eexists; (split; [done|]); (split; [reflexivity|]);
      cbn; split_and!; try done; try lia;
      try (intros _ [?|[?|?]]; done).
  - assert (Hm4 : (money state <? 400) = false) by (apply Z.ltb_ge; lia).
    rewrite Hm4.
    destruct (t_type tower) eqn:Hty; eexists; (split; [done|]);
      (split; [reflexivity|]); cbn; split_and!; try done; try lia.
Qed.

Lemma upgradeTower_frame_witness :
  exists state i tower',
    let tower := newTower sample_env "c" in
    List.find (fun t => String.eqb (t_id t) "r") (towers state)
      = Some tower
    /\ towers state !! i = Some tower
    /\ money (upgradeTower state "r" T_heavy_shot) = 500
    /\ upgradeTower state "r" T_heavy_shot
       = mkGameState
           (nodes state) (edges state) (enemies state)
           (<[i := tower']> (towers state))
           (projectiles state) (roadBlocks state)
           (money state - 200) (lives state) (wave state) (stage state)
           (maxWavesPerStage state) (status state) (timer state)
           (spawnTimer state) (enemiesToSpawn state)
           (startNodeId state) (endNodeId state).
Proof.
  exists (placeTower sample_env road_state "c").
  assert (H1 : List.find (fun t => String.eqb (t_id t) "r")
                 (towers (placeTower sample_env road_state "c"))
               = Some (newTower sample_env "c")) by (vm_compute; reflexivity).
  assert (H2 : (t_tier (newTower sample_env "c") = 1
                /\ 200 <= money (placeTower sample_env road_state "c"))
               \/ (t_tier (newTower sample_env "c") = 2
                   /\ 400 <= money (placeTower sample_env road_state "c"))).
  { left. split; [reflexivity|]. vm_compute. discriminate. }
  destruct (upgradeTower_frame _ "r" T_heavy_shot _ H1 H2)
    as (i & tower' & Hi & Heq & _).
  exists i, tower'. cbv zeta. split; [exact H1|]. split; [exact Hi|].
  split; [vm_compute; reflexivity|]. exact Heq.
Defined.

End Upgrades.


Module Blocks.

Import Engine EngineSpec TickSpec Weights TickPhases Samples MoreSamples.

(** X19.  The life of a road block.  A block placed when the clock reads
    [T] costs 50 and is on the map after a later tick in play exactly
    when that tick reads the clock before [T + 5000]; the blocks that were
    there before the placement are not affected by it. *)
Theorem roadBlock_lifetime env1 env2 state nodeId dt state' :
  placeRoadBlock env1 state nodeId <> state ->
  status state = playing ->
  updateGame env2 (placeRoadBlock env1 state nodeId) dt = Some state' ->
  money (placeRoadBlock env1 state nodeId) = money state - 50
  /\ ((exists rb, rb ∈ roadBlocks state' /\ rb_nodeId rb = nodeId)
      <-> date_now env2 0 < date_now env1 0 + 5000)
  /\ roadBlocks state'
     = (standing (date_now env2 0) (roadBlocks state)
        ++ (if date_now env2 0 <? date_now env1 0 + 5000
            then [mkRoadBlock nodeId (date_now env1 0 + 5000)] else []))%list.
Proof.
  intros Hplaced Hst Hup.
  assert (Hform : placeRoadBlock env1 state nodeId
            = mkGameState
                (nodes state) (edges state) (enemies state) (towers state)
                (projectiles state)
                (roadBlocks state ++ [newRoadBlock env1 nodeId])%list
                (money state - 50) (lives state) (wave state)
                (stage state) (maxWavesPerStage state) (status state)
                (timer state) (spawnTimer state) (enemiesToSpawn state)
                (startNodeId state) (endNodeId state)
            /\ forall rb, rb ∈ roadBlocks state -> rb_nodeId rb <> nodeId).
  { revert Hplaced. unfold placeRoadBlock.
    destruct (findNode (nodes state) nodeId) as [node|]; [|done].
    destruct (negb (Graph.isPath node) || (money state <? 50)); [done|].
    destruct (List.find _ (roadBlocks state)) eqn:Hfind; [done|].
    intros _. split; [done|]. intros rb Hrb.
    eapply find_none in Hfind; [|by apply list_elem_of_In].
    by apply String.eqb_neq in Hfind. }
  destruct Hform as [Hform Hfree]. rewrite Hform in Hup |- *.
  assert (Hst' : status
                   (mkGameState
                      (nodes state) (edges state) (enemies state)
                      (towers state) (projectiles state)
                      (roadBlocks state ++ [newRoadBlock env1 nodeId])%list
                      (money state - 50) (lives state) (wave state)
                      (stage state) (maxWavesPerStage state) (status state)
                      (timer state) (spawnTimer state) (enemiesToSpawn state)
                      (startNodeId state) (endNodeId state)) = playing)
    by exact Hst.
  destruct (tick_phases env2 _ dt state' (or_introl Hst') Hup)
    as (dyn & st' & ts' & es0 & k & es1 & l' & s' & ps1 & es2 & m' & t' & ps2
        & k' & _ & _ & _ & _ & _ & ->).
  cbn [money roadBlocks]. unfold standing. rewrite List.filter_app.
  cbn [List.filter newRoadBlock rb_expiresAt].
  split; [done|]. split; [|done].
  destruct (date_now env2 0 <? date_now env1 0 + 5000) eqn:Hlt.
  - apply Z.ltb_lt in Hlt. split; [done|]. intros _.
    eexists. split; [apply elem_of_app; right; left|done].
  - apply Z.ltb_ge in Hlt. split; [|lia].
    intros (rb & Hin & Hid). rewrite app_nil_r in Hin.
    apply list_elem_of_In, filter_In in Hin as [Hin _].
    apply list_elem_of_In in Hin. by destruct (Hfree rb Hin).
Qed.

Lemma roadBlock_lifetime_witness :
  exists state',
    placeRoadBlock sample_env road_state "b" <> road_state
    /\ status road_state = playing
    /\ updateGame later_env (placeRoadBlock sample_env road_state "b") 16
       = Some state'
    /\ roadBlocks state' = [mkRoadBlock "b" 5000].
Proof.
  eexists.
  assert (H1 : placeRoadBlock sample_env road_state "b" <> road_state).
  { intros H. apply (f_equal money) in H. vm_compute in H. discriminate H. }
  assert (H2 : status road_state = playing) by reflexivity.
  assert (H3 : updateGame later_env (placeRoadBlock sample_env road_state "b")
                 16
               = Some (default road_state
                         (updateGame later_env
                            (placeRoadBlock sample_env road_state "b") 16))).
  { vm_compute. reflexivity. }
  split; [exact H1|]. split; [exact H2|]. split; [exact H3|].
  destruct (roadBlock_lifetime _ _ _ _ _ _ H1 H2 H3) as (_ & _ & ->).
  vm_compute. reflexivity.
Defined.

(** X20.  Pause and resume.  From a state that is not paused, a pause,
    any number of frames and a resume return the state with status
    [playing]: a playing state comes back exactly as it was, and a state
    in a countdown or [game_over] comes back in play. *)
Theorem pause_resume_round_trip state frames :
  status state <> paused -> Forall isFrame frames ->
  App.run state (App.TogglePause :: frames ++ [App.TogglePause])
  = Some (withStatus playing state)
  /\ (status state = playing -> withStatus playing state = state).
Proof.
  intros Hst Hframes. split; [|intros <-; by destruct state].
  cbn [App.run App.step].
  assert (Hp : status (App.togglePause state) = paused).
  { unfold App.togglePause. simpl. by destruct (status state). }
  assert (Hrun : forall cs, Forall isFrame cs ->
            App.run (App.togglePause state) (cs ++ [App.TogglePause])
            = Some (App.togglePause (App.togglePause state))).
  { intros cs Hcs. induction Hcs as [|c cs Hc _ IH]; [done|].
    destruct c; try done. cbn [app App.run App.step].
    by rewrite (Ticks.animate_paused _ _ _ Hp). }
  rewrite (Hrun frames Hframes). f_equal.
  unfold App.togglePause, withStatus. simpl. by destruct (status state).
Qed.

Lemma pause_resume_round_trip_witness :
  status over_state <> paused
  /\ Forall isFrame [App.Frame sample_env 16]
  /\ App.run over_state [App.TogglePause; App.Frame sample_env 16;
                         App.TogglePause]
     = Some (withStatus playing over_state).
Proof.
  assert (H1 : status over_state <> paused) by discriminate.
  assert (H2 : Forall isFrame [App.Frame sample_env 16]).
  { constructor; [exact I|constructor]. }
  split; [exact H1|]. split; [exact H2|].
  exact (proj1 (pause_resume_round_trip over_state _ H1 H2)).
Defined.

End Blocks.
